(** * FluxForge: the chunk scheduler, its task controller and retry executor

    A shallow embedding of [task-executor.ts] (class [TaskController],
    function [executeWithRetry]), of [index.ts] ([chunkFile] with
    [createWorker], [processChunks], [calculateFileHash], [collectChunks])
    and of [worker.ts] ([processChunk], [onmessage]).

    JavaScript runs these functions on one thread: an [async] function runs
    without interruption up to its next [await], and is resumed later by the
    host.  Every function below is therefore a state transformer that runs one
    such uninterrupted stretch, and the places where the source awaits are
    constructors of a program-counter type.  What the host and the caller
    decide (when a timer fires, how a processor call ends, when the user
    presses pause) are events. *)

From stdpp Require Import base list numbers strings gmap.
From Stdlib Require Import ZArith Lia.

Set Default Proof Using "Type".

(** ** Thrown values *)

(** [TaskCancelled] is [new Error('Task cancelled')]; [Failure tag] stands for
    any other value a promise rejects with. *)
Inductive Error : Type :=
| TaskCancelled
| Failure (tag : nat).

#[global] Instance Error_eq_dec : EqDecision Error.
Proof. solve_decision. Defined.

(** ** The host: clock, armed timeouts, promises, abort controllers *)

(** One [setTimeout(callback, ms)] that has neither fired nor been cleared.
    [callback] is the promise its callback resolves. *)
Record Timeout : Type := mkTimeout { handle : nat; due : Z; callback : nat }.

Record Host : Type := mkHost {
  clock : Z;                (* current time, in milliseconds *)
  timeouts : list Timeout;  (* armed timers *)
  resolved : list nat;      (* promises whose resolve function has been called *)
  aborted : list bool;      (* AbortController objects, by identity: signal.aborted *)
  nextId : nat;             (* next fresh promise or timer identity *)
  sleepLog : list Z         (* durations passed to setTimeout, oldest first *)
}.

(** ** class TaskController *)

(** An element of the [timers] array: [{ timer, resolve }]. *)
Record TimerEntry : Type := mkTimerEntry { timer : nat; resolve : nat }.

Record TaskController : Type := mkTaskController {
  paused : bool;
  cancelled : bool;
  pauseResolvers : list nat;   (* resolve functions, named by their promise *)
  timers : list TimerEntry;
  abortController : nat        (* the AbortController object currently held *)
}.

Record World : Type := mkWorld { ctl : TaskController; host : Host }.

Definition isResolved (p : nat) (w : World) : bool :=
  bool_decide (p ∈ resolved (host w)).

Definition signalAborted (h : nat) (w : World) : bool :=
  default false (aborted (host w) !! h).

(** [new TaskController()] in a host whose clock shows [t0]: both flags are
    false, both arrays empty, and a first AbortController is allocated. *)
Definition newTaskController (t0 : Z) : World :=
  {| ctl := {| paused := false; cancelled := false; pauseResolvers := [];
               timers := []; abortController := 0 |};
     host := {| clock := t0; timeouts := []; resolved := []; aborted := [false];
                nextId := 0; sleepLog := [] |} |}.

(** [get signal()] *)
Definition signal (w : World) : nat := abortController (ctl w).

(** [checkCancelled()]: [Some e] when it throws [e]. *)
Definition checkCancelled (w : World) : option Error :=
  if cancelled (ctl w) then Some TaskCancelled else None.

(** [waitIfPaused()]: returns at once when not paused ([None]: the promise of
    the async call is already fulfilled); otherwise creates a promise and
    pushes its resolver. *)
Definition waitIfPaused (w : World) : World * option nat :=
  if paused (ctl w) then
    let p := nextId (host w) in
    ({| ctl := {| paused := paused (ctl w); cancelled := cancelled (ctl w);
                  pauseResolvers := pauseResolvers (ctl w) ++ [p];
                  timers := timers (ctl w);
                  abortController := abortController (ctl w) |};
        host := {| clock := clock (host w); timeouts := timeouts (host w);
                   resolved := resolved (host w); aborted := aborted (host w);
                   nextId := S p; sleepLog := sleepLog (host w) |} |}, Some p)
  else (w, None).

(** For how long [setTimeout(callback, ms)] holds its callback back, at the
    least.  The host keeps the delay as a 32-bit signed integer: a number
    from 0 to 2^31 - 1 is the delay in milliseconds.  A negative number
    counts as no delay, and a number above 2^31 - 1 is not honoured either:
    Node.js replaces it by 1 ms, a browser wraps it around to 32 bits, which
    gives no delay up to 2^32 - 1.  Such a timer is due at once here, so
    that it can fire whenever it can in either host. *)
Definition timeoutDelay (ms : Z) : Z :=
  if bool_decide (0 ≤ ms ≤ 2147483647)%Z then ms else 0%Z.
Arguments timeoutDelay : simpl never.

(** [delay(ms)]: creates a promise [p], arms [setTimeout(resolve, ms)] and
    pushes [{ timer, resolve }].  Neither flag is read. *)
Definition delay (ms : Z) (w : World) : World * nat :=
  let p := nextId (host w) in
  let t := S p in
  ({| ctl := {| paused := paused (ctl w); cancelled := cancelled (ctl w);
                pauseResolvers := pauseResolvers (ctl w);
                timers := timers (ctl w) ++ [{| timer := t; resolve := p |}];
                abortController := abortController (ctl w) |};
      host := {| clock := clock (host w);
                 timeouts := timeouts (host w)
                   ++ [{| handle := t; due := clock (host w) + timeoutDelay ms; callback := p |}];
                 resolved := resolved (host w); aborted := aborted (host w);
                 nextId := S t; sleepLog := sleepLog (host w) ++ [ms] |} |}, p).

(** [clearTimers()]: [timers.splice(0).forEach(...)] empties the array, and for
    every entry disarms the timeout and calls its resolver. *)
Definition clearTimers (w : World) : World :=
  let ts := timers (ctl w) in
  {| ctl := {| paused := paused (ctl w); cancelled := cancelled (ctl w);
               pauseResolvers := pauseResolvers (ctl w);
               timers := [];
               abortController := abortController (ctl w) |};
     host := {| clock := clock (host w);
                timeouts := filter (λ t, handle t ∉ (timer <$> ts)) (timeouts (host w));
                resolved := resolved (host w) ++ (resolve <$> ts);
                aborted := aborted (host w);
                nextId := nextId (host w); sleepLog := sleepLog (host w) |} |}.

(** [this.abortController.abort()] *)
Definition abort (w : World) : World :=
  {| ctl := ctl w;
     host := {| clock := clock (host w); timeouts := timeouts (host w);
                resolved := resolved (host w);
                aborted := <[abortController (ctl w) := true]> (aborted (host w));
                nextId := nextId (host w); sleepLog := sleepLog (host w) |} |}.

Definition setPaused (b : bool) (w : World) : World :=
  {| ctl := {| paused := b; cancelled := cancelled (ctl w);
               pauseResolvers := pauseResolvers (ctl w); timers := timers (ctl w);
               abortController := abortController (ctl w) |};
     host := host w |}.

Definition setCancelled (b : bool) (w : World) : World :=
  {| ctl := {| paused := paused (ctl w); cancelled := b;
               pauseResolvers := pauseResolvers (ctl w); timers := timers (ctl w);
               abortController := abortController (ctl w) |};
     host := host w |}.

(** [this.abortController = new AbortController()] *)
Definition newAbortController (w : World) : World :=
  {| ctl := {| paused := paused (ctl w); cancelled := cancelled (ctl w);
               pauseResolvers := pauseResolvers (ctl w); timers := timers (ctl w);
               abortController := length (aborted (host w)) |};
     host := {| clock := clock (host w); timeouts := timeouts (host w);
                resolved := resolved (host w);
                aborted := aborted (host w) ++ [false];
                nextId := nextId (host w); sleepLog := sleepLog (host w) |} |}.

(** [this.pauseResolvers.splice(0).forEach(resolve => resolve())] *)
Definition releasePaused (w : World) : World :=
  {| ctl := {| paused := paused (ctl w); cancelled := cancelled (ctl w);
               pauseResolvers := []; timers := timers (ctl w);
               abortController := abortController (ctl w) |};
     host := {| clock := clock (host w); timeouts := timeouts (host w);
                resolved := resolved (host w) ++ pauseResolvers (ctl w);
                aborted := aborted (host w);
                nextId := nextId (host w); sleepLog := sleepLog (host w) |} |}.

(** [this.pauseResolvers.length = 0]: the resolvers are dropped, not called. *)
Definition dropPaused (w : World) : World :=
  {| ctl := {| paused := paused (ctl w); cancelled := cancelled (ctl w);
               pauseResolvers := []; timers := timers (ctl w);
               abortController := abortController (ctl w) |};
     host := host w |}.

Definition pause (w : World) : World :=
  clearTimers (abort (setPaused true w)).

Definition resume (w : World) : World :=
  if negb (paused (ctl w)) then w
  else releasePaused (clearTimers (newAbortController (setPaused false w))).

Definition cancel (w : World) : World :=
  let w1 := clearTimers (abort (setCancelled true w)) in
  if paused (ctl w1) then releasePaused (setPaused false w1) else w1.

Definition cleanup (w : World) : World :=
  clearTimers (dropPaused (setPaused false w)).

(** ** What the host does to a controller's world *)

(** The armed timer [h] fires: possible once the clock has reached its due
    time.  Its callback resolves the promise of the [delay] call.  The entry
    in the controller's [timers] array stays where it is. *)
Definition fireTimeout (h : nat) (w : World) : option World :=
  match list_find (λ t, handle t = h) (timeouts (host w)) with
  | Some (_, t) =>
      if bool_decide (due t ≤ clock (host w))%Z then
        Some {| ctl := ctl w;
                host := {| clock := clock (host w);
                           timeouts := filter (λ t, handle t ≠ h) (timeouts (host w));
                           resolved := resolved (host w) ++ [callback t];
                           aborted := aborted (host w);
                           nextId := nextId (host w); sleepLog := sleepLog (host w) |} |}
      else None
  | None => None
  end.

(** [dt] milliseconds pass. *)
Definition elapse (dt : Z) (w : World) : option World :=
  if bool_decide (0 ≤ dt)%Z then
    Some {| ctl := ctl w;
            host := {| clock := clock (host w) + dt; timeouts := timeouts (host w);
                       resolved := resolved (host w); aborted := aborted (host w);
                       nextId := nextId (host w); sleepLog := sleepLog (host w) |} |}
  else None.

(** ** Settled promises *)

Inductive Settled (A : Type) : Type :=
| Fulfilled (v : A)
| Rejected (e : Error).
Arguments Fulfilled {A} v.
Arguments Rejected {A} e.

(** ** executeWithRetry *)

(** Where an [executeWithRetry] call is suspended, with the value of its local
    [retry]; or how it ended. *)
Inductive Pc (T : Type) : Type :=
| AwaitWaitIfPaused (retry : nat) (p : option nat) (* await controller.waitIfPaused() *)
| AwaitFn (retry : nat)                            (* await fn() *)
| AwaitDelay (retry : nat) (p : nat)               (* await controller.delay(delay) *)
| Returned (v : T)
| Threw (e : Error).
Arguments AwaitWaitIfPaused {T} retry p.
Arguments AwaitFn {T} retry.
Arguments AwaitDelay {T} retry p.
Arguments Returned {T} v.
Arguments Threw {T} e.

(** [Math.min(1000 * retry, 5000)] *)
Definition backoff (retry : nat) : Z := Z.min (1000 * Z.of_nat retry) 5000.

Section ExecuteWithRetry.
Context {T : Type}.

(** Top of the [while (true)] body: first [checkCancelled()], then the call
    of [waitIfPaused()], up to the [await] on its promise. *)
Definition loopHead (retry : nat) (w : World) : World * Pc T :=
  match checkCancelled w with
  | Some e => (w, Threw e)
  | None => let '(w', p) := waitIfPaused w in (w', AwaitWaitIfPaused retry p)
  end.

(** The call itself: [let retry = 0] and the first pass through the loop. *)
Definition executeWithRetry (w : World) : World * Pc T := loopHead 0 w.

(** After [await controller.waitIfPaused()]: second [checkCancelled()], then
    [fn()] is called and awaited. *)
Definition afterWait (retry : nat) (w : World) : Pc T :=
  match checkCancelled w with
  | Some e => Threw e
  | None => AwaitFn retry
  end.

(** The awaited controller promise is settled. *)
Definition canResume (pc : Pc T) (w : World) : bool :=
  match pc with
  | AwaitWaitIfPaused _ None => true
  | AwaitWaitIfPaused _ (Some p) => isResolved p w
  | AwaitDelay _ p => isResolved p w
  | _ => false
  end.

(** The continuation after a controller promise: from [waitIfPaused] on to
    the call of [fn]; from [delay] back to the top of the loop. *)
Definition resumeRetry (pc : Pc T) (w : World) : option (World * Pc T) :=
  if canResume pc w then
    match pc with
    | AwaitWaitIfPaused retry _ => Some (w, afterWait retry w)
    | AwaitDelay retry _ => Some (loopHead retry w)
    | _ => None
    end
  else None.

(** The promise of [fn()] settles: [return await fn()], or the [catch]
    block, which drops the error, computes the delay from [retry++] and
    awaits [controller.delay(delay)]. *)
Definition settleFn (r : Settled T) (pc : Pc T) (w : World) : option (World * Pc T) :=
  match pc with
  | AwaitFn retry =>
      match r with
      | Fulfilled v => Some (w, Returned v)
      | Rejected _ =>
          let '(w', p) := delay (backoff retry) w in
          Some (w', AwaitDelay (S retry) p)
      end
  | _ => None
  end.

Definition callsFn (pc : Pc T) : bool :=
  match pc with AwaitFn _ => true | _ => false end.

Definition retryOf (pc : Pc T) : option nat :=
  match pc with
  | AwaitWaitIfPaused r _ | AwaitFn r | AwaitDelay r _ => Some r
  | _ => None
  end.
End ExecuteWithRetry.

(** *** One executeWithRetry call and its environment *)

Inductive RetryEvent (T : Type) : Type :=
| Wake                          (* the awaited controller promise is settled: continue *)
| FnSettles (r : Settled T)     (* the promise of fn() settles *)
| TimerFires (h : nat)
| Elapse (dt : Z)
| CallPause
| CallResume
| CallCancel
| CallCleanup.
Arguments Wake {T}.
Arguments FnSettles {T} r.
Arguments TimerFires {T} h.
Arguments Elapse {T} dt.
Arguments CallPause {T}.
Arguments CallResume {T}.
Arguments CallCancel {T}.
Arguments CallCleanup {T}.

Record RetrySys (T : Type) : Type := mkRetrySys {
  rworld : World;
  rpc : Pc T;
  fnCalls : nat      (* how many times fn has been called *)
}.
Arguments mkRetrySys {T}.
Arguments rworld {T}.
Arguments rpc {T}.
Arguments fnCalls {T}.

Section RetrySystem.
Context {T : Type}.

(** [executeWithRetry(fn, controller)] called in world [w]. *)
Definition retryStart (w : World) : RetrySys T :=
  let '(w', pc) := executeWithRetry w in
  {| rworld := w'; rpc := pc; fnCalls := 0 |}.

Definition retryStep (s : RetrySys T) (ev : RetryEvent T) : option (RetrySys T) :=
  match ev with
  | Wake =>
      '(w', pc') ← resumeRetry (rpc s) (rworld s);
      Some {| rworld := w'; rpc := pc';
              fnCalls := if callsFn pc' then S (fnCalls s) else fnCalls s |}
  | FnSettles r =>
      '(w', pc') ← settleFn r (rpc s) (rworld s);
      Some {| rworld := w'; rpc := pc'; fnCalls := fnCalls s |}
  | TimerFires h =>
      w' ← fireTimeout h (rworld s);
      Some {| rworld := w'; rpc := rpc s; fnCalls := fnCalls s |}
  | Elapse dt =>
      w' ← elapse dt (rworld s);
      Some {| rworld := w'; rpc := rpc s; fnCalls := fnCalls s |}
  | CallPause => Some {| rworld := pause (rworld s); rpc := rpc s; fnCalls := fnCalls s |}
  | CallResume => Some {| rworld := resume (rworld s); rpc := rpc s; fnCalls := fnCalls s |}
  | CallCancel => Some {| rworld := cancel (rworld s); rpc := rpc s; fnCalls := fnCalls s |}
  | CallCleanup => Some {| rworld := cleanup (rworld s); rpc := rpc s; fnCalls := fnCalls s |}
  end.

Fixpoint retryRun (s : RetrySys T) (evs : list (RetryEvent T)) : option (RetrySys T) :=
  match evs with
  | [] => Some s
  | ev :: evs' => s' ← retryStep s ev; retryRun s' evs'
  end.

(** The schedule of an operation that fails on every attempt while nobody
    touches the controller: for each attempt, continue after
    [waitIfPaused], [fn] rejects, the back-off time passes, the timer
    fires, continue after [delay]. *)
Definition failingRound (w : World) (e : Error) (retry : nat) : list (RetryEvent T) :=
  [Wake; FnSettles (Rejected e); Elapse (backoff retry);
   TimerFires (S (nextId (host w) + 2 * retry)); Wake].

Fixpoint failingRounds (w : World) (e : Error) (from n : nat) : list (RetryEvent T) :=
  match n with
  | 0 => []
  | S n' => failingRound w e from ++ failingRounds w e (S from) n'
  end.
End RetrySystem.

(** ** index.ts: chunks and chunk sources *)

Record Chunk : Type := mkChunk {
  blob : string;
  hash : string;
  index : nat;
  start : Z;
  end_ : Z
}.

Record ProcessOptions : Type := mkProcessOptions {
  concurrency : option Z;      (* [None]: not given, the default 6 applies *)
  onProgress : bool            (* whether a callback was given *)
}.

Definition concurrencyOf (opts : ProcessOptions) : Z := default 6%Z (concurrency opts).

(** ** processChunks *)

(** One call of [processChunk], by the index of its chunk promise, together
    with the [.finally] callback attached to it. *)
Inductive Task : Type :=
| Unsubmitted                       (* processChunk not called for this source yet *)
| AwaitChunk                        (* await chunkPromise *)
| InRetry (pc : Pc unit)            (* await executeWithRetry(...), which is at pc *)
| Settling (r : Settled unit)       (* processChunk settled; the finally callback is queued *)
| Finalized (r : Settled unit).     (* the callback ran; the promise in [executing] settled *)

(** Where the main async function is. *)
Inductive Main : Type :=
| AwaitRace (rest members : list nat) (winner : option (Settled unit))
    (* await Promise.race(executing); [rest] are the sources not yet iterated *)
| AwaitAll (waiting : list nat) (result : option (Settled unit))
    (* await Promise.all(executing) *)
| Done (r : Settled unit).          (* after the finally block: mainPromise settled *)

Record Run : Type := mkRun {
  world : World;               (* controller *)
  tasks : list Task;           (* by chunk index; the length is chunkPromises.length *)
  executing : list nat;        (* the Set of pending task promises, in insertion order *)
  completed : nat;
  main : Main;
  progress : list (nat * nat); (* arguments of the onProgress calls, oldest first *)
  invoked : list (nat * nat)   (* processor calls: chunk index and signal passed *)
}.

Definition setWorld (w : World) (s : Run) : Run :=
  {| world := w; tasks := tasks s; executing := executing s; completed := completed s;
     main := main s; progress := progress s; invoked := invoked s |}.

Definition setMain (m : Main) (s : Run) : Run :=
  {| world := world s; tasks := tasks s; executing := executing s; completed := completed s;
     main := m; progress := progress s; invoked := invoked s |}.

Definition setTask (i : nat) (t : Task) (s : Run) : Run :=
  {| world := world s; tasks := <[i := t]> (tasks s); executing := executing s;
     completed := completed s; main := main s; progress := progress s;
     invoked := invoked s |}.

(** A task whose [executeWithRetry] call is at [pc]: when the call has ended,
    so has [processChunk]. *)
Definition taskOfPc (pc : Pc unit) : Task :=
  match pc with
  | Returned v => Settling (Fulfilled v)
  | Threw e => Settling (Rejected e)
  | _ => InRetry pc
  end.

(** [const promise = processChunk(chunkPromise).finally(...)]:
    [processChunk] runs up to [await chunkPromise]; then [executing.add(promise)]. *)
Definition submit (i : nat) (s : Run) : Run :=
  {| world := world s; tasks := <[i := AwaitChunk]> (tasks s);
     executing := executing s ++ [i]; completed := completed s; main := main s;
     progress := progress s; invoked := invoked s |}.

(** The [finally] block of the main function, after which [mainPromise]
    settles with [r]. *)
Definition settleMain (r : Settled unit) (s : Run) : Run :=
  {| world := cleanup (world s); tasks := tasks s; executing := [];
     completed := completed s; main := Done r; progress := progress s;
     invoked := invoked s |}.

(** [await Promise.all(executing)]: an empty set is fulfilled at once. *)
Definition awaitAll (s : Run) : Run :=
  setMain (AwaitAll (executing s)
             (match executing s with [] => Some (Fulfilled ()) | _ => None end)) s.

(** The [for (const chunkPromise of chunkPromises)] loop over the sources
    [rest] still to come, up to the next [await]. *)
Fixpoint mainLoop (opts : ProcessOptions) (rest : list nat) (s : Run) : Run :=
  match rest with
  | [] => awaitAll s
  | i :: rest' =>
      match checkCancelled (world s) with
      | Some e => settleMain (Rejected e) s
      | None =>
          let s1 := submit i s in
          if bool_decide (concurrencyOf opts ≤ Z.of_nat (length (executing s1)))%Z
          then setMain (AwaitRace rest' (executing s1) None) s1
          else mainLoop opts rest' s1
      end
  end.

(** [processChunks(chunkPromises, processor, options)] for [n] chunk promises,
    called when the clock shows [t0]: the state in which it returns its
    ProcessController, the main function having run up to its first [await]
    (the [main] field of the record given to [mainLoop] is overwritten by
    it on every path). *)
Definition processChunks (opts : ProcessOptions) (n : nat) (t0 : Z) : Run :=
  mainLoop opts (seq 0 n)
    {| world := newTaskController t0; tasks := replicate n Unsubmitted;
       executing := []; completed := 0; main := AwaitAll [] None;
       progress := []; invoked := [] |}.

(** Task [i]'s promise in [executing] has settled with [r]: what
    [Promise.race] or [Promise.all] makes of it. *)
Definition notify (i : nat) (r : Settled unit) (m : Main) : Main :=
  match m with
  | AwaitRace rest members None =>
      if bool_decide (i ∈ members) then AwaitRace rest members (Some r) else m
  | AwaitAll waiting None =>
      if bool_decide (i ∈ waiting) then
        match r with
        | Rejected e => AwaitAll waiting (Some (Rejected e))
        | Fulfilled _ =>
            let waiting' := filter (λ j, j ≠ i) waiting in
            AwaitAll waiting'
              (match waiting' with [] => Some (Fulfilled ()) | _ => None end)
        end
      else m
  | _ => m
  end.

Inductive Event : Type :=
| ChunkSettles (i : nat) (r : Settled Chunk)   (* chunk promise i settles *)
| TaskResumes (i : nat)                        (* task i continues after waitIfPaused or delay *)
| ProcessorSettles (i : nat) (r : Settled unit) (thrown : option Error)
    (* the processor call of task i ends with r; [thrown] is what the
       onProgress call throws, if it is made and throws *)
| FinallyRuns (i : nat)                        (* the finally callback of task i *)
| MainResumes                                  (* the awaited race or all has settled *)
| TimeoutFires (h : nat)
| TimePasses (dt : Z)
| UserPause
| UserResume
| UserCancel.

(** The body of the closure passed to [executeWithRetry], after
    [await processor(chunk, controller.signal)]: how the closure's promise
    settles, with the counter and the log of onProgress calls. *)
Definition afterProcessor (opts : ProcessOptions) (r : Settled unit) (thrown : option Error)
    (s : Run) : option (Settled unit * Run) :=
  match r with
  | Rejected e =>
      match thrown with None => Some (Rejected e, s) | Some _ => None end
  | Fulfilled _ =>
      let c := S (completed s) in
      let s1 := {| world := world s; tasks := tasks s; executing := executing s;
                   completed := c; main := main s;
                   progress := if onProgress opts
                               then progress s ++ [(c, length (tasks s))] else progress s;
                   invoked := invoked s |} in
      match thrown with
      | None => Some (Fulfilled (), s1)
      | Some e => if onProgress opts then Some (Rejected e, s1) else None
      end
  end.

Definition step (opts : ProcessOptions) (s : Run) (ev : Event) : option Run :=
  match ev with
  | ChunkSettles i r =>
      match tasks s !! i with
      | Some AwaitChunk =>
          match r with
          | Fulfilled _ =>
              let '(w', pc) := executeWithRetry (world s) in
              Some (setTask i (taskOfPc pc) (setWorld w' s))
          | Rejected e => Some (setTask i (Settling (Rejected e)) s)
          end
      | _ => None
      end
  | TaskResumes i =>
      match tasks s !! i with
      | Some (InRetry pc) =>
          '(w', pc') ← resumeRetry pc (world s);
          let s1 := setTask i (taskOfPc pc') (setWorld w' s) in
          Some (if callsFn pc' then
                  {| world := world s1; tasks := tasks s1; executing := executing s1;
                     completed := completed s1; main := main s1; progress := progress s1;
                     invoked := invoked s1 ++ [(i, signal w')] |}
                else s1)
      | _ => None
      end
  | ProcessorSettles i r thrown =>
      match tasks s !! i with
      | Some (InRetry pc) =>
          if callsFn pc then
            '(r', s1) ← afterProcessor opts r thrown s;
            '(w', pc') ← settleFn r' pc (world s1);
            Some (setTask i (taskOfPc pc') (setWorld w' s1))
          else None
      | _ => None
      end
  | FinallyRuns i =>
      match tasks s !! i with
      | Some (Settling r) =>
          Some {| world := world s; tasks := <[i := Finalized r]> (tasks s);
                  executing := filter (λ j, j ≠ i) (executing s);
                  completed := completed s; main := notify i r (main s);
                  progress := progress s; invoked := invoked s |}
      | _ => None
      end
  | MainResumes =>
      match main s with
      | AwaitRace rest _ (Some (Fulfilled _)) =>
          match checkCancelled (world s) with
          | Some e => Some (settleMain (Rejected e) s)
          | None => Some (mainLoop opts rest s)
          end
      | AwaitRace _ _ (Some (Rejected e)) => Some (settleMain (Rejected e) s)
      | AwaitAll _ (Some (Fulfilled _)) => Some (settleMain (Fulfilled ()) s)
      | AwaitAll _ (Some (Rejected e)) => Some (settleMain (Rejected e) s)
      | _ => None
      end
  | TimeoutFires h => w' ← fireTimeout h (world s); Some (setWorld w' s)
  | TimePasses dt => w' ← elapse dt (world s); Some (setWorld w' s)
  | UserPause => Some (setWorld (pause (world s)) s)
  | UserResume => Some (setWorld (resume (world s)) s)
  | UserCancel => Some (setWorld (cancel (world s)) s)
  end.

Fixpoint run (opts : ProcessOptions) (s : Run) (evs : list Event) : option Run :=
  match evs with
  | [] => Some s
  | ev :: evs' => s' ← step opts s ev; run opts s' evs'
  end.

(** ** Promise.all over the chunk promises *)

Section PromiseAll.
Context {A : Type}.

(** The promise returned by [Promise.all]: the slots of its result array,
    and how it has settled, if it has. *)
Record AllState : Type := mkAllState {
  allValues : list (option A);
  allResult : option (Settled (list A))
}.

(** [Promise.all(promises)] for [n] promises, before any reaction has run. *)
Definition promiseAll (n : nat) : AllState :=
  {| allValues := replicate n None;
     allResult := Fulfilled <$> mapM id (replicate n (@None A)) |}.

(** The reaction to promise [i] settling with [r].  A fulfilment fills slot
    [i], and fulfils the whole once every slot is filled; a rejection
    rejects the whole; a promise that has settled stays as it is. *)
Definition settleElement (i : nat) (r : Settled A) (st : AllState) : AllState :=
  match r with
  | Fulfilled v =>
      let vs := <[i := Some v]> (allValues st) in
      {| allValues := vs;
         allResult := match allResult st with
                      | Some o => Some o
                      | None => Fulfilled <$> mapM id vs
                      end |}
  | Rejected e =>
      {| allValues := allValues st;
         allResult := match allResult st with
                      | Some o => Some o
                      | None => Some (Rejected e)
                      end |}
  end.

(** Promise [i] settles, as [sources !! i] says. *)
Definition stepAll (sources : list (Settled A)) (st : AllState) (i : nat) : AllState :=
  match sources !! i with
  | Some r => settleElement i r st
  | None => st
  end.

(** The promises settle in the order [order] (a list of indices). *)
Definition settleInOrder (sources : list (Settled A)) (order : list nat) : AllState :=
  foldl (stepAll sources) (promiseAll (length sources)) order.

(** Slots hold only what their own promise was fulfilled with, and a
    fulfilled whole holds the slots. *)
Record allSound (sources : list (Settled A)) (st : AllState) : Prop := mkAllSound {
  as_length : length (allValues st) = length sources;
  as_slot : ∀ j v, allValues st !! j = Some (Some v) → sources !! j = Some (Fulfilled v);
  as_whole : ∀ l, allResult st = Some (Fulfilled l) → mapM id (allValues st) = Some l
}.
End PromiseAll.
Arguments AllState A : clear implicits.

(** [collectChunks(chunkPromises)]: [None] while the returned promise is
    pending. *)
Definition collectChunks (sources : list (Settled Chunk)) (order : list nat)
  : option (Settled (list Chunk)) :=
  allResult (settleInOrder sources order).

(** ** calculateFileHash *)

Section SparkMD5.
(** The digest function of the spark-md5 package: the hexadecimal MD5 of a
    string. *)
Variable md5 : string → string.

(** A [SparkMD5] object: the text appended so far. *)
Definition SparkMD5 : Type := string.
Definition newSparkMD5 : SparkMD5 := "".
Definition append (hasher : SparkMD5) (s : string) : SparkMD5 := hasher +:+ s.
Definition end_hash (hasher : SparkMD5) : string := md5 hasher.

(** [chunks.forEach(chunk => hasher.append(chunk.hash)); return hasher.end()] *)
Definition hashChunks (chunks : list Chunk) : string :=
  end_hash (foldl (λ hasher chunk, append hasher (hash chunk)) newSparkMD5 chunks).

Definition calculateFileHash (sources : list (Settled Chunk)) (order : list nat)
  : option (Settled string) :=
  match allResult (settleInOrder sources order) with
  | Some (Fulfilled chunks) => Some (Fulfilled (hashChunks chunks))
  | Some (Rejected e) => Some (Rejected e)
  | None => None
  end.
End SparkMD5.

(** [h0 ‖ h1 ‖ … ‖ hN-1] *)
Definition joined (hashes : list string) : string := foldr String.append "" hashes.

(** ** Histories of a controller *)

(** What can happen to a controller's world: the calls of its methods and the
    two things the host does. *)
Inductive Op : Type :=
| OpWaitIfPaused
| OpDelay (ms : Z)
| OpPause
| OpResume
| OpCancel
| OpCleanup
| OpFire (h : nat)
| OpElapse (dt : Z).

Definition applyOp (w : World) (op : Op) : option World :=
  match op with
  | OpWaitIfPaused => Some (waitIfPaused w).1
  | OpDelay ms => Some (delay ms w).1
  | OpPause => Some (pause w)
  | OpResume => Some (resume w)
  | OpCancel => Some (cancel w)
  | OpCleanup => Some (cleanup w)
  | OpFire h => fireTimeout h w
  | OpElapse dt => elapse dt w
  end.

Fixpoint applyOps (w : World) (ops : list Op) : option World :=
  match ops with
  | [] => Some w
  | op :: ops' => w' ← applyOp w op; applyOps w' ops'
  end.

(** The worlds a controller can be in: those some history leads to from
    [new TaskController()]. *)
Definition reachable (w : World) : Prop :=
  ∃ t0 ops, applyOps (newTaskController t0) ops = Some w.

(** Histories without a call that clears the timers. *)
Definition quiet (op : Op) : bool :=
  match op with
  | OpPause | OpResume | OpCancel | OpCleanup => false
  | _ => true
  end.

Definition quietEvent {T : Type} (ev : RetryEvent T) : bool :=
  match ev with
  | CallPause | CallResume | CallCancel | CallCleanup => false
  | _ => true
  end.

(** What every reachable world satisfies: identities not yet handed out are
    not in use, the controller held is an allocated one, and a paused
    controller holds a fired one. *)
Record wellFormed (w : World) : Prop := mkWellFormed {
  wf_resolved : ∀ p, p ∈ resolved (host w) → p < nextId (host w);
  wf_timeouts : ∀ t, t ∈ timeouts (host w) → callback t < nextId (host w);
  wf_timers : ∀ e, e ∈ timers (ctl w) → resolve e < nextId (host w);
  wf_pauseResolvers : ∀ p, p ∈ pauseResolvers (ctl w) → p < nextId (host w);
  wf_controller : abortController (ctl w) < length (aborted (host w));
  wf_paused : paused (ctl w) = true → aborted (host w) !! abortController (ctl w) = Some true
}.

(** ** Counting in a run of processChunks *)

(** A task that has been submitted and whose promise in [executing] has not
    settled. *)
Definition inFlight (t : Task) : bool :=
  match t with
  | AwaitChunk | InRetry _ | Settling _ => true
  | Unsubmitted | Finalized _ => false
  end.

(** The number of elements of [l] on which [f] is true. *)
Definition countb {A : Type} (f : A → bool) (l : list A) : nat :=
  length (filter (λ x, f x) l).

Definition inFlightCount (s : Run) : nat := countb inFlight (tasks s).

Definition submitted (t : Task) : bool :=
  match t with Unsubmitted => false | _ => true end.

Definition settledMain (s : Run) : bool :=
  match main s with Done _ => true | _ => false end.

(** The number of events in which a failing attempt is reported. *)
Definition isFailure {T : Type} (ev : RetryEvent T) : bool :=
  match ev with FnSettles (Rejected _) => true | _ => false end.

Definition failures {T : Type} (evs : list (RetryEvent T)) : nat :=
  length (filter (λ ev, isFailure ev) evs).

(** What holds of the promise [p] of a [delay] call whose timer is due at
    [deadline], as long as no call clears the timers. *)
Definition delayPending (p : nat) (deadline : Z) (w : World) : Prop :=
  p < nextId (host w) ∧
  (p ∈ resolved (host w) → (deadline ≤ clock (host w))%Z) ∧
  (∀ t, t ∈ timeouts (host w) → callback t = p → due t = deadline).

(** ** What the scheduler keeps true *)

(** At the top of the [for] loop, with the sources [rest] still to come: the
    set holds exactly the tasks in flight, once each, and has room. *)
Definition atLoopHead (opts : ProcessOptions) (rest : list nat) (s : Run) : Prop :=
  NoDup (executing s) ∧ NoDup rest ∧
  (∀ i, i ∈ rest → tasks s !! i = Some Unsubmitted) ∧
  (∀ i, i ∈ executing s ↔ ∃ t, tasks s !! i = Some t ∧ inFlight t = true) ∧
  length (executing s) = inFlightCount s ∧
  (Z.of_nat (length (executing s)) < concurrencyOf opts)%Z.

Record scheduled (opts : ProcessOptions) (s : Run) : Prop := mkScheduled {
  sch_nodup : NoDup (executing s);
  sch_inflight : (Z.of_nat (inFlightCount s) ≤ concurrencyOf opts)%Z;
  sch_executing : (Z.of_nat (length (executing s)) ≤ concurrencyOf opts)%Z;
  sch_race : ∀ rest members winner,
    main s = AwaitRace rest members winner →
    NoDup rest ∧
    (∀ i, i ∈ rest → tasks s !! i = Some Unsubmitted) ∧
    (∀ i, i ∈ executing s ↔ ∃ t, tasks s !! i = Some t ∧ inFlight t = true) ∧
    length (executing s) = inFlightCount s ∧
    (∀ i, i ∈ executing s → i ∈ members) ∧
    (winner ≠ None → (Z.of_nat (length (executing s)) < concurrencyOf opts)%Z) ∧
    (winner = None →
     executing s = members ∧ (concurrencyOf opts ≤ Z.of_nat (length (executing s)))%Z)
}.


Definition taskRejected (t : Task) (e : Error) : Prop :=
  t = Settling (Rejected e) ∨ t = Finalized (Rejected e).




(** ** The progress counter *)

(** A task whose closure ran to its end: the processor succeeded, the counter
    was incremented and [onProgress], if any, returned. *)
Definition succeeded (t : Task) : bool :=
  match t with
  | Settling (Fulfilled _) | Finalized (Fulfilled _) => true
  | _ => false
  end.

(** Events in which no [onProgress] call throws. *)
Definition progressReturns (ev : Event) : bool :=
  match ev with
  | ProcessorSettles _ _ (Some _) => false
  | _ => true
  end.

(** The arguments of the first [k] calls of [onProgress] for [n] chunks. *)
Definition progressCalls (n k : nat) : list (nat * nat) := (λ c, (c, n)) <$> seq 1 k.

Record counted (opts : ProcessOptions) (n : nat) (s : Run) : Prop := mkCounted {
  cnt_length : length (tasks s) = n;
  cnt_completed : completed s = countb succeeded (tasks s);
  cnt_progress : progress s = if onProgress opts then progressCalls n (completed s) else [];
  cnt_rest : ∀ rest members winner,
    main s = AwaitRace rest members winner →
    NoDup rest ∧ ∀ i, i ∈ rest → tasks s !! i = Some Unsubmitted
}.

(** A [delay(ms)] begun in world [w] and followed by the history [ops] is
    not resolved before [ms] milliseconds have passed. *)
Definition lastsInFull (w : World) (ms : Z) (ops : list Op) : Prop :=
  ∀ w2, applyOps (delay ms w).1 ops = Some w2 →
        isResolved (delay ms w).2 w2 = true →
        (clock (host w) + ms ≤ clock (host w2))%Z.

(** ** What a controller holds of the promises and timers it has handed out *)

(** Every armed timer belongs to a [delay] call that is still listed in
    [timers], and a promise of [waitIfPaused] that is still listed in
    [pauseResolvers] is pending, the controller being paused. *)
Record registered (w : World) : Prop := mkRegistered {
  reg_armed : ∀ t, t ∈ timeouts (host w) →
    handle t < nextId (host w) ∧
    {| timer := handle t; resolve := callback t |} ∈ timers (ctl w);
  reg_waiting : ∀ p, p ∈ pauseResolvers (ctl w) →
    paused (ctl w) = true ∧ (p ∉ resolved (host w)) ∧
    (p ∉ (resolve <$> timers (ctl w)))
}.

(** A promise that has been handed out and that nothing is left to resolve:
    it is pending, no resolver of it is listed and no armed timer has it as
    its callback. *)
Definition stranded (p : nat) (w : World) : Prop :=
  p < nextId (host w) ∧ (p ∉ resolved (host w)) ∧ (p ∉ pauseResolvers (ctl w)) ∧
  (p ∉ (resolve <$> timers (ctl w))) ∧
  ∀ t, t ∈ timeouts (host w) → callback t ≠ p.

(** The timer [h] of a [delay] call with promise [p] is armed for
    [deadline]: the promise is pending, and no other armed timer has that
    handle or that callback. *)
Definition armed (h p : nat) (deadline : Z) (w : World) : Prop :=
  h < nextId (host w) ∧ p < nextId (host w) ∧ (p ∉ resolved (host w)) ∧
  {| handle := h; due := deadline; callback := p |} ∈ timeouts (host w) ∧
  ∀ t, t ∈ timeouts (host w) → handle t = h ∨ callback t = p →
       t = {| handle := h; due := deadline; callback := p |}.

(** Histories that neither clear the timers nor fire the timer [h]. *)
Definition spares (h : nat) (op : Op) : bool :=
  match op with
  | OpFire h' => bool_decide (h' ≠ h)
  | _ => quiet op
  end.

(** Events of an [executeWithRetry] call other than the calls that empty
    [pauseResolvers]. *)
Definition keepsWaiters {T : Type} (ev : RetryEvent T) : bool :=
  match ev with
  | CallResume | CallCancel | CallCleanup => false
  | _ => true
  end.

Definition isDelay (op : Op) : bool :=
  match op with OpDelay _ => true | _ => false end.

(** The number of [fn] calls an [executeWithRetry] call at [pc] has made
    when [k] of them have failed. *)
Definition attempts {T : Type} (pc : Pc T) (k : nat) : nat :=
  match pc with
  | AwaitFn _ | Returned _ => S k
  | _ => k
  end.

(** What a pass through the top of the [while] loop of [executeWithRetry]
    leaves behind, when it begins in world [w] with [retry = r] after [n]
    calls of [fn]: if [cancelled] is set the call has thrown the cancellation
    error; otherwise it is suspended on the promise of [waitIfPaused()],
    which is a new pending promise listed in [pauseResolvers] if the
    controller is paused, and an already fulfilled one if it is not.  [fn]
    has not been called. *)
Definition topOfLoop {T : Type} (r : nat) (w : World) (n : nat) (s : RetrySys T) : Prop :=
  fnCalls s = n ∧
  if cancelled (ctl w) then rworld s = w ∧ rpc s = Threw TaskCancelled
  else if paused (ctl w) then
    ∃ q, rpc s = AwaitWaitIfPaused r (Some q) ∧ (q ∉ resolved (host w)) ∧
         isResolved q (rworld s) = false ∧
         pauseResolvers (ctl (rworld s)) = pauseResolvers (ctl w) ++ [q] ∧
         paused (ctl (rworld s)) = true ∧ cancelled (ctl (rworld s)) = false ∧
         retryStep s Wake = None
  else rworld s = w ∧ rpc s = AwaitWaitIfPaused r None.

(** ** The order of admission *)

(** [executing] holds exactly the tasks in flight. *)
Definition tracksInFlight (s : Run) : Prop :=
  ∀ i, i ∈ executing s ↔ ∃ t, tasks s !! i = Some t ∧ inFlight t = true.

(** The number of sources for which [processChunk] has been called. *)
Definition admitted (s : Run) : nat := countb submitted (tasks s).

(** What a run keeps true whatever the concurrency: the submitted sources
    are the first [admitted s] ones and the loop has exactly the others
    still to come; while the main function waits, [executing] holds the
    tasks in flight, and a race or an all that is undecided waits for at
    least one promise that is still in the set; once the main promise has
    settled the set is empty. *)
Record orderly (n : nat) (s : Run) : Prop := mkOrderly {
  ord_length : length (tasks s) = n;
  ord_prefix : submitted <$> tasks s
               = replicate (admitted s) true ++ replicate (n - admitted s) false;
  ord_race : ∀ rest members winner,
    main s = AwaitRace rest members winner →
    rest = seq (admitted s) (n - admitted s) ∧ tracksInFlight s ∧
    (winner = None → members ≠ [] ∧ ∀ i, i ∈ members → i ∈ executing s);
  ord_all : ∀ waiting result,
    main s = AwaitAll waiting result →
    admitted s = n ∧ tracksInFlight s ∧
    (result = None → waiting ≠ [] ∧ ∀ i, i ∈ waiting → i ∈ executing s);
  ord_done : ∀ r, main s = Done r → executing s = []
}.

(** ** Which chunks reach the processor *)

(** In a run with the events [evs]: the processor has not been called for a
    source that is unsubmitted, pending or rejected; a task whose source was
    rejected has settled with that error; and a task that is retrying, or
    for which the processor was called, has a fulfilled source. *)
Record gated (evs : list Event) (s : Run) : Prop := mkGated {
  gat_pending : ∀ i, tasks s !! i = Some Unsubmitted ∨ tasks s !! i = Some AwaitChunk →
                     ∀ sig, (i, sig) ∉ invoked s;
  gat_rejected : ∀ i e, ChunkSettles i (Rejected e) ∈ evs →
                        (∃ t, tasks s !! i = Some t ∧ taskRejected t e) ∧
                        ∀ sig, (i, sig) ∉ invoked s;
  gat_retrying : ∀ i pc, tasks s !! i = Some (InRetry pc) →
                         ∃ c, ChunkSettles i (Fulfilled c) ∈ evs;
  gat_invoked : ∀ i sig, (i, sig) ∈ invoked s → ∃ c, ChunkSettles i (Fulfilled c) ∈ evs
}.

(** ** Calls of onProgress and of the processor *)

(** A task whose processor call is pending. *)
Definition awaitsProcessor (t : Task) : bool :=
  match t with InRetry (AwaitFn _) => true | _ => false end.

Record tallied (opts : ProcessOptions) (n : nat) (s : Run) : Prop := mkTallied {
  tal_length : length (tasks s) = n;
  tal_progress : progress s = if onProgress opts then progressCalls n (completed s) else [];
  tal_invoked : completed s + countb awaitsProcessor (tasks s) ≤ length (invoked s)
}.

(** Every task promise has settled and its [finally] callback has run. *)
Definition allFinalized (s : Run) : Prop :=
  ∀ i t, tasks s !! i = Some t → ∃ r, t = Finalized r.

(** ** worker.ts: cutting and hashing the chunks *)

(** A [File], by its bytes; [file.size] is their number.  Numbers are the
    integers they are in every call the package makes; [chunkSize], which
    the caller supplies, is taken to be an integer too. *)
Record File : Type := mkFile { content : string }.

Definition fileSize (file : File) : Z := Z.of_nat (String.length (content file)).

(** How [Blob.slice] reads one of its arguments: a negative one counts from
    the end, and both are clamped to the blob. *)
Definition relativeIndex (size x : Z) : Z :=
  if bool_decide (x < 0)%Z then Z.max (size + x) 0 else Z.min x size.

(** [file.slice(first, last)] *)
Definition slice (file : File) (first last : Z) : string :=
  let from := relativeIndex (fileSize file) first in
  let to := relativeIndex (fileSize file) last in
  String.substring (Z.to_nat from) (Z.to_nat (Z.max (to - from) 0)) (content file).

(** A message of a worker: [{ type: 'chunk', chunk, chunkIndex }]. *)
Record Message : Type := mkMessage { chunk : Chunk; chunkIndex : Z }.

Module Worker.
Section Hashing.
(** [SparkMD5.ArrayBuffer]: the hexadecimal MD5 of the bytes of a buffer. *)
Variable md5 : string → string.

(** The object [processChunk] returns for chunk [i] once its bytes have been
    read. *)
Definition chunkAt (file : File) (i chunkSize : Z) : Chunk :=
  let first := (i * chunkSize)%Z in
  let last := Z.min (first + chunkSize) (fileSize file) in
  let bytes := slice file first last in
  {| blob := bytes; hash := md5 bytes; index := Z.to_nat i; start := first; end_ := last |}.

(** [processChunk(file, index, chunkSize)]: the body of its [while (true)]
    loop is tried until [blob.arrayBuffer()] is fulfilled; a rejection is
    caught and dropped.  [reads] says of the reads still to come whether
    they succeed; the result is [None] when none of them does, the loop
    then being still at work, and otherwise the chunk with the reads left. *)
Fixpoint processChunk (file : File) (i chunkSize : Z) (reads : list bool)
  : option (Chunk * list bool) :=
  match reads with
  | [] => None
  | true :: reads' => Some (chunkAt file i chunkSize, reads')
  | false :: reads' => processChunk file i chunkSize reads'
  end.

(** The [for] loop of [onmessage] over the indices still to come: the
    messages it posts, in order. *)
Fixpoint postChunks (file : File) (chunkSize first : Z) (indices : list Z)
    (reads : list bool) : list Message :=
  match indices with
  | [] => []
  | i :: indices' =>
      match processChunk file i chunkSize reads with
      | Some (c, reads') =>
          {| chunk := c; chunkIndex := i - first |}
          :: postChunks file chunkSize first indices' reads'
      | None => []
      end
  end.

(** [onmessage] for the data [{ file, chunkSize, start, end }]. *)
Definition onmessage (file : File) (chunkSize first last : Z) (reads : list bool)
  : list Message :=
  postChunks file chunkSize first (seqZ first (last - first)) reads.
End Hashing.
End Worker.

(** ** index.ts: chunkFile *)

(** The chunk promises of a [chunkFile] call ([None]: pending) and the map
    of their resolvers; a resolver is named by the position of its promise. *)
Record Resolving : Type := mkResolving {
  resolvers : gmap Z nat;
  promises : list (option Chunk)
}.

(** [resolver.resolve(chunk)]: settles the promise if it is pending. *)
Definition resolveWith (p : nat) (c : Chunk) (ps : list (option Chunk))
  : list (option Chunk) :=
  match ps !! p with
  | Some None => <[p := Some c]> ps
  | _ => ps
  end.

(** The handler [createWorker] installs as [worker.onmessage], for the
    worker created with [start = first]: [None] when
    [resolvers.get(index)] is undefined, and the call of [resolve] on it
    throws a TypeError. *)
Definition workerOnmessage (first : Z) (data : Message) (st : Resolving) : option Resolving :=
  let i := (first + chunkIndex data)%Z in
  match resolvers st !! i with
  | Some p => Some {| resolvers := delete i (resolvers st);
                      promises := resolveWith p (chunk data) (promises st) |}
  | None => None
  end.

(** [createWorker(file, chunkSize, start, end, resolvers)]: the worker, by
    the [start] and [end] posted to it. *)
Record Spawned : Type := mkSpawned { firstIndex : Z; lastIndex : Z }.

Definition createWorker (first last : Z) : Spawned :=
  {| firstIndex := first; lastIndex := last |}.

(** [Math.ceil(a / b)] for integers [a] and [b ≠ 0]. *)
Definition ceilDiv (a b : Z) : Z := (- (- a / b))%Z.

Record Options : Type := mkOptions { chunkSize : option Z }.

Inductive ChunkFileError : Type :=
| InvalidOrEmptyFile      (* new Error('Invalid or empty file') *)
| InvalidArrayLength.     (* the RangeError of Array.from for a length above 2^32 - 1 *)

Record Chunking : Type := mkChunking {
  chunkedFile : File;
  chunkedBy : Z;                 (* chunkSize *)
  resolving : Resolving;
  workers : list Spawned
}.

(** [resolvers.set(i, { resolve, reject })] for [i] from 0 to [n - 1]. *)
Definition setResolvers (n : nat) : gmap Z nat :=
  foldl (λ m i, <[Z.of_nat i := i]> m) ∅ (seq 0 n).

(** [chunkFile(file, options)] where [navigator.hardwareConcurrency] is
    [hardwareConcurrency] (0 when it is undefined); [None] is a [file] that
    is null or undefined.  A [chunkSize] of 0 makes the length of the
    promise array infinite; a negative one makes it negative, which
    [Array.from] reads as 0.  The last statement before the [return]
    terminates the workers once every promise has settled, that is after
    the last message has been received; it is left out. *)
Definition chunkFile (file : option File) (options : Options) (hardwareConcurrency : nat)
  : ChunkFileError + Chunking :=
  match file with
  | None => inl InvalidOrEmptyFile
  | Some f =>
      if bool_decide (fileSize f = 0)%Z then inl InvalidOrEmptyFile else
      let size := default (Z.min (1024 * 1024) (fileSize f)) (chunkSize options) in
      if bool_decide (size = 0)%Z then inl InvalidArrayLength else
      let cores := if hardwareConcurrency is 0 then 4%Z else Z.of_nat hardwareConcurrency in
      let threadCount := Z.min cores (ceilDiv (fileSize f) size) in
      let totalChunks := ceilDiv (fileSize f) size in
      if bool_decide (4294967295 < totalChunks)%Z then inl InvalidArrayLength else
      let chunksPerThread := ceilDiv totalChunks threadCount in
      inr {| chunkedFile := f; chunkedBy := size;
             resolving := {| resolvers := setResolvers (Z.to_nat totalChunks);
                             promises := replicate (Z.to_nat totalChunks) None |};
             workers := (λ i, createWorker (i * chunksPerThread)
                                (Z.min ((i + 1) * chunksPerThread) totalChunks))
                        <$> seqZ 0 (Z.min threadCount totalChunks) |}
  end.

(** *** The messages of the workers reach the main thread *)

(** The main thread's side of a [chunkFile] call: the promises and
    resolvers, and for every worker the [start] its handler was created
    with and the messages it has posted that have not been received. *)
Record Wiring : Type := mkWiring {
  wired : Resolving;
  inbox : list (Z * list Message)
}.

Section Wiring.
Variable md5 : string → string.

(** The state in which [chunkFile] returns, all workers having done their
    work: [reads !! w] are the outcomes of worker [w]'s reads. *)
Definition wire (c : Chunking) (reads : list (list bool)) : Wiring :=
  {| wired := resolving c;
     inbox := imap (λ w sp, (firstIndex sp,
                             Worker.onmessage md5 (chunkedFile c) (chunkedBy c)
                               (firstIndex sp) (lastIndex sp) (default [] (reads !! w))))
                   (workers c) |}.
End Wiring.

Inductive Receipt : Type :=
| Received (s : Wiring)
| NothingPosted          (* the worker has no message waiting *)
| ResolverMissing.       (* the handler threw *)

(** The next message of worker [w] is received. *)
Definition deliver (w : nat) (s : Wiring) : Receipt :=
  match inbox s !! w with
  | Some (first, data :: rest) =>
      match workerOnmessage first data (wired s) with
      | Some st => Received {| wired := st; inbox := <[w := (first, rest)]> (inbox s) |}
      | None => ResolverMissing
      end
  | _ => NothingPosted
  end.

(** Messages are received in the order [order] of their workers. *)
Fixpoint deliverAll (order : list nat) (s : Wiring) : Receipt :=
  match order with
  | [] => Received s
  | w :: order' =>
      match deliver w s with
      | Received s' => deliverAll order' s'
      | r => r
      end
  end.

(** The indices the messages waiting in an inbox are for. *)
Definition awaited (box : Z * list Message) : list Z :=
  (λ data, (box.1 + chunkIndex data)%Z) <$> box.2.

(** What holds between the messages still to be received and the promises:
    every message waiting carries the chunk of its index, the resolver of
    that index is still in the map and its promise pending; no two messages
    waiting are for the same index; and a settled promise holds the chunk
    of its position. *)
Record wiredUp (md5 : string → string) (file : File) (size : Z) (s : Wiring) : Prop :=
  mkWiredUp {
  wu_distinct : NoDup (concat (awaited <$> inbox s));
  wu_waiting : ∀ w first msgs data,
    inbox s !! w = Some (first, msgs) → data ∈ msgs →
    (0 ≤ first + chunkIndex data)%Z ∧
    chunk data = Worker.chunkAt md5 file (first + chunkIndex data) size ∧
    resolvers (wired s) !! (first + chunkIndex data)%Z
    = Some (Z.to_nat (first + chunkIndex data)) ∧
    promises (wired s) !! Z.to_nat (first + chunkIndex data) = Some None;
  wu_settled : ∀ p c, promises (wired s) !! p = Some (Some c) →
                      c = Worker.chunkAt md5 file (Z.of_nat p) size
}.

(** The chunks of a file cut by [size], in index order. *)
Definition chunksOf (md5 : string → string) (file : File) (size : Z) : list Chunk :=
  (λ i, Worker.chunkAt md5 file i size) <$> seqZ 0 (ceilDiv (fileSize file) size).

(** The message worker code posts for chunk [i] when its range starts at
    [first]. *)
Definition messageFor (md5 : string → string) (file : File) (size first i : Z) : Message :=
  {| chunk := Worker.chunkAt md5 file i size; chunkIndex := i - first |}.

(** Every index without a message waiting has had its message received:
    its resolver is gone and, if it is an index of the file, its promise
    holds its chunk. *)
Definition accounted (md5 : string → string) (file : File) (size total : Z)
    (s : Wiring) : Prop :=
  ∀ i, i ∉ concat (awaited <$> inbox s) →
       resolvers (wired s) !! i = None ∧
       ((0 ≤ i < total)%Z →
        promises (wired s) !! Z.to_nat i = Some (Some (Worker.chunkAt md5 file i size))).

(** The chunk indices a worker is asked for, in the order of its loop. *)
Definition indicesOf (sp : Spawned) : list Z :=
  seqZ (firstIndex sp) (lastIndex sp - firstIndex sp).

(** [navigator.hardwareConcurrency || 4] *)
Definition coresOr4 (hardwareConcurrency : nat) : Z :=
  if hardwareConcurrency is 0 then 4%Z else Z.of_nat hardwareConcurrency.

(** The chunk size [chunkFile] works with. *)
Definition chunkSizeOf (file : File) (options : Options) : Z :=
  default (Z.min (1024 * 1024) (fileSize file)) (chunkSize options).

(** ** The signal handed to the processor *)

(** The signal the controller holds is aborted only if the controller is
    paused or cancelled. *)
Definition signalTracksPause (w : World) : Prop :=
  signalAborted (signal w) w = true →
  paused (ctl w) = true ∨ cancelled (ctl w) = true.

(** What decides whether the held signal is aborted. *)
Definition signalView (w : World) : bool * bool * nat * list bool :=
  (paused (ctl w), cancelled (ctl w), abortController (ctl w), aborted (host w)).

(** * Properties *)

(** ** Reachable worlds are well formed *)

Lemma wellFormed_new t0 : wellFormed (newTaskController t0).
Proof.
  constructor; simpl; try (intros ? H; by apply elem_of_nil in H).
  - lia.
  - done.
Qed.

Lemma wellFormed_waitIfPaused w : wellFormed w → wellFormed (waitIfPaused w).1.
Proof.
  intros Hw. unfold waitIfPaused.
  destruct (paused (ctl w)) eqn:Hp; simpl; [|done].
  destruct Hw as [H1 H2 H3 H4 H5 H6]. constructor; simpl; try done.
  - intros p Hp'. apply H1 in Hp'. lia.
  - intros t Ht. apply H2 in Ht. lia.
  - intros e He. apply H3 in He. lia.
  - intros p [Hp'|Hp']%elem_of_app.
    + apply H4 in Hp'. lia.
    + apply list_elem_of_singleton in Hp'. lia.
  - auto.
Qed.

Lemma wellFormed_delay ms w : wellFormed w → wellFormed (delay ms w).1.
Proof.
  intros [H1 H2 H3 H4 H5 H6]. constructor; simpl; try done.
  - intros p Hp'. apply H1 in Hp'. lia.
  - intros t [Ht|Ht]%elem_of_app.
    + apply H2 in Ht. lia.
    + apply list_elem_of_singleton in Ht. subst t. simpl. lia.
  - intros e [He|He]%elem_of_app.
    + apply H3 in He. lia.
    + apply list_elem_of_singleton in He. subst e. simpl. lia.
  - intros p Hp'. apply H4 in Hp'. lia.
Qed.

Lemma wellFormed_clearTimers w : wellFormed w → wellFormed (clearTimers w).
Proof.
  intros [H1 H2 H3 H4 H5 H6]. constructor; simpl; try done.
  - intros p [Hp|Hp]%elem_of_app; [by apply H1|].
    apply list_elem_of_fmap in Hp as (e & -> & He). by apply H3.
  - intros t [_ Ht]%list_elem_of_filter. by apply H2.
  - intros e He. by apply elem_of_nil in He.
Qed.

Lemma wellFormed_pause w : wellFormed w → wellFormed (pause w).
Proof.
  intros [H1 H2 H3 H4 H5 H6]. apply wellFormed_clearTimers.
  constructor; simpl; try done.
  - by rewrite length_insert.
  - intros _. by apply list_lookup_insert_eq.
Qed.

Lemma wellFormed_resume w : wellFormed w → wellFormed (resume w).
Proof.
  intros Hw. unfold resume. destruct (paused (ctl w)) eqn:Hp; simpl; [|done].
  destruct Hw as [H1 H2 H3 H4 H5 H6]. constructor; simpl; try done.
  - intros p [[Hp'|Hp']%elem_of_app|Hp']%elem_of_app; [by apply H1| |by apply H4].
    apply list_elem_of_fmap in Hp' as (e & -> & He). by apply H3.
  - intros t [_ Ht]%list_elem_of_filter. by apply H2.
  - intros e He. by apply elem_of_nil in He.
  - intros p Hp'. by apply elem_of_nil in Hp'.
  - rewrite length_app. simpl. lia.
Qed.

Lemma wellFormed_cancel w : wellFormed w → wellFormed (cancel w).
Proof.
  intros [H1 H2 H3 H4 H5 H6]. unfold cancel. simpl.
  destruct (paused (ctl w)) eqn:Hp; constructor; simpl; try done.
  - intros p [[Hp'|Hp']%elem_of_app|Hp']%elem_of_app; [by apply H1| |by apply H4].
    apply list_elem_of_fmap in Hp' as (e & -> & He). by apply H3.
  - intros t [_ Ht]%list_elem_of_filter. by apply H2.
  - intros e He. by apply elem_of_nil in He.
  - intros p Hp'. by apply elem_of_nil in Hp'.
  - by rewrite length_insert.
  - intros p [Hp'|Hp']%elem_of_app; [by apply H1|].
    apply list_elem_of_fmap in Hp' as (e & -> & He). by apply H3.
  - intros t [_ Ht]%list_elem_of_filter. by apply H2.
  - intros e He. by apply elem_of_nil in He.
  - by rewrite length_insert.
  - by rewrite Hp.
Qed.

Lemma wellFormed_cleanup w : wellFormed w → wellFormed (cleanup w).
Proof.
  intros [H1 H2 H3 H4 H5 H6]. constructor; simpl; try done.
  - intros p [Hp'|Hp']%elem_of_app; [by apply H1|].
    apply list_elem_of_fmap in Hp' as (e & -> & He). by apply H3.
  - intros t [_ Ht]%list_elem_of_filter. by apply H2.
  - intros e He. by apply elem_of_nil in He.
  - intros p Hp'. by apply elem_of_nil in Hp'.
Qed.

Lemma fireTimeout_Some h w w' :
  fireTimeout h w = Some w' →
  ∃ t, t ∈ timeouts (host w) ∧ handle t = h ∧ (due t ≤ clock (host w))%Z ∧
       ctl w' = ctl w ∧ clock (host w') = clock (host w) ∧
       timeouts (host w') = filter (λ t, handle t ≠ h) (timeouts (host w)) ∧
       resolved (host w') = resolved (host w) ++ [callback t] ∧
       aborted (host w') = aborted (host w) ∧ nextId (host w') = nextId (host w) ∧
       sleepLog (host w') = sleepLog (host w).
Proof.
  unfold fireTimeout. intros H.
  destruct (list_find _ _) as [[k t]|] eqn:Hf; [|done].
  apply list_find_Some in Hf as (Hk & Hh & _).
  case_bool_decide; [|done]. simplify_eq. exists t. simpl.
  split_and!; try done. by eapply list_elem_of_lookup_2.
Qed.

Lemma elapse_Some dt w w' :
  elapse dt w = Some w' →
  (0 ≤ dt)%Z ∧ ctl w' = ctl w ∧ clock (host w') = (clock (host w) + dt)%Z ∧
  timeouts (host w') = timeouts (host w) ∧ resolved (host w') = resolved (host w) ∧
  aborted (host w') = aborted (host w) ∧ nextId (host w') = nextId (host w) ∧
  sleepLog (host w') = sleepLog (host w).
Proof.
  unfold elapse. case_bool_decide; [|done]. intros; simplify_eq. done.
Qed.

Lemma wellFormed_fireTimeout h w w' :
  fireTimeout h w = Some w' → wellFormed w → wellFormed w'.
Proof.
  intros (t & Ht & _ & _ & Hc & _ & Hto & Hr & Ha & Hn & _)%fireTimeout_Some
         [H1 H2 H3 H4 H5 H6].
  constructor; rewrite ?Hc, ?Hto, ?Hr, ?Ha, ?Hn; try done.
  - intros p [Hp|Hp]%elem_of_app; [by apply H1|].
    apply list_elem_of_singleton in Hp as ->. by apply H2.
  - intros t' [_ Ht']%list_elem_of_filter. by apply H2.
Qed.

Lemma wellFormed_elapse dt w w' :
  elapse dt w = Some w' → wellFormed w → wellFormed w'.
Proof.
  intros (_ & Hc & _ & Hto & Hr & Ha & Hn & _)%elapse_Some [H1 H2 H3 H4 H5 H6].
  constructor; rewrite ?Hc, ?Hto, ?Hr, ?Ha, ?Hn; done.
Qed.

Lemma wellFormed_applyOp w op w' :
  applyOp w op = Some w' → wellFormed w → wellFormed w'.
Proof.
  destruct op; intros H Hw; unfold applyOp in H; simplify_eq;
    eauto using wellFormed_waitIfPaused, wellFormed_delay, wellFormed_pause,
      wellFormed_resume, wellFormed_cancel, wellFormed_cleanup,
      wellFormed_fireTimeout, wellFormed_elapse.
Qed.

Lemma wellFormed_applyOps ops w w' :
  applyOps w ops = Some w' → wellFormed w → wellFormed w'.
Proof.
  revert w. induction ops as [|op ops IH]; simpl; intros w H Hw; [by simplify_eq|].
  destruct (applyOp w op) as [w1|] eqn:Hop; [|done]. simpl in H.
  eauto using wellFormed_applyOp.
Qed.

Lemma reachable_wellFormed w : reachable w → wellFormed w.
Proof. intros (t0 & ops & H). eauto using wellFormed_applyOps, wellFormed_new. Qed.

Lemma applyOps_app w ops1 ops2 :
  applyOps w (ops1 ++ ops2) = w' ← applyOps w ops1; applyOps w' ops2.
Proof.
  revert w. induction ops1 as [|op ops1 IH]; simpl; intros w; [done|].
  destruct (applyOp w op); simpl; [apply IH|done].
Qed.

Lemma reachable_applyOps w ops w' :
  reachable w → applyOps w ops = Some w' → reachable w'.
Proof.
  intros (t0 & ops0 & H0) H. exists t0, (ops0 ++ ops).
  by rewrite applyOps_app, H0.
Qed.

(** ** Cancellation is permanent *)

Lemma cancelled_waitIfPaused w : cancelled (ctl (waitIfPaused w).1) = cancelled (ctl w).
Proof. unfold waitIfPaused. by destruct (paused (ctl w)). Qed.

Lemma cancelled_resume w : cancelled (ctl (resume w)) = cancelled (ctl w).
Proof. unfold resume. by destruct (paused (ctl w)). Qed.

Lemma cancelled_cancel w : cancelled (ctl (cancel w)) = true.
Proof. unfold cancel. simpl. by destruct (paused (ctl w)). Qed.

Lemma cancelled_applyOp w op w' :
  applyOp w op = Some w' → cancelled (ctl w) = true → cancelled (ctl w') = true.
Proof.
  destruct op; intros H Hc; unfold applyOp in H; simplify_eq;
    rewrite ?cancelled_waitIfPaused, ?cancelled_resume, ?cancelled_cancel; try done.
  - apply fireTimeout_Some in H as (t & _ & _ & _ & -> & _). done.
  - apply elapse_Some in H as (_ & -> & _). done.
Qed.

Lemma cancelled_applyOps ops w w' :
  applyOps w ops = Some w' → cancelled (ctl w) = true → cancelled (ctl w') = true.
Proof.
  revert w. induction ops as [|op ops IH]; simpl; intros w H Hc; [by simplify_eq|].
  destruct (applyOp w op) as [w1|] eqn:Hop; [|done]. simpl in H.
  eauto using cancelled_applyOp.
Qed.

Lemma retryStep_ended {T} (s s' : RetrySys T) ev e :
  rpc s = Threw e → retryStep s ev = Some s' → rpc s' = Threw e ∧ fnCalls s' = fnCalls s.
Proof.
  intros Hpc. destruct ev; simpl; rewrite ?Hpc; simpl; intros H; simplify_option_eq; done.
Qed.

Lemma retryRun_ended {T} evs (s s' : RetrySys T) e :
  rpc s = Threw e → retryRun s evs = Some s' → rpc s' = Threw e ∧ fnCalls s' = fnCalls s.
Proof.
  revert s. induction evs as [|ev evs IH]; simpl; intros s Hpc H; [by simplify_eq|].
  destruct (retryStep s ev) as [s1|] eqn:Hs; [|done]. simpl in H.
  destruct (retryStep_ended _ _ _ _ Hpc Hs) as [Hpc1 Hn1].
  destruct (IH _ Hpc1 H) as [? ?]. split; [done|congruence].
Qed.

(** C9: once [cancel()] has been called, whatever is called on the controller
    afterwards and whatever the host does, [cancelled] stays set:
    [checkCancelled()] throws the cancellation error, and a call of
    [executeWithRetry] ends with that error at its first check, without ever
    calling [fn]. *)
Theorem cancel_is_permanent (w0 : World) (ops : list Op) (w : World)
    (Hops : applyOps (cancel w0) ops = Some w) :
  cancelled (ctl w) = true ∧
  checkCancelled w = Some TaskCancelled ∧
  ∀ (T : Type) (evs : list (RetryEvent T)) (s : RetrySys T),
    retryStart (T:=T) w = {| rworld := w; rpc := Threw TaskCancelled; fnCalls := 0 |} ∧
    (retryRun (retryStart w) evs = Some s → rpc s = Threw TaskCancelled ∧ fnCalls s = 0).
Proof.
  assert (Hc : cancelled (ctl w) = true)
    by (eapply cancelled_applyOps; [exact Hops|apply cancelled_cancel]).
  assert (Hk : checkCancelled w = Some TaskCancelled) by (unfold checkCancelled; by rewrite Hc).
  split_and!; try done. intros T evs s.
  assert (Hs : retryStart (T:=T) w = {| rworld := w; rpc := Threw TaskCancelled; fnCalls := 0 |}).
  { unfold retryStart, executeWithRetry, loopHead. by rewrite Hk. }
  split; [done|]. rewrite Hs. intros Hrun.
  by eapply retryRun_ended in Hrun.
Qed.

Lemma cancel_is_permanent_witness :
  let w0 := (waitIfPaused (pause (newTaskController 0))).1 in
  let ops := [OpPause; OpResume; OpCleanup; OpCancel; OpDelay 10; OpPause; OpResume] in
  ∃ w, applyOps (cancel w0) ops = Some w ∧
       cancelled (ctl w) = true ∧ checkCancelled w = Some TaskCancelled ∧
       rpc (retryStart (T:=unit) w) = Threw TaskCancelled.
Proof.
  intros w0 ops. eexists. split; [reflexivity|].
  pose proof (cancel_is_permanent w0 ops _ eq_refl) as (H1 & H2 & H3).
  split_and!; [exact H1|exact H2|].
  destruct (H3 unit [] (retryStart w0)) as [-> _]. reflexivity.
Defined.

(** ** Delays begun after a cancel or a pause *)

Lemma delayPending_delay ms w :
  wellFormed w →
  delayPending (delay ms w).2 (clock (host w) + timeoutDelay ms) (delay ms w).1.
Proof.
  intros [H1 H2 _ _ _ _]. unfold delayPending. simpl. split_and!.
  - lia.
  - intros Hp. apply H1 in Hp. lia.
  - intros t [Ht|Ht]%elem_of_app Hc.
    + apply H2 in Ht. lia.
    + by apply list_elem_of_singleton in Ht as ->.
Qed.

Lemma delayPending_applyOp p deadline w op w' :
  quiet op = true → applyOp w op = Some w' →
  delayPending p deadline w →
  delayPending p deadline w' ∧ (clock (host w) ≤ clock (host w'))%Z.
Proof.
  intros Hq Hop (Hn & Hr & Ht). destruct op; try done; unfold applyOp in Hop.
  - simplify_eq. unfold waitIfPaused, delayPending.
    destruct (paused (ctl w)); simpl; split_and!; try done; lia.
  - simplify_eq. unfold delayPending. simpl. split_and!; try done; try lia.
    intros t [Hin|Hin]%elem_of_app Hc; [by apply Ht|].
    apply list_elem_of_singleton in Hin as ->. simpl in Hc. lia.
  - apply fireTimeout_Some in Hop
      as (t & Hin & _ & Hdue & _ & Hclock & Hto & Hres & _ & Hnext & _).
    unfold delayPending. rewrite Hclock, Hto, Hres, Hnext. split_and!; try done; try lia.
    + intros [Hp|Hp]%elem_of_app; [by apply Hr|].
      apply list_elem_of_singleton in Hp. rewrite <- (Ht t); [done|done|done].
    + intros t' [_ Hin']%list_elem_of_filter. by apply Ht.
  - apply elapse_Some in Hop as (Hdt & _ & Hclock & Hto & Hres & _ & Hnext & _).
    unfold delayPending. rewrite Hclock, Hto, Hres, Hnext. split_and!; try done; try lia.
    intros Hp. apply Hr in Hp. lia.
Qed.

Lemma delayPending_applyOps ops p deadline w w' :
  forallb quiet ops = true → applyOps w ops = Some w' →
  delayPending p deadline w →
  delayPending p deadline w' ∧ (clock (host w) ≤ clock (host w'))%Z.
Proof.
  revert w. induction ops as [|op ops IH]; simpl; intros w Hq H Hd.
  { simplify_eq. split; [done|lia]. }
  apply andb_prop in Hq as [Hq1 Hq2].
  destruct (applyOp w op) as [w1|] eqn:Hop; [|done]. simpl in H.
  destruct (delayPending_applyOp _ _ _ _ _ Hq1 Hop Hd) as [Hd1 Hc1].
  destruct (IH _ Hq2 H Hd1) as [Hd2 Hc2]. split; [done|lia].
Qed.

(** A step of the retry executor on an event that is not a call of pause,
    resume, cancel or cleanup changes the world by calls of the same kind. *)
Lemma retryStep_quiet {T} (s s' : RetrySys T) ev :
  quietEvent ev = true → retryStep s ev = Some s' →
  ∃ ops, forallb quiet ops = true ∧ applyOps (rworld s) ops = Some (rworld s').
Proof.
  intros Hq Hs. destruct ev; try done; simpl in Hs.
  - destruct (resumeRetry (rpc s) (rworld s)) as [[w' pc']|] eqn:Hr; [|done].
    simpl in Hs. simplify_eq. simpl.
    unfold resumeRetry in Hr. destruct (canResume _ _); [|done].
    destruct (rpc s); simplify_eq; [by exists []|].
    unfold loopHead in Hr. destruct (checkCancelled (rworld s)); simplify_eq; [by exists []|].
    destruct (waitIfPaused (rworld s)) as [w1 p1] eqn:Hw. simplify_eq.
    exists [OpWaitIfPaused]. simpl. rewrite Hw. split; reflexivity.
  - destruct (settleFn r (rpc s) (rworld s)) as [[w' pc']|] eqn:Hr; [|done].
    simpl in Hs. simplify_eq. simpl.
    unfold settleFn in Hr. destruct (rpc s); try done.
    destruct r; simplify_eq; [by exists []|].
    unfold delay in Hr. simplify_eq.
    exists [OpDelay (backoff retry)]. split; reflexivity.
  - destruct (fireTimeout h (rworld s)) as [w'|] eqn:Hr; [|done].
    simpl in Hs. simplify_eq. exists [OpFire h]. simpl. by rewrite Hr.
  - destruct (elapse dt (rworld s)) as [w'|] eqn:Hr; [|done].
    simpl in Hs. simplify_eq. exists [OpElapse dt]. simpl. by rewrite Hr.
Qed.

Lemma backoff_bounds retry : (0 ≤ backoff retry ≤ 5000)%Z.
Proof. unfold backoff. lia. Qed.

Lemma timeoutDelay_in_range ms : (0 ≤ ms ≤ 2147483647)%Z → timeoutDelay ms = ms.
Proof. intros H. unfold timeoutDelay. by rewrite bool_decide_true. Qed.

Lemma timeoutDelay_overflow ms : (2147483647 < ms)%Z → timeoutDelay ms = 0%Z.
Proof. intros H. unfold timeoutDelay. rewrite bool_decide_false; [done|lia]. Qed.

Lemma timeoutDelay_ge ms : (ms ≤ 2147483647)%Z → (ms ≤ timeoutDelay ms)%Z.
Proof. intros H. unfold timeoutDelay. case_bool_decide; lia. Qed.

Lemma timeoutDelay_max ms : (ms ≤ 2147483647)%Z → timeoutDelay ms = Z.max 0 ms.
Proof. intros H. unfold timeoutDelay. case_bool_decide; lia. Qed.

Lemma timeoutDelay_backoff retry : timeoutDelay (backoff retry) = backoff retry.
Proof. apply timeoutDelay_in_range. unfold backoff. lia. Qed.

Lemma cancelled_retryStep_quiet {T} (s s' : RetrySys T) ev :
  quietEvent ev = true → retryStep s ev = Some s' →
  cancelled (ctl (rworld s)) = true → cancelled (ctl (rworld s')) = true.
Proof.
  intros Hq Hs Hc. destruct (retryStep_quiet _ _ _ Hq Hs) as (ops & _ & Hops).
  eauto using cancelled_applyOps.
Qed.

Lemma backoff_after_cancel {T} evs (s1 s2 : RetrySys T) retry p deadline :
  forallb quietEvent evs = true → retryRun s1 evs = Some s2 →
  cancelled (ctl (rworld s1)) = true →
  delayPending p deadline (rworld s1) →
  rpc s1 = AwaitDelay retry p
  ∨ (rpc s1 = Threw TaskCancelled ∧ (deadline ≤ clock (host (rworld s1)))%Z) →
  fnCalls s2 = fnCalls s1 ∧
  (rpc s2 = AwaitDelay retry p
   ∨ (rpc s2 = Threw TaskCancelled ∧ (deadline ≤ clock (host (rworld s2)))%Z)).
Proof.
  revert s1. induction evs as [|ev evs IH]; simpl; intros s1 Hq Hrun Hc Hd Hpc.
  { by simplify_eq. }
  apply andb_prop in Hq as [Hq1 Hq2].
  destruct (retryStep s1 ev) as [s'|] eqn:Hs; [|done]. simpl in Hrun.
  destruct (retryStep_quiet _ _ _ Hq1 Hs) as (ops & Hqo & Hops).
  destruct (delayPending_applyOps _ _ _ _ _ Hqo Hops Hd) as [Hd' Hclock].
  pose proof (cancelled_retryStep_quiet _ _ _ Hq1 Hs Hc) as Hc'.
  assert (fnCalls s' = fnCalls s1 ∧
          (rpc s' = AwaitDelay retry p
           ∨ (rpc s' = Threw TaskCancelled ∧ (deadline ≤ clock (host (rworld s')))%Z)))
    as [Hn' Hpc'].
  { destruct Hpc as [Hpc|[Hpc Hdl]].
    - destruct ev; try done; simpl in Hs; rewrite ?Hpc in Hs; simpl in Hs.
      + unfold resumeRetry in Hs. simpl in Hs.
        destruct (isResolved p (rworld s1)) eqn:Hres; [|done].
        unfold loopHead, checkCancelled in Hs. rewrite Hc in Hs. simpl in Hs.
        simplify_eq. simpl. split; [done|]. right. split; [done|].
        apply bool_decide_eq_true in Hres. destruct Hd as (_ & Hr & _). by apply Hr.
      + done.
      + destruct (fireTimeout h (rworld s1)); simplify_option_eq. auto.
      + destruct (elapse dt (rworld s1)); simplify_option_eq. auto.
    - destruct (retryStep_ended _ _ _ _ Hpc Hs) as [Hpc' Hn']. split; [done|].
      right. split; [done|lia]. }
  destruct (IH _ Hq2 Hrun Hc' Hd' Hpc') as [Hn2 Hpc2]. split; [congruence|done].
Qed.

(** C10 as stated does not hold: [resume()] and [cleanup()] clear the timers
    too.  A [delay(5000)] begun after a [pause()] is resolved at once by the
    [resume()] that follows, and one begun after a [cancel()] by a
    [cleanup()].  In a run of [processChunks] this happens by itself: task 1
    starts its 1000 ms back-off after the [cancel()]; task 0 then throws the
    cancellation error, the run settles, its [cleanup()] resolves the
    back-off of task 1, and task 1 throws while the clock still shows 0. *)
Lemma delay_after_cancel_cut_short :
  ¬ lastsInFull (pause (newTaskController 0)) 5000 [OpResume] ∧
  ¬ lastsInFull (cancel (newTaskController 0)) 5000 [OpCleanup] ∧
  let opts := {| concurrency := None; onProgress := true |} in
  let c := {| blob := "x"; hash := "h"; index := 0; start := 0; end_ := 1 |} in
  ∃ s, run opts (processChunks opts 2 0)
         [ChunkSettles 0 (Fulfilled c); ChunkSettles 1 (Fulfilled c);
          TaskResumes 0; TaskResumes 1;
          ProcessorSettles 1 (Rejected (Failure 1)) None; TimeoutFires 1;
          TaskResumes 1; TaskResumes 1;
          UserCancel;
          ProcessorSettles 1 (Rejected (Failure 1)) None;
          ProcessorSettles 0 (Rejected (Failure 2)) None; TimeoutFires 5;
          TaskResumes 0; FinallyRuns 0; MainResumes;
          TaskResumes 1] = Some s ∧
       sleepLog (host (world s)) = [0; 1000; 0]%Z ∧
       tasks s !! 1 = Some (Settling (Rejected TaskCancelled)) ∧
       clock (host (world s)) = 0%Z.
Proof.
  split_and!.
  - intros H. specialize (H _ eq_refl eq_refl). vm_compute in H. by apply H.
  - intros H. specialize (H _ eq_refl eq_refl). vm_compute in H. by apply H.
  - eexists. split; [vm_compute; reflexivity|]. split_and!; vm_compute; reflexivity.
Qed.

(** ** The retry loop *)

Lemma sleepLog_waitIfPaused w : sleepLog (host (waitIfPaused w).1) = sleepLog (host w).
Proof. unfold waitIfPaused. by destruct (paused (ctl w)). Qed.

Lemma sleepLog_resume w : sleepLog (host (resume w)) = sleepLog (host w).
Proof. unfold resume. by destruct (paused (ctl w)). Qed.

Lemma sleepLog_cancel w : sleepLog (host (cancel w)) = sleepLog (host w).
Proof. unfold cancel. simpl. by destruct (paused (ctl w)). Qed.

Lemma sleepLog_loopHead {T} retry w :
  sleepLog (host (loopHead (T:=T) retry w).1) = sleepLog (host w).
Proof.
  unfold loopHead. destruct (checkCancelled w); [done|].
  pose proof (sleepLog_waitIfPaused w). by destruct (waitIfPaused w).
Qed.

Lemma retryOf_loopHead {T} retry w r :
  retryOf (loopHead (T:=T) retry w).2 = Some r → r = retry.
Proof.
  unfold loopHead. destruct (checkCancelled w); [done|].
  destruct (waitIfPaused w). simpl. congruence.
Qed.

(** What the retry loop keeps true: after [k] failed attempts the local
    [retry] is [k] and the delays asked for so far are the first [k] back-off
    times, in order. *)
Lemma retryStep_sleepLog {T} (s s' : RetrySys T) ev base k :
  retryStep s ev = Some s' →
  sleepLog (host (rworld s)) = base ++ (backoff <$> seq 0 k) →
  (∀ r, retryOf (rpc s) = Some r → r = k) →
  sleepLog (host (rworld s'))
  = base ++ (backoff <$> seq 0 (if isFailure ev then S k else k)) ∧
  (∀ r, retryOf (rpc s') = Some r → r = if isFailure ev then S k else k).
Proof.
  intros Hs Hlog Hr. destruct ev; cbn [retryStep] in Hs.
  - destruct (resumeRetry (rpc s) (rworld s)) as [[w' pc']|] eqn:Hx; [|done].
    cbn in Hs. simplify_eq. cbn.
    unfold resumeRetry in Hx. destruct (canResume _ _); [|done].
    destruct (rpc s) eqn:Hpc; simplify_eq.
    + split; [done|]. unfold afterWait. destruct (checkCancelled _); [done|].
      intros r [= <-]. by apply Hr.
    + pose proof (sleepLog_loopHead (T:=T) retry (rworld s)) as Hl.
      pose proof (retryOf_loopHead (T:=T) retry (rworld s)) as Ho.
      rewrite Hx in Hl, Ho. cbn in Hl, Ho.
      split; [congruence|]. intros r Hr'. apply Ho in Hr' as ->. by apply Hr.
  - destruct (settleFn r (rpc s) (rworld s)) as [[w' pc']|] eqn:Hx; [|done].
    cbn in Hs. simplify_eq. cbn [rworld rpc].
    unfold settleFn in Hx. destruct (rpc s) eqn:Hpc; try done.
    destruct r; simplify_eq; cbn [isFailure]; [done|].
    unfold delay in Hx. simplify_eq. cbn [host sleepLog retryOf].
    rewrite (Hr retry eq_refl), Hlog, seq_S, fmap_app, app_assoc.
    split; [done|]. by intros r [= <-].
  - destruct (fireTimeout h (rworld s)) as [w'|] eqn:Hx; [|done].
    cbn in Hs. simplify_eq. cbn.
    apply fireTimeout_Some in Hx as (t & _ & _ & _ & _ & _ & _ & _ & _ & _ & ->).
    done.
  - destruct (elapse dt (rworld s)) as [w'|] eqn:Hx; [|done].
    cbn in Hs. simplify_eq. cbn.
    apply elapse_Some in Hx as (_ & _ & _ & _ & _ & _ & _ & ->).
    done.
  - simplify_eq. done.
  - simplify_eq. cbn. by rewrite sleepLog_resume.
  - simplify_eq. cbn. by rewrite sleepLog_cancel.
  - simplify_eq. done.
Qed.

Lemma retryRun_sleepLog {T} evs (s s' : RetrySys T) base k :
  retryRun s evs = Some s' →
  sleepLog (host (rworld s)) = base ++ (backoff <$> seq 0 k) →
  (∀ r, retryOf (rpc s) = Some r → r = k) →
  sleepLog (host (rworld s')) = base ++ (backoff <$> seq 0 (k + failures evs)) ∧
  (∀ r, retryOf (rpc s') = Some r → r = k + failures evs).
Proof.
  revert s k. induction evs as [|ev evs IH]; simpl; intros s k Hrun Hlog Hr.
  { simplify_eq. unfold failures. simpl. by rewrite Nat.add_0_r. }
  destruct (retryStep s ev) as [s1|] eqn:Hs; [|done]. simpl in Hrun.
  destruct (retryStep_sleepLog _ _ _ _ _ Hs Hlog Hr) as [Hlog1 Hr1].
  destruct (IH _ _ Hrun Hlog1 Hr1) as [Hlog2 Hr2].
  unfold failures in *. rewrite filter_cons.
  destruct (isFailure ev); simpl in *; [|done].
  by rewrite <- Nat.add_succ_comm.
Qed.

Lemma retryRun_app {T} evs1 evs2 (s : RetrySys T) :
  retryRun s (evs1 ++ evs2) = s' ← retryRun s evs1; retryRun s' evs2.
Proof.
  revert s. induction evs1 as [|ev evs1 IH]; simpl; intros s; [done|].
  destruct (retryStep s ev); simpl; [apply IH|done].
Qed.

(** One round of the always-failing schedule, from the top of an attempt to
    the top of the next one. *)
Lemma failingRound_run {T} (w : World) (e : Error) (s : RetrySys T) k :
  rpc s = AwaitWaitIfPaused k None →
  paused (ctl (rworld s)) = false → cancelled (ctl (rworld s)) = false →
  timeouts (host (rworld s)) = [] →
  nextId (host (rworld s)) = nextId (host w) + 2 * k →
  ∃ s', retryRun s (failingRound w e k) = Some s' ∧
        rpc s' = AwaitWaitIfPaused (S k) None ∧
        paused (ctl (rworld s')) = false ∧ cancelled (ctl (rworld s')) = false ∧
        timeouts (host (rworld s')) = [] ∧
        nextId (host (rworld s')) = nextId (host w) + 2 * S k ∧
        fnCalls s' = S (fnCalls s) ∧
        clock (host (rworld s')) = (clock (host (rworld s)) + backoff k)%Z.
Proof.
  destruct s as [[c h] pc n]. destruct c, h. cbn. intros -> -> -> -> ->.
  unfold failingRound. pose proof (backoff_bounds k) as Hb.
  cbn. unfold elapse. rewrite bool_decide_true by lia. cbn.
  unfold fireTimeout. cbn. rewrite decide_True by done. cbn.
  rewrite timeoutDelay_backoff, bool_decide_true by lia. cbn.
  rewrite decide_False by (intros H; by apply H).
  unfold resumeRetry, canResume, isResolved. cbn.
  rewrite bool_decide_true by (apply elem_of_app; right; by apply list_elem_of_singleton).
  cbn. eexists. split; [reflexivity|]. cbn.
  split_and!; try done; try lia.
Qed.

Lemma failures_app {T} (evs1 evs2 : list (RetryEvent T)) :
  failures (evs1 ++ evs2) = failures evs1 + failures evs2.
Proof. unfold failures. by rewrite filter_app, length_app. Qed.

Lemma failingRounds_run {T} (w : World) (e : Error) n (s : RetrySys T) k :
  rpc s = AwaitWaitIfPaused k None →
  paused (ctl (rworld s)) = false → cancelled (ctl (rworld s)) = false →
  timeouts (host (rworld s)) = [] →
  nextId (host (rworld s)) = nextId (host w) + 2 * k →
  failures (failingRounds (T:=T) w e k n) = n ∧
  ∃ s', retryRun s (failingRounds w e k n) = Some s' ∧
        rpc s' = AwaitWaitIfPaused (k + n) None ∧
        cancelled (ctl (rworld s')) = false ∧
        fnCalls s' = fnCalls s + n.
Proof.
  revert s k. induction n as [|n IH]; intros s k Hpc Hp Hc Ht Hn; cbn [failingRounds].
  { split; [done|]. exists s. rewrite !Nat.add_0_r. done. }
  destruct (failingRound_run w e s k Hpc Hp Hc Ht Hn)
    as (s1 & Hrun1 & Hpc1 & Hp1 & Hc1 & Ht1 & Hn1 & Hf1 & _).
  destruct (IH s1 (S k) Hpc1 Hp1 Hc1 Ht1 Hn1) as (Hfail & s2 & Hrun2 & Hpc2 & Hc2 & Hf2).
  split.
  - rewrite failures_app, Hfail. done.
  - exists s2. rewrite retryRun_app, Hrun1. cbn [mbind option_bind].
    split_and!; try done.
    + by rewrite <- Nat.add_succ_comm.
    + lia.
Qed.

Lemma retryStart_fresh {T} t0 :
  retryStart (T:=T) (newTaskController t0)
  = {| rworld := newTaskController t0; rpc := AwaitWaitIfPaused 0 None; fnCalls := 0 |}.
Proof. reflexivity. Qed.

Lemma failing_forever {T} t0 e n :
  failures (failingRounds (T:=T) (newTaskController t0) e 0 n) = n ∧
  ∃ s : RetrySys T,
    retryRun (retryStart (newTaskController t0))
             (failingRounds (newTaskController t0) e 0 n) = Some s ∧
    rpc s = AwaitWaitIfPaused n None ∧
    cancelled (ctl (rworld s)) = false ∧
    fnCalls s = n.
Proof.
  rewrite retryStart_fresh.
  destruct (failingRounds_run (T:=T) (newTaskController t0) e n
              {| rworld := newTaskController t0; rpc := AwaitWaitIfPaused 0 None;
                 fnCalls := 0 |} 0) as (Hf & s & Hrun & Hpc & Hc & Hn); try done.
  split; [done|]. by exists s.
Qed.



(** ** What escapes the retry loop *)

Lemma retryStep_ops {T} (s s' : RetrySys T) ev :
  retryStep s ev = Some s' → ∃ ops, applyOps (rworld s) ops = Some (rworld s').
Proof.
  intros Hs. destruct (quietEvent ev) eqn:Hq.
  - destruct (retryStep_quiet _ _ _ Hq Hs) as (ops & _ & Hops). eauto.
  - destruct ev; try done; cbn in Hs; simplify_eq; cbn.
    + by exists [OpPause].
    + by exists [OpResume].
    + by exists [OpCancel].
    + by exists [OpCleanup].
Qed.

(** Case analysis on a step of the retry executor. *)
Ltac inv_retryStep Hs Hx :=
  match type of Hs with
  | retryStep ?s ?ev = Some _ =>
      destruct ev; cbn [retryStep] in Hs;
      [ destruct (resumeRetry (rpc s) (rworld s)) as [[? ?]|] eqn:Hx; cbn in Hs; [|done]
      | destruct (settleFn _ (rpc s) (rworld s)) as [[? ?]|] eqn:Hx; cbn in Hs; [|done]
      | destruct (fireTimeout _ (rworld s)) as [?|] eqn:Hx; cbn in Hs; [|done]
      | destruct (elapse _ (rworld s)) as [?|] eqn:Hx; cbn in Hs; [|done]
      | | | | ]; simplify_eq; cbn [rworld rpc fnCalls] in *
  end.

Lemma retryStep_threw {T} (s s' : RetrySys T) ev :
  retryStep s ev = Some s' →
  (∀ e, rpc s = Threw e → e = TaskCancelled ∧ cancelled (ctl (rworld s)) = true) →
  (∀ e, rpc s' = Threw e → e = TaskCancelled ∧ cancelled (ctl (rworld s')) = true).
Proof.
  intros Hs Hinv e He.
  destruct (rpc s) as [retry p|retry|retry p|v|e0] eqn:Hpc.
  5:{ destruct (retryStep_ended _ _ _ _ Hpc Hs) as [Hpc' _].
      rewrite Hpc' in He. simplify_eq. destruct (Hinv _ eq_refl) as [-> Hc].
      split; [done|]. destruct (retryStep_ops _ _ _ Hs) as (ops & Hops).
      eauto using cancelled_applyOps. }
  all: inv_retryStep Hs Hx; rewrite ?Hpc in *; try done.
  - unfold resumeRetry in Hx. destruct (canResume _ _); [|done]. simplify_eq.
    unfold afterWait, checkCancelled in *.
    destruct (cancelled (ctl (rworld s))) eqn:Hc; by simplify_eq.
  - unfold settleFn in Hx. destruct r; simplify_eq.
  - unfold resumeRetry in Hx. destruct (canResume _ _); [|done]. simplify_eq.
    unfold loopHead, checkCancelled in *.
    destruct (cancelled (ctl (rworld s))) eqn:Hc; [by simplify_eq|].
    destruct (waitIfPaused (rworld s)). simplify_eq.
Qed.

Lemma retryRun_threw {T} evs (s s' : RetrySys T) :
  retryRun s evs = Some s' →
  (∀ e, rpc s = Threw e → e = TaskCancelled ∧ cancelled (ctl (rworld s)) = true) →
  (∀ e, rpc s' = Threw e → e = TaskCancelled ∧ cancelled (ctl (rworld s')) = true).
Proof.
  revert s. induction evs as [|ev evs IH]; simpl; intros s Hrun Hinv; [by simplify_eq|].
  destruct (retryStep s ev) as [s1|] eqn:Hs; [|done]. simpl in Hrun.
  eauto using retryStep_threw.
Qed.

Lemma retryStep_calls {T} (s s' : RetrySys T) ev :
  retryStep s ev = Some s' → fnCalls s' ≠ fnCalls s →
  ev = Wake ∧ cancelled (ctl (rworld s)) = false ∧ fnCalls s' = S (fnCalls s) ∧
  ∃ retry p, rpc s = AwaitWaitIfPaused retry p ∧ rpc s' = AwaitFn retry.
Proof.
  intros Hs Hne. inv_retryStep Hs Hx; try done.
  unfold resumeRetry in Hx. destruct (canResume _ _); [|done].
  destruct (rpc s) eqn:Hpc; simplify_eq.
  - unfold afterWait, checkCancelled in *.
    destruct (cancelled (ctl (rworld s))); [done|]. cbn. eauto 10.
  - unfold loopHead in Hx. destruct (checkCancelled (rworld s)); [by simplify_eq|].
    destruct (waitIfPaused (rworld s)). by simplify_eq.
Qed.

(** ** Promise.all keeps the order of the promises *)

Section PromiseAllFacts.
Context {A : Type}.
Implicit Types (sources : list (Settled A)) (order : list nat) (st : AllState A).

Lemma settleInOrder_snoc sources order i :
  settleInOrder sources (order ++ [i]) = stepAll sources (settleInOrder sources order) i.
Proof. unfold settleInOrder. by rewrite foldl_snoc. Qed.

Lemma settleInOrder_app sources order1 order2 :
  settleInOrder sources (order1 ++ order2)
  = foldl (stepAll sources) (settleInOrder sources order1) order2.
Proof. unfold settleInOrder. by rewrite foldl_app. Qed.

Lemma mapM_id_lookup (vs : list (option A)) l j :
  mapM id vs = Some l → j < length vs → ∃ v, vs !! j = Some (Some v).
Proof.
  intros Hm Hj. apply mapM_Some_1 in Hm.
  destruct (lookup_lt_is_Some_2 vs j Hj) as [o Ho].
  destruct (Forall2_lookup_l _ _ _ _ _ Hm Ho) as (v & _ & Hv).
  simpl in Hv. subst o. eauto.
Qed.

Lemma allSound_init sources : allSound sources (promiseAll (length sources)).
Proof.
  constructor; simpl.
  - by rewrite length_replicate.
  - intros j v [? _]%lookup_replicate. done.
  - intros l Hl. destruct (mapM id (replicate (length sources) None));
      simpl in Hl; by simplify_eq.
Qed.

Lemma allSound_step sources st i : allSound sources st → allSound sources (stepAll sources st i).
Proof.
  intros [Hlen Hslot Hwhole]. unfold stepAll.
  destruct (sources !! i) as [[v|e]|] eqn:Hi; [| |done]; simpl.
  - constructor; simpl.
    + by rewrite length_insert.
    + intros j v'. destruct (decide (i = j)) as [->|Hne].
      * rewrite list_lookup_insert_eq; [congruence|].
        rewrite Hlen. by eapply lookup_lt_Some.
      * rewrite list_lookup_insert_ne by done. apply Hslot.
    + intros l. destruct (allResult st) as [o|] eqn:Hres.
      * intros [= ->]. pose proof (Hwhole _ eq_refl) as Hm.
        destruct (mapM_id_lookup _ _ i Hm) as [v0 Hv0].
        { rewrite Hlen. by eapply lookup_lt_Some. }
        pose proof (Hslot _ _ Hv0) as Hs. simplify_eq.
        by rewrite list_insert_id.
      * destruct (mapM id (<[i:=Some v]> (allValues st))); simpl; intros; by simplify_eq.
  - constructor; simpl; [done|done|].
    intros l. destruct (allResult st) as [o|] eqn:Hres; [|done].
    intros [= ->]. by apply Hwhole.
Qed.

Lemma allSound_settleInOrder sources order : allSound sources (settleInOrder sources order).
Proof.
  induction order as [|i order IH] using rev_ind.
  - apply allSound_init.
  - rewrite settleInOrder_snoc. by apply allSound_step.
Qed.

(** As long as no promise that settled was rejected, the whole is fulfilled
    exactly when every slot is filled, and the slots are those of the
    promises that settled. *)
Lemma settleInOrder_unrejected sources order :
  (∀ j e, j ∈ order → sources !! j ≠ Some (Rejected e)) →
  allResult (settleInOrder sources order)
  = Fulfilled <$> mapM id (allValues (settleInOrder sources order)) ∧
  (∀ j v, j ∈ order → sources !! j = Some (Fulfilled v) →
          allValues (settleInOrder sources order) !! j = Some (Some v)) ∧
  (∀ j, j ∉ order → j < length sources →
        allValues (settleInOrder sources order) !! j = Some None).
Proof.
  induction order as [|i order IH] using rev_ind; intros Hrej.
  - split_and!; [done| |].
    + intros j v Hj. by apply elem_of_nil in Hj.
    + intros j _ Hj. simpl. by apply lookup_replicate.
  - destruct IH as (IH1 & IH2 & IH3).
    { intros j e Hj. apply Hrej. apply elem_of_app. by left. }
    pose proof (allSound_settleInOrder sources order) as [Hlen Hslot Hwhole].
    rewrite settleInOrder_snoc. unfold stepAll.
    destruct (sources !! i) as [[v|e]|] eqn:Hi; simpl.
    + split_and!.
      * destruct (allResult (settleInOrder sources order)) as [o|] eqn:Hres; [|done].
        destruct (mapM id (allValues (settleInOrder sources order))) as [l|] eqn:Hm;
          [|done].
        simpl in IH1. simplify_eq.
        destruct (mapM_id_lookup _ _ i Hm) as [v0 Hv0].
        { rewrite Hlen. by eapply lookup_lt_Some. }
        pose proof (Hslot _ _ Hv0) as Hs. simplify_eq.
        by rewrite list_insert_id, Hm.
      * intros j v' [Hj|Hj%list_elem_of_singleton]%elem_of_app Hs.
        -- destruct (decide (i = j)) as [->|Hne].
           ++ simplify_eq. apply list_lookup_insert_eq.
              rewrite Hlen. by eapply lookup_lt_Some.
           ++ rewrite list_lookup_insert_ne by done. by apply IH2.
        -- subst j. simplify_eq. apply list_lookup_insert_eq.
           rewrite Hlen. by eapply lookup_lt_Some.
      * intros j Hj Hlt. rewrite list_lookup_insert_ne.
        -- apply IH3; [|done]. intros Hin. apply Hj. apply elem_of_app. by left.
        -- intros ->. apply Hj. apply elem_of_app. right. by apply list_elem_of_singleton.
    + exfalso. eapply (Hrej i e); [|done].
      apply elem_of_app. right. by apply list_elem_of_singleton.
    + split_and!; [done| |].
      * intros j v' [Hj|Hj%list_elem_of_singleton]%elem_of_app Hs; [by apply IH2|].
        subst j. congruence.
      * intros j Hj Hlt. apply IH3; [|done].
        intros Hin. apply Hj. apply elem_of_app. by left.
Qed.

Lemma stepAll_rejected sources st i e :
  allResult st = Some (Rejected e) → allResult (stepAll sources st i) = Some (Rejected e).
Proof.
  intros Hres. unfold stepAll. destruct (sources !! i) as [[v|e']|]; simpl; by rewrite ?Hres.
Qed.

Lemma foldl_stepAll_rejected sources order st e :
  allResult st = Some (Rejected e) →
  allResult (foldl (stepAll sources) st order) = Some (Rejected e).
Proof.
  revert st. induction order as [|i order IH]; simpl; intros st Hres; [done|].
  apply IH. by apply stepAll_rejected.
Qed.

(** The first rejection decides. *)
Lemma settleInOrder_first_rejection sources pre i post e :
  (∀ j e', j ∈ pre → sources !! j ≠ Some (Rejected e')) →
  sources !! i = Some (Rejected e) →
  allResult (settleInOrder sources (pre ++ i :: post)) = Some (Rejected e).
Proof.
  intros Hpre Hi. rewrite settleInOrder_app. simpl.
  apply foldl_stepAll_rejected.
  destruct (settleInOrder_unrejected sources pre Hpre) as (H1 & _ & H3).
  unfold stepAll. rewrite Hi. simpl.
  destruct (allResult (settleInOrder sources pre)) as [o|] eqn:Hres; [|done].
  destruct (mapM id (allValues (settleInOrder sources pre))) as [l|] eqn:Hm; [|done].
  exfalso.
  pose proof (allSound_settleInOrder sources pre) as [Hlen Hslot _].
  destruct (mapM_id_lookup _ _ i Hm) as [v0 Hv0].
  { rewrite Hlen. by eapply lookup_lt_Some. }
  apply Hslot in Hv0. congruence.
Qed.

Lemma first_rejection sources order i e :
  i ∈ order → sources !! i = Some (Rejected e) →
  ∃ pre k post e',
    order = pre ++ k :: post ∧ sources !! k = Some (Rejected e') ∧
    ∀ j e'', j ∈ pre → sources !! j ≠ Some (Rejected e'').
Proof.
  induction order as [|k order IH]; intros Hin Hi; [by apply elem_of_nil in Hin|].
  destruct (sources !! k) as [[v|e']|] eqn:Hk.
  2:{ exists [], k, order, e'. split_and!; [done|done|].
      intros j e'' Hj. by apply elem_of_nil in Hj. }
  all: apply elem_of_cons in Hin as [->|Hin]; [congruence|];
    destruct (IH Hin Hi) as (pre & k' & post & e' & -> & Hk' & Hpre);
    exists (k :: pre), k', post, e'; split_and!; [done|done|];
    intros j e'' [->|Hj]%elem_of_cons; [congruence|by apply Hpre].
Qed.
End PromiseAllFacts.

Lemma settleInOrder_all_fulfilled {A} (xs : list A) (order : list nat) :
  (∀ i, i < length xs → i ∈ order) →
  allResult (settleInOrder (Fulfilled <$> xs) order) = Some (Fulfilled xs).
Proof.
  intros Hall.
  destruct (settleInOrder_unrejected (Fulfilled <$> xs) order) as (H1 & H2 & _).
  { intros j e _. rewrite list_lookup_fmap. by destruct (xs !! j). }
  pose proof (allSound_settleInOrder (Fulfilled <$> xs) order) as [Hlen _ _].
  rewrite length_fmap in Hlen.
  rewrite H1. replace (allValues (settleInOrder (Fulfilled <$> xs) order)) with (Some <$> xs).
  { by rewrite mapM_fmap_Some. }
  apply list_eq. intros j. rewrite list_lookup_fmap.
  destruct (xs !! j) as [x|] eqn:Hj; simpl.
  - symmetry. apply H2.
    + apply Hall. by eapply lookup_lt_Some.
    + by rewrite list_lookup_fmap, Hj.
  - symmetry. apply lookup_ge_None. rewrite Hlen. by apply lookup_ge_None.
Qed.

Lemma settleInOrder_pending {A} (xs : list A) (order : list nat) i :
  i < length xs → i ∉ order →
  allResult (settleInOrder (Fulfilled <$> xs) order) = None.
Proof.
  intros Hi Hnot.
  destruct (settleInOrder_unrejected (Fulfilled <$> xs) order) as (H1 & _ & H3).
  { intros j e _. rewrite list_lookup_fmap. by destruct (xs !! j). }
  rewrite H1. replace (mapM id _) with (@None (list A)); [done|].
  symmetry. apply mapM_None_2. apply Exists_exists. exists None. split; [|done].
  eapply list_elem_of_lookup_2. apply H3; [done|]. by rewrite length_fmap.
Qed.

(** C8: [collectChunks] is pending for as long as a chunk promise has not
    settled; once all of them are fulfilled, in whatever order, it is
    fulfilled with the chunks in the order of the promises; and it is rejected
    when one promise is rejected, with the error of the first rejection,
    whatever the other promises do. *)
Theorem collectChunks_keeps_source_order :
  (∀ (chunks : list Chunk) (order : list nat),
     (∀ i, i < length chunks → i ∈ order) →
     collectChunks (Fulfilled <$> chunks) order = Some (Fulfilled chunks)) ∧
  (∀ (chunks : list Chunk) (order : list nat) i,
     i < length chunks → i ∉ order →
     collectChunks (Fulfilled <$> chunks) order = None) ∧
  (∀ (sources : list (Settled Chunk)) pre i post e,
     (∀ j e', j ∈ pre → sources !! j ≠ Some (Rejected e')) →
     sources !! i = Some (Rejected e) →
     collectChunks sources (pre ++ i :: post) = Some (Rejected e)) ∧
  (∀ (sources : list (Settled Chunk)) order i e,
     i ∈ order → sources !! i = Some (Rejected e) →
     ∃ e', collectChunks sources order = Some (Rejected e')).
Proof.
  unfold collectChunks. split_and!.
  - intros chunks order. apply settleInOrder_all_fulfilled.
  - intros chunks order i. apply settleInOrder_pending.
  - intros sources pre i post e. apply settleInOrder_first_rejection.
  - intros sources order i e Hin Hi.
    destruct (first_rejection sources order i e Hin Hi)
      as (pre & k & post & e' & -> & Hk & Hpre).
    exists e'. by apply settleInOrder_first_rejection.
Qed.

Lemma collectChunks_keeps_source_order_witness :
  let c0 := {| blob := "ab"; hash := "h0"; index := 0; start := 0; end_ := 2 |} in
  let c1 := {| blob := "cd"; hash := "h1"; index := 1; start := 2; end_ := 4 |} in
  let c2 := {| blob := "e"; hash := "h2"; index := 2; start := 4; end_ := 5 |} in
  collectChunks (Fulfilled <$> [c0; c1; c2]) [2; 0; 1] = Some (Fulfilled [c0; c1; c2]) ∧
  collectChunks [Fulfilled c0; Rejected (Failure 7); Fulfilled c2] [2; 0; 1]
  = Some (Rejected (Failure 7)).
Proof.
  intros c0 c1 c2.
  destruct collectChunks_keeps_source_order as (H1 & _ & H3 & _). split.
  - apply H1. intros i Hi. simpl in Hi.
    destruct i as [|[|[|i]]]; [| | |lia]; apply (bool_decide_unpack _); exact I.
  - apply (H3 [Fulfilled c0; Rejected (Failure 7); Fulfilled c2] [2; 0] 1 []); [|done].
    intros j e' Hj. repeat (apply elem_of_cons in Hj as [->|Hj]); try done.
    by apply elem_of_nil in Hj.
Defined.

(** ** The file hash *)

Lemma append_assoc (s1 s2 s3 : string) : (s1 +:+ s2) +:+ s3 = s1 +:+ (s2 +:+ s3).
Proof.
  induction s1 as [|a s1 IH]; [done|].
  change (String a ((s1 +:+ s2) +:+ s3) = String a (s1 +:+ (s2 +:+ s3))).
  by rewrite IH.
Qed.

Lemma append_empty_r (s : string) : s +:+ "" = s.
Proof.
  induction s as [|a s IH]; [done|].
  change (String a (s +:+ "") = String a s). by rewrite IH.
Qed.

Lemma foldl_append (chunks : list Chunk) (acc : string) :
  foldl (λ hasher chunk, append hasher (hash chunk)) acc chunks
  = acc +:+ joined (hash <$> chunks).
Proof.
  revert acc. induction chunks as [|c chunks IH]; intros acc; simpl.
  - by rewrite append_empty_r.
  - rewrite IH. unfold append. by rewrite append_assoc.
Qed.

Lemma hashChunks_joined md5 (chunks : list Chunk) :
  hashChunks md5 chunks = md5 (joined (hash <$> chunks)).
Proof. unfold hashChunks, end_hash, newSparkMD5. by rewrite foldl_append. Qed.

(** C7: [calculateFileHash] is pending for as long as a chunk promise has not
    settled.  Once all are fulfilled, in whatever order, it appends the
    [hash] fields of the chunks to one hasher in the order of their promises
    and returns the digest of the whole: [md5(h0 ‖ h1 ‖ … ‖ hN-1)], the same
    for every order of settling. *)
Theorem calculateFileHash_of_joined_hashes (md5 : string → string) (chunks : list Chunk) :
  (∀ order, (∀ i, i < length chunks → i ∈ order) →
     calculateFileHash md5 (Fulfilled <$> chunks) order
     = Some (Fulfilled (md5 (joined (hash <$> chunks))))) ∧
  (∀ order i, i < length chunks → i ∉ order →
     calculateFileHash md5 (Fulfilled <$> chunks) order = None) ∧
  (∀ order1 order2,
     (∀ i, i < length chunks → i ∈ order1) → (∀ i, i < length chunks → i ∈ order2) →
     calculateFileHash md5 (Fulfilled <$> chunks) order1
     = calculateFileHash md5 (Fulfilled <$> chunks) order2) ∧
  hashChunks md5 chunks
  = md5 (foldl (λ text chunk, text +:+ hash chunk) "" chunks).
Proof.
  assert (Hall : ∀ order, (∀ i, i < length chunks → i ∈ order) →
     calculateFileHash md5 (Fulfilled <$> chunks) order
     = Some (Fulfilled (md5 (joined (hash <$> chunks))))).
  { intros order Hord. unfold calculateFileHash.
    by rewrite settleInOrder_all_fulfilled, hashChunks_joined. }
  split_and!.
  - done.
  - intros order i Hi Hnot. unfold calculateFileHash.
    by rewrite (settleInOrder_pending chunks order i).
  - intros order1 order2 H1 H2. by rewrite !Hall.
  - reflexivity.
Qed.

Lemma calculateFileHash_of_joined_hashes_witness :
  let c0 := {| blob := "ab"; hash := "h0"; index := 0; start := 0; end_ := 2 |} in
  let c1 := {| blob := "cd"; hash := "h1"; index := 1; start := 2; end_ := 4 |} in
  let c2 := {| blob := "e"; hash := "h2"; index := 2; start := 4; end_ := 5 |} in
  let md5 := String.append "digest of " in
  calculateFileHash md5 (Fulfilled <$> [c0; c1; c2]) [1; 2; 0]
  = Some (Fulfilled "digest of h0h1h2").
Proof.
  intros c0 c1 c2 md5.
  destruct (calculateFileHash_of_joined_hashes md5 [c0; c1; c2]) as (H1 & _).
  apply (H1 [1; 2; 0]). intros i Hi. simpl in Hi.
  destruct i as [|[|[|i]]]; [| | |lia]; apply (bool_decide_unpack _); exact I.
Defined.

(** ** Counting tasks *)

Lemma countb_cons {A} (f : A → bool) x l :
  countb f (x :: l) = (if f x then 1 else 0) + countb f l.
Proof.
  unfold countb. rewrite filter_cons. by destruct (f x).
Qed.

Lemma countb_insert {A} (f : A → bool) l i x y :
  l !! i = Some x →
  countb f (<[i := y]> l) + (if f x then 1 else 0) = countb f l + (if f y then 1 else 0).
Proof.
  revert i. induction l as [|z l IH]; intros i Hi; [done|].
  destruct i as [|i]; simpl in *.
  - simplify_eq. rewrite !countb_cons. lia.
  - rewrite !countb_cons. specialize (IH i Hi). lia.
Qed.

Lemma countb_replicate_false {A} (f : A → bool) n x : f x = false → countb f (replicate n x) = 0.
Proof.
  intros Hx. induction n as [|n IH]; [done|].
  simpl. rewrite countb_cons, Hx, IH. done.
Qed.

Lemma countb_le_length {A} (f : A → bool) l : countb f l ≤ length l.
Proof. apply length_filter. Qed.

Lemma length_filter_remove (l : list nat) i :
  NoDup l → i ∈ l → S (length (filter (λ j, j ≠ i) l)) = length l.
Proof.
  induction l as [|k l IH]; intros Hnd Hin; [by apply elem_of_nil in Hin|].
  apply NoDup_cons in Hnd as [Hk Hnd]. rewrite filter_cons.
  destruct (decide (k ≠ i)) as [Hne|Heq]; simpl.
  - apply elem_of_cons in Hin as [->|Hin]; [done|]. by rewrite IH.
  - apply dec_stable in Heq as ->. f_equal.
    assert (filter (λ j, j ≠ i) l = l) as ->; [|done].
    clear IH Hin Hnd. induction l as [|k l IH]; [done|].
    apply not_elem_of_cons in Hk as [Hne Hk].
    rewrite filter_cons, decide_True by done. by rewrite IH.
Qed.

(** ** The scheduler's invariant *)

Lemma scheduled_settleMain opts r s : scheduled opts s → scheduled opts (settleMain r s).
Proof.
  intros [H1 H2 H3 H4]. constructor; simpl; try done.
  - apply NoDup_nil_2.
  - lia.
Qed.

Lemma mainLoop_scheduled opts rest s :
  atLoopHead opts rest s → scheduled opts (mainLoop opts rest s).
Proof.
  revert s. induction rest as [|i rest IH]; intros s (Hnd & Hrest & Hun & Hiff & Hlen & Hroom).
  - simpl. unfold awaitAll. constructor; unfold inFlightCount in *; simpl; try done; lia.
  - cbn [mainLoop]. destruct (checkCancelled (world s)).
    { constructor; unfold inFlightCount in *; simpl; try done; [apply NoDup_nil_2|lia..]. }
    apply NoDup_cons in Hrest as [Hi Hrest].
    assert (Hti : tasks s !! i = Some Unsubmitted) by (apply Hun, list_elem_of_here).
    assert (Hnot : i ∉ executing s).
    { intros (t & Ht & Hf)%Hiff. by simplify_eq. }
    assert (Hnd1 : NoDup (executing (submit i s))).
    { simpl. apply NoDup_app. split_and!; [done| |apply NoDup_singleton].
      intros j Hj ->%list_elem_of_singleton. done. }
    assert (Hcount1 : inFlightCount (submit i s) = S (inFlightCount s)).
    { unfold inFlightCount. simpl.
      pose proof (countb_insert inFlight _ _ _ AwaitChunk Hti) as Hc. simpl in Hc. lia. }
    assert (Hlen1 : length (executing (submit i s)) = S (length (executing s))).
    { simpl. rewrite length_app. simpl. lia. }
    assert (Hun1 : ∀ j, j ∈ rest → tasks (submit i s) !! j = Some Unsubmitted).
    { intros j Hj. simpl. rewrite list_lookup_insert_ne.
      - apply Hun. by apply list_elem_of_further.
      - by intros ->. }
    assert (Hiff1 : ∀ j, j ∈ executing (submit i s)
                      ↔ ∃ t, tasks (submit i s) !! j = Some t ∧ inFlight t = true).
    { intros j. simpl. rewrite elem_of_app, list_elem_of_singleton.
      destruct (decide (j = i)) as [->|Hne].
      - rewrite list_lookup_insert_eq by (by eapply lookup_lt_Some).
        split; [by exists AwaitChunk|by right].
      - rewrite list_lookup_insert_ne by done. rewrite Hiff.
        split; [by intros [?|?]|by left]. }
    assert (Hb1 : (Z.of_nat (inFlightCount (submit i s)) ≤ concurrencyOf opts)%Z) by lia.
    assert (Hb2 : (Z.of_nat (length (executing (submit i s))) ≤ concurrencyOf opts)%Z) by lia.
    assert (Heq1 : length (executing (submit i s)) = inFlightCount (submit i s)) by lia.
    case_bool_decide as Hfull.
    + constructor; [exact Hnd1|exact Hb1|exact Hb2|].
      intros rest' members' winner' [= <- <- <-]. split_and!; try done.
    + apply IH. split_and!; try done; lia.
Qed.

Lemma processChunks_scheduled opts n t0 :
  (1 ≤ concurrencyOf opts)%Z → scheduled opts (processChunks opts n t0).
Proof.
  intros HC. apply mainLoop_scheduled. unfold atLoopHead. simpl. split_and!.
  - apply NoDup_nil_2.
  - apply NoDup_seq.
  - intros i Hi%elem_of_seq. apply lookup_replicate_2. lia.
  - intros i. split; [by intros ?%elem_of_nil|].
    intros (t & [-> _]%lookup_replicate & Hf). done.
  - unfold inFlightCount. simpl. by rewrite countb_replicate_false.
  - lia.
Qed.

(** A task moves on and stays in flight. *)
Lemma scheduled_task_moves opts s s' i t t' :
  tasks s !! i = Some t → inFlight t = true → inFlight t' = true →
  tasks s' = <[i := t']> (tasks s) → executing s' = executing s → main s' = main s →
  scheduled opts s → scheduled opts s'.
Proof.
  intros Hi Ht Ht' Htasks Hexec Hmain [H1 H2 H3 H4].
  assert (Hcount : inFlightCount s' = inFlightCount s).
  { unfold inFlightCount. rewrite Htasks.
    pose proof (countb_insert inFlight _ _ _ t' Hi) as Hc. rewrite Ht, Ht' in Hc. lia. }
  constructor; rewrite ?Hexec, ?Hcount, ?Hmain; try done.
  intros rest members winner Hm.
  destruct (H4 _ _ _ Hm) as (Hrest & Hun & Hiff & Hlen & Hmem & Hroom & Hfull).
  split_and!; try done.
  - intros j Hj. rewrite Htasks, list_lookup_insert_ne; [by apply Hun|].
    intros ->. apply Hun in Hj. rewrite Hi in Hj. by simplify_eq.
  - intros j. rewrite Hiff, Htasks. destruct (decide (j = i)) as [->|Hne].
    + rewrite list_lookup_insert_eq by (by eapply lookup_lt_Some).
      split; [by exists t'|by exists t].
    + by rewrite list_lookup_insert_ne.
Qed.

Lemma scheduled_same opts s s' :
  tasks s' = tasks s → executing s' = executing s → main s' = main s →
  scheduled opts s → scheduled opts s'.
Proof.
  intros Htasks Hexec Hmain [H1 H2 H3 H4].
  unfold inFlightCount in *. constructor; unfold inFlightCount;
    rewrite ?Hexec, ?Htasks, ?Hmain; done.
Qed.

Lemma notify_race i r m rest members winner :
  notify i r m = AwaitRace rest members winner →
  ∃ winner0, m = AwaitRace rest members winner0 ∧
             (winner = None → winner0 = None ∧ i ∉ members).
Proof.
  destruct m as [rest0 members0 [w|]|waiting [w|]|r0]; simpl.
  - intros [= -> -> <-]. exists (Some w). split; [done|]. by intros [=].
  - case_bool_decide; intros [= -> -> <-]; exists None; (split; [done|]).
    + by intros [=].
    + done.
  - by intros [=].
  - case_bool_decide; [destruct r|]; by intros [=].
  - by intros [=].
Qed.

Lemma inFlight_taskOfPc pc : inFlight (taskOfPc pc) = true.
Proof. by destruct pc. Qed.

(** Case analysis on a step of a run: one goal for each way the step can be
    taken, with the equations of the calls it makes named [Hx] and [Hap]. *)
Ltac inv_step Hs Ht Hx Hap :=
  match type of Hs with
  | step ?opts ?s ?ev = Some _ =>
      destruct ev as [i r|i|i r thrown|i| |h|dt| | |]; cbn [step] in Hs;
      [ destruct (tasks s !! i) as [[| |?|?|?]|] eqn:Ht; try done;
        destruct r as [c|e];
        try match type of Hs with
            | context [executeWithRetry (world s)] =>
                destruct (executeWithRetry (world s)) as [? ?] eqn:Hx
            end
      | destruct (tasks s !! i) as [[| |?|?|?]|] eqn:Ht; try done;
        destruct (resumeRetry _ (world s)) as [[? ?]|] eqn:Hx; cbn in Hs; try done
      | destruct (tasks s !! i) as [[| |?|?|?]|] eqn:Ht; try done;
        destruct (callsFn _) eqn:Hcalls; try done;
        destruct (afterProcessor opts r thrown s) as [[? ?]|] eqn:Hap; cbn in Hs; try done;
        destruct (settleFn _ _ _) as [[? ?]|] eqn:Hx; cbn in Hs; try done
      | destruct (tasks s !! i) as [[| |?|?|?]|] eqn:Ht; try done
      | destruct (main s) as [? ? [[|?]|]|? [[|?]|]|?] eqn:Ht; try done;
        try match type of Hs with
            | context [checkCancelled (world s)] =>
                destruct (checkCancelled (world s)) eqn:Hx
            end
      | destruct (fireTimeout h (world s)) as [?|] eqn:Hx; cbn in Hs; try done
      | destruct (elapse dt (world s)) as [?|] eqn:Hx; cbn in Hs; try done
      | | | ]; simplify_eq
  end.

Lemma afterProcessor_same opts r thrown s r' s1 :
  afterProcessor opts r thrown s = Some (r', s1) →
  tasks s1 = tasks s ∧ executing s1 = executing s ∧ main s1 = main s ∧
  world s1 = world s ∧ invoked s1 = invoked s.
Proof.
  unfold afterProcessor. destruct r; destruct thrown; try destruct (onProgress opts);
    intros; simplify_eq; done.
Qed.

Lemma step_scheduled opts s ev s' :
  scheduled opts s → step opts s ev = Some s' → scheduled opts s'.
Proof.
  intros Hsch Hs. inv_step Hs Ht Hx Hap.
  - eapply (scheduled_task_moves _ s _ i AwaitChunk);
      try done; try reflexivity. apply inFlight_taskOfPc.
  - eapply (scheduled_task_moves _ s _ i AwaitChunk); try done; reflexivity.
  - match goal with |- context [callsFn ?pc] => destruct (callsFn pc) end;
      (eapply (scheduled_task_moves _ s _ i (InRetry _));
       try done; try reflexivity; apply inFlight_taskOfPc).
  - apply afterProcessor_same in Hap as (Ht1 & He1 & Hm1 & _).
    eapply (scheduled_task_moves _ s _ i (InRetry _)); try done; try reflexivity.
    + apply inFlight_taskOfPc.
    + simpl. by rewrite Ht1.
  - destruct Hsch as [H1 H2 H3 H4].
    assert (Hcount : S (countb inFlight (<[i:=Finalized r]> (tasks s))) = inFlightCount s).
    { unfold inFlightCount.
      pose proof (countb_insert inFlight _ _ _ (Finalized r) Ht) as Hc. simpl in Hc. lia. }
    pose proof (length_filter (λ j, j ≠ i) (executing s)) as Hle.
    constructor; unfold inFlightCount; simpl.
    + by apply NoDup_filter.
    + lia.
    + lia.
    + intros rest members winner Hm. apply notify_race in Hm as (winner0 & Hm & Hnone).
      destruct (H4 _ _ _ Hm) as (Hrest & Hun & Hiff & Hlen & Hmem & Hroom & Hfull).
      assert (Hin : i ∈ executing s) by (apply Hiff; by exists (Settling r)).
      pose proof (length_filter_remove _ _ H1 Hin) as Hrem.
      split_and!; try done.
      * intros j Hj. rewrite list_lookup_insert_ne; [by apply Hun|].
        intros ->. apply Hun in Hj. rewrite Ht in Hj. by simplify_eq.
      * intros j. rewrite list_elem_of_filter, Hiff.
        destruct (decide (j = i)) as [->|Hne].
        -- rewrite list_lookup_insert_eq by (by eapply lookup_lt_Some).
           split; [by intros [? _]|]. intros (t & Ht' & Hf). by simplify_eq.
        -- rewrite list_lookup_insert_ne by done. split; [by intros [_ ?]|done].
      * lia.
      * intros j [_ Hj]%list_elem_of_filter. by apply Hmem.
      * intros _. lia.
      * intros [_ Hnot]%Hnone. destruct Hnot. by apply Hmem.
  - by apply scheduled_settleMain.
  - apply mainLoop_scheduled. destruct Hsch as [H1 H2 H3 H4].
    destruct (H4 _ _ _ Ht) as (Hrest & Hun & Hiff & Hlen & Hmem & Hroom & _).
    unfold atLoopHead. split_and!; try done. by apply Hroom.
  - by apply scheduled_settleMain.
  - by apply scheduled_settleMain.
  - by apply scheduled_settleMain.
  - by apply (scheduled_same opts s).
  - by apply (scheduled_same opts s).
  - by apply (scheduled_same opts s).
  - by apply (scheduled_same opts s).
  - by apply (scheduled_same opts s).
Qed.

Lemma run_scheduled opts evs s s' :
  scheduled opts s → run opts s evs = Some s' → scheduled opts s'.
Proof.
  revert s. induction evs as [|ev evs IH]; simpl; intros s Hsch Hrun; [by simplify_eq|].
  destruct (step opts s ev) as [s1|] eqn:Hs; [|done]. simpl in Hrun.
  eauto using step_scheduled.
Qed.

(** While the race is undecided, the main function stays where it is, and the
    only thing that decides the race is the finally callback of a member. *)
Lemma step_while_racing opts s ev s' rest members :
  main s = AwaitRace rest members None → step opts s ev = Some s' →
  main s' = main s
  ∨ ∃ i r, ev = FinallyRuns i ∧ i ∈ members ∧ tasks s !! i = Some (Settling r) ∧
           main s' = AwaitRace rest members (Some r).
Proof.
  intros Hm Hs. inv_step Hs Ht Hx Hap; try (by left).
  - left. match goal with |- context [callsFn ?pc] => by destruct (callsFn pc) end.
  - left. apply afterProcessor_same in Hap as (_ & _ & Hm1 & _). done.
  - simpl. rewrite Hm. simpl. case_bool_decide; [|by left].
    right. by exists i, r.
Qed.

(** C5: with a concurrency of at least 1, at every moment of every run at
    most [concurrency] tasks have been submitted without their promise in
    [executing] having settled, and [executing] holds at most [concurrency]
    promises.  Whenever the main function waits on an undecided
    [Promise.race], the set is exactly the raced promises and is full; until
    the finally callback of one of them has run, every step leaves the main
    function waiting and the sources still to come unsubmitted. *)
Theorem in_flight_bounded_by_concurrency (opts : ProcessOptions) (n : nat) (t0 : Z)
    (evs : list Event) (s : Run) :
  (1 ≤ concurrencyOf opts)%Z →
  run opts (processChunks opts n t0) evs = Some s →
  (Z.of_nat (inFlightCount s) ≤ concurrencyOf opts)%Z ∧
  (Z.of_nat (length (executing s)) ≤ concurrencyOf opts)%Z ∧
  ∀ rest members,
    main s = AwaitRace rest members None →
    executing s = members ∧
    Z.of_nat (length (executing s)) = concurrencyOf opts ∧
    ∀ ev s',
      step opts s ev = Some s' →
      (∀ i, i ∈ rest → tasks s' !! i = Some Unsubmitted) ∧
      (main s' = main s
       ∨ ∃ i r, ev = FinallyRuns i ∧ i ∈ members ∧ tasks s !! i = Some (Settling r) ∧
                main s' = AwaitRace rest members (Some r)).
Proof.
  intros HC Hrun.
  pose proof (run_scheduled _ _ _ _ (processChunks_scheduled opts n t0 HC) Hrun) as Hsch.
  pose proof Hsch as [H1 H2 H3 H4].
  split_and!; [done|done|].
  intros rest members Hm.
  destruct (H4 _ _ _ Hm) as (_ & _ & _ & _ & _ & _ & Hfull).
  destruct (Hfull eq_refl) as [Hex Hge].
  split_and!; [done|lia|].
  intros ev s' Hs.
  pose proof (step_while_racing _ _ _ _ _ _ Hm Hs) as Hmain.
  split; [|done].
  pose proof (step_scheduled _ _ _ _ Hsch Hs) as [_ _ _ H4'].
  destruct Hmain as [Hsame|(i & r & _ & _ & _ & Hm')].
  - rewrite Hm in Hsame. by destruct (H4' _ _ _ Hsame) as (_ & Hun & _).
  - by destruct (H4' _ _ _ Hm') as (_ & Hun & _).
Qed.

Lemma in_flight_bounded_by_concurrency_witness :
  let opts := {| concurrency := Some 2%Z; onProgress := true |} in
  let c := {| blob := "x"; hash := "h"; index := 0; start := 0; end_ := 1 |} in
  let evs := [ChunkSettles 1 (Fulfilled c); TaskResumes 1;
              ProcessorSettles 1 (Fulfilled ()) None; FinallyRuns 1; MainResumes;
              ChunkSettles 0 (Fulfilled c); UserPause; ChunkSettles 2 (Fulfilled c)] in
  ∃ s, run opts (processChunks opts 5 0) evs = Some s ∧
       (Z.of_nat (inFlightCount s) ≤ 2)%Z ∧ (Z.of_nat (length (executing s)) ≤ 2)%Z.
Proof.
  intros opts c evs.
  assert (H0 : is_Some (run opts (processChunks opts 5 0) evs)) by (vm_compute; eauto).
  destruct H0 as [s Hs]. exists s. split; [exact Hs|].
  assert (HC : (1 ≤ concurrencyOf opts)%Z) by (vm_compute; discriminate).
  destruct (in_flight_bounded_by_concurrency opts 5 0 evs s HC Hs) as (H1 & H2 & _).
  split; [exact H1|exact H2].
Defined.

(** ** After a cancel *)

Lemma cancelled_cleanup w : cancelled (ctl (cleanup w)) = cancelled (ctl w).
Proof. done. Qed.

Lemma cancelled_loopHead {T} retry w :
  cancelled (ctl (loopHead (T:=T) retry w).1) = cancelled (ctl w).
Proof.
  unfold loopHead. destruct (checkCancelled w); [done|].
  pose proof (cancelled_waitIfPaused w). by destruct (waitIfPaused w).
Qed.

Lemma resumeRetry_cancelled {T} (pc pc' : Pc T) w w' :
  resumeRetry pc w = Some (w', pc') →
  cancelled (ctl w') = cancelled (ctl w) ∧
  (cancelled (ctl w) = true → pc' = Threw TaskCancelled) ∧
  (∀ e, pc' = Threw e → e = TaskCancelled).
Proof.
  unfold resumeRetry. destruct (canResume pc w); [|done].
  destruct pc as [retry p|retry|retry p|v|e]; try done.
  - intros [= <- <-]. unfold afterWait, checkCancelled.
    destruct (cancelled (ctl w)); split_and!; try done.
    by intros e [= <-].
  - intros [= H]. pose proof (cancelled_loopHead (T:=T) retry w) as Hc. rewrite H in Hc.
    split; [done|]. unfold loopHead, checkCancelled in H.
    destruct (cancelled (ctl w)) eqn:Hcw.
    + simplify_eq. split; [done|]. by intros e [= <-].
    + destruct (waitIfPaused w). by simplify_eq.
Qed.

Lemma executeWithRetry_threw {T} w w' (pc : Pc T) :
  executeWithRetry w = (w', pc) →
  cancelled (ctl w') = cancelled (ctl w) ∧ callsFn pc = false ∧
  (∀ e, pc = Threw e → e = TaskCancelled).
Proof.
  unfold executeWithRetry. intros H.
  pose proof (cancelled_loopHead (T:=T) 0 w) as Hc. rewrite H in Hc.
  split; [done|]. unfold loopHead, checkCancelled in H.
  destruct (cancelled (ctl w)).
  - simplify_eq. split; [done|]. by intros e [= <-].
  - destruct (waitIfPaused w). by simplify_eq.
Qed.

Lemma settleFn_cancelled {T} r (pc pc' : Pc T) w w' :
  settleFn r pc w = Some (w', pc') →
  cancelled (ctl w') = cancelled (ctl w) ∧ callsFn pc' = false ∧ (∀ e, pc' ≠ Threw e).
Proof.
  unfold settleFn, delay. destruct pc; try done. destruct r; intros; by simplify_eq.
Qed.




Lemma submitted_insert (l : list Task) i t t' :
  l !! i = Some t → submitted t = true → submitted t' = true →
  submitted <$> <[i := t']> l = submitted <$> l.
Proof.
  intros Hi Ht Ht'. rewrite list_fmap_insert, Ht'. apply list_insert_id.
  by rewrite list_lookup_fmap, Hi, <- Ht.
Qed.

Lemma submitted_taskOfPc pc : submitted (taskOfPc pc) = true.
Proof. by destruct pc. Qed.

(** Once [cancelled] is set, a step submits no source and calls no
    processor. *)
Lemma step_after_cancel opts s ev s' :
  cancelled (ctl (world s)) = true → step opts s ev = Some s' →
  submitted <$> tasks s' = submitted <$> tasks s ∧ invoked s' = invoked s.
Proof.
  intros Hc Hs. inv_step Hs Ht Hx Hap; simpl; try done.
  - split; [|done]. eapply submitted_insert; [done|done|apply submitted_taskOfPc].
  - split; [|done]. by eapply submitted_insert.
  - apply resumeRetry_cancelled in Hx as (_ & Hthrew & _).
    rewrite (Hthrew Hc). simpl. split; [|done]. by eapply submitted_insert.
  - apply afterProcessor_same in Hap as (Ht1 & _ & _ & _ & Hi1).
    rewrite Ht1, Hi1. split; [|done].
    eapply submitted_insert; [done|done|apply submitted_taskOfPc].
  - split; [|done]. by eapply submitted_insert.
  - unfold checkCancelled in Hx. by rewrite Hc in Hx.
Qed.


Lemma step_done opts s ev s' res :
  main s = Done res → step opts s ev = Some s' → main s' = Done res.
Proof.
  intros Hm Hs. inv_step Hs Ht Hx Hap; simpl; try done.
  - match goal with |- context [callsFn ?pc] => by destruct (callsFn pc) end.
  - apply afterProcessor_same in Hap as (_ & _ & Hm1 & _). congruence.
  - by rewrite Hm.
Qed.



(** *** Where rejections come from *)











(** ** The progress counter *)

Lemma mainLoop_counted opts n rest s :
  length (tasks s) = n →
  completed s = countb succeeded (tasks s) →
  progress s = (if onProgress opts then progressCalls n (completed s) else []) →
  NoDup rest → (∀ i, i ∈ rest → tasks s !! i = Some Unsubmitted) →
  counted opts n (mainLoop opts rest s).
Proof.
  revert s. induction rest as [|i rest IH]; intros s Hlen Hcount Hprog Hnd Hun.
  - by constructor.
  - cbn [mainLoop]. destruct (checkCancelled (world s)); [by constructor|].
    apply NoDup_cons in Hnd as [Hi Hnd].
    assert (Hti : tasks s !! i = Some Unsubmitted) by (apply Hun, list_elem_of_here).
    assert (Hun1 : ∀ j, j ∈ rest → tasks (submit i s) !! j = Some Unsubmitted).
    { intros j Hj. simpl. rewrite list_lookup_insert_ne.
      - apply Hun. by apply list_elem_of_further.
      - by intros ->. }
    assert (Hcount1 : completed (submit i s) = countb succeeded (tasks (submit i s))).
    { simpl. pose proof (countb_insert succeeded _ _ _ AwaitChunk Hti) as Hc.
      simpl in Hc. lia. }
    assert (Hlen1 : length (tasks (submit i s)) = n) by (simpl; by rewrite length_insert).
    case_bool_decide.
    + constructor; try done. by intros rest' members' winner' [= <- <- <-].
    + by apply IH.
Qed.

Lemma processChunks_counted opts n t0 : counted opts n (processChunks opts n t0).
Proof.
  apply mainLoop_counted; simpl.
  - apply length_replicate.
  - by rewrite countb_replicate_false.
  - by destruct (onProgress opts).
  - apply NoDup_seq.
  - intros i Hi%elem_of_seq. apply lookup_replicate_2. lia.
Qed.

(** A task moves on without its closure having ended. *)
Lemma counted_task_moves opts n s s' i t t' :
  tasks s !! i = Some t → succeeded t = false → inFlight t = true → succeeded t' = false →
  tasks s' = <[i := t']> (tasks s) → completed s' = completed s →
  progress s' = progress s → main s' = main s →
  counted opts n s → counted opts n s'.
Proof.
  intros Hi Ht Hfl Ht' Htasks Hcomp Hprog Hmain [H1 H2 H3 H4].
  constructor; rewrite ?Htasks, ?Hcomp, ?Hprog, ?Hmain.
  - by rewrite length_insert.
  - pose proof (countb_insert succeeded _ _ _ t' Hi) as Hc. rewrite Ht, Ht' in Hc. lia.
  - done.
  - intros rest members winner Hm. destruct (H4 _ _ _ Hm) as [Hnd Hun]. split; [done|].
    intros j Hj. rewrite list_lookup_insert_ne; [by apply Hun|].
    intros ->. apply Hun in Hj. rewrite Hi in Hj. by simplify_eq.
Qed.

Lemma succeeded_taskOfPc (pc : Pc unit) :
  (∀ v, pc ≠ Returned v) → succeeded (taskOfPc pc) = false.
Proof. destruct pc as [| | |v|e]; try done. intros H. by destruct (H v). Qed.

Lemma executeWithRetry_not_returned {T} w w' (pc : Pc T) v :
  executeWithRetry w = (w', pc) → pc ≠ Returned v.
Proof.
  unfold executeWithRetry, loopHead. destruct (checkCancelled w); [by intros [= <- <-]|].
  destruct (waitIfPaused w). by intros [= <- <-].
Qed.

Lemma resumeRetry_not_returned {T} (pc pc' : Pc T) w w' v :
  resumeRetry pc w = Some (w', pc') → pc' ≠ Returned v.
Proof.
  unfold resumeRetry. destruct (canResume pc w); [|done].
  destruct pc as [retry p|retry|retry p|v0|e]; try done.
  - intros [= <- <-]. unfold afterWait. by destruct (checkCancelled w).
  - intros [= H]. unfold loopHead in H. destruct (checkCancelled w); [by simplify_eq|].
    destruct (waitIfPaused w). by simplify_eq.
Qed.

Lemma progressCalls_S n k : progressCalls n (S k) = progressCalls n k ++ [(S k, n)].
Proof. unfold progressCalls. by rewrite seq_S, fmap_app. Qed.

Lemma counted_same opts n s s' :
  tasks s' = tasks s → completed s' = completed s → progress s' = progress s →
  main s' = main s → counted opts n s → counted opts n s'.
Proof.
  intros Htasks Hcomp Hprog Hmain [H1 H2 H3 H4].
  constructor; rewrite ?Htasks, ?Hcomp, ?Hprog, ?Hmain; done.
Qed.

Lemma step_counted opts n s ev s' :
  progressReturns ev = true →
  counted opts n s → step opts s ev = Some s' → counted opts n s'.
Proof.
  intros Hev Hcnt Hs. inv_step Hs Ht Hx Hap.
  - eapply (counted_task_moves _ _ s _ i AwaitChunk); try done; try reflexivity.
    apply succeeded_taskOfPc. intros v. by eapply executeWithRetry_not_returned.
  - eapply (counted_task_moves _ _ s _ i AwaitChunk); try done; reflexivity.
  - match goal with |- context [callsFn ?pc] => destruct (callsFn pc) end;
      (eapply (counted_task_moves _ _ s _ i (InRetry _)); try done; try reflexivity;
       apply succeeded_taskOfPc; intros v; by eapply resumeRetry_not_returned).
  - destruct thrown; [done|].
    match goal with H : callsFn ?pc = true |- _ => destruct pc; try done end.
    destruct r as [v|e]; cbn in Hap; injection Hap as <- <-;
      cbn in Hx; injection Hx as <- <-.
    + destruct Hcnt as [H1 H2 H3 H4]. constructor; simpl.
      * by rewrite length_insert.
      * pose proof (countb_insert succeeded _ _ _ (Settling (Fulfilled ())) Ht) as Hc.
        simpl in Hc. lia.
      * rewrite H3. destruct (onProgress opts); [|done].
        by rewrite progressCalls_S, H1.
      * intros rest members winner Hm. destruct (H4 _ _ _ Hm) as [Hnd Hun]. split; [done|].
        intros j Hj. rewrite list_lookup_insert_ne; [by apply Hun|].
        intros ->. apply Hun in Hj. rewrite Ht in Hj. by simplify_eq.
    + eapply (counted_task_moves _ _ s _ i (InRetry _)); try done; reflexivity.
  - destruct Hcnt as [H1 H2 H3 H4]. constructor; simpl.
    + by rewrite length_insert.
    + pose proof (countb_insert succeeded _ _ _ (Finalized r) Ht) as Hc.
      simpl in Hc. destruct r; simpl in Hc; lia.
    + done.
    + intros rest members winner Hm. apply notify_race in Hm as (winner0 & Hm & _).
      destruct (H4 _ _ _ Hm) as [Hnd Hun]. split; [done|].
      intros j Hj. rewrite list_lookup_insert_ne; [by apply Hun|].
      intros ->. apply Hun in Hj. rewrite Ht in Hj. by simplify_eq.
  - destruct Hcnt as [H1 H2 H3 H4]. by constructor.
  - destruct Hcnt as [H1 H2 H3 H4]. destruct (H4 _ _ _ Ht) as [Hnd Hun].
    by apply mainLoop_counted.
  - destruct Hcnt as [H1 H2 H3 H4]. by constructor.
  - destruct Hcnt as [H1 H2 H3 H4]. by constructor.
  - destruct Hcnt as [H1 H2 H3 H4]. by constructor.
  - by apply (counted_same opts n s).
  - by apply (counted_same opts n s).
  - by apply (counted_same opts n s).
  - by apply (counted_same opts n s).
  - by apply (counted_same opts n s).
Qed.

Lemma run_counted opts n evs s s' :
  forallb progressReturns evs = true →
  counted opts n s → run opts s evs = Some s' → counted opts n s'.
Proof.
  revert s. induction evs as [|ev evs IH]; simpl; intros s Hev Hcnt Hrun; [by simplify_eq|].
  apply andb_prop in Hev as [Hev1 Hev2].
  destruct (step opts s ev) as [s1|] eqn:Hs; [|done]. simpl in Hrun.
  eauto using step_counted.
Qed.

Lemma completed_mainLoop opts rest s : completed (mainLoop opts rest s) = completed s.
Proof.
  revert s. induction rest as [|i rest IH]; intros s; [done|].
  cbn [mainLoop]. destruct (checkCancelled (world s)); [done|].
  case_bool_decide; [done|]. by rewrite IH.
Qed.

Lemma countb_all {A} (f : A → bool) l : Forall (λ x, f x = true) l → countb f l = length l.
Proof.
  induction 1 as [|x l Hx _ IH]; [done|]. rewrite countb_cons, Hx, IH. done.
Qed.

(** X22: the counter in runs in which every [onProgress] call returns: it is the
    number of chunks whose closure has run to its end, so at most the number
    of chunks; [onProgress] has been called with (1, N), (2, N), ... up to the
    counter; a step changes the counter only when a processor call succeeds,
    by one, and that task's closure has then ended for good; and when the
    closures of all chunks have ended the counter is N. *)
Theorem progress_counter_when_onProgress_returns (opts : ProcessOptions) (n : nat) (t0 : Z)
    (evs : list Event) (s : Run) :
  forallb progressReturns evs = true →
  run opts (processChunks opts n t0) evs = Some s →
  length (tasks s) = n ∧
  completed s = countb succeeded (tasks s) ∧
  completed s ≤ n ∧
  progress s = (if onProgress opts then progressCalls n (completed s) else []) ∧
  (Forall (λ t, succeeded t = true) (tasks s) → completed s = n) ∧
  (∀ ev s', progressReturns ev = true → step opts s ev = Some s' →
     completed s' = completed s
     ∨ ∃ i pc, ev = ProcessorSettles i (Fulfilled ()) None ∧ tasks s !! i = Some (InRetry pc) ∧
               tasks s' !! i = Some (Settling (Fulfilled ())) ∧
               completed s' = S (completed s)).
Proof.
  intros Hev Hrun.
  pose proof (run_counted _ _ _ _ _ Hev (processChunks_counted opts n t0) Hrun) as Hcnt.
  pose proof Hcnt as [H1 H2 H3 H4].
  split_and!; try done.
  - rewrite H2, <- H1. apply countb_le_length.
  - intros Hall. by rewrite H2, countb_all.
  - intros ev s' Hev1 Hs. inv_step Hs Ht Hx Hap; try (by left).
    + left. match goal with |- context [callsFn ?pc] => by destruct (callsFn pc) end.
    + destruct thrown; [done|].
      match goal with H : callsFn ?pc = true |- _ => destruct pc; try done end.
      destruct r as [[]|e]; cbn in Hap; injection Hap as <- <-;
        cbn in Hx; injection Hx as <- <-; [|by left].
      right. exists i, (AwaitFn retry). split_and!; try done.
      simpl. apply list_lookup_insert_eq. by eapply lookup_lt_Some.
    + left. apply completed_mainLoop.
Qed.

Lemma progress_counter_when_onProgress_returns_witness :
  let opts := {| concurrency := Some 2%Z; onProgress := true |} in
  let c := {| blob := "x"; hash := "h"; index := 0; start := 0; end_ := 1 |} in
  let evs := [ChunkSettles 0 (Fulfilled c); ChunkSettles 1 (Fulfilled c);
              TaskResumes 1; TaskResumes 0;
              ProcessorSettles 1 (Fulfilled ()) None;
              ProcessorSettles 0 (Rejected (Failure 3)) None;
              FinallyRuns 1; TimeoutFires 1; TaskResumes 0; TaskResumes 0;
              ProcessorSettles 0 (Fulfilled ()) None; FinallyRuns 0; MainResumes;
              MainResumes] in
  ∃ s, run opts (processChunks opts 2 0) evs = Some s ∧
       completed s = 2 ∧ progress s = [(1, 2); (2, 2)] ∧ main s = Done (Fulfilled ()).
Proof.
  intros opts c evs.
  assert (H : ∃ s, run opts (processChunks opts 2 0) evs = Some s ∧
                   Forall (λ t, succeeded t = true) (tasks s) ∧
                   main s = Done (Fulfilled ())).
  { eexists. split; [vm_compute; reflexivity|]. split; [|vm_compute; reflexivity].
    repeat constructor. }
  destruct H as (s & Hs & Hall & Hm). exists s. split; [exact Hs|].
  destruct (progress_counter_when_onProgress_returns opts 2 0 evs s eq_refl Hs)
    as (_ & _ & _ & Hp & Hn & _).
  rewrite Hp, (Hn Hall). split_and!; [done|reflexivity|done].
Defined.

(** C2 fails on the code when [onProgress] throws: the increment is inside
    the closure that [executeWithRetry] retries, before the [onProgress] call,
    so the throw makes the attempt count as failed after the counter has
    been incremented, and the retry increments it again.  Here one chunk is
    processed with an [onProgress] that throws on its first call: the run is
    fulfilled with [completed = 2] for [total = 1], after two processor calls
    and the onProgress calls (1, 1) and (2, 1). *)
Theorem throwing_onProgress_counts_chunk_twice :
  let opts := {| concurrency := None; onProgress := true |} in
  let c := {| blob := "x"; hash := "h"; index := 0; start := 0; end_ := 1 |} in
  let evs := [ChunkSettles 0 (Fulfilled c); TaskResumes 0;
              ProcessorSettles 0 (Fulfilled ()) (Some (Failure 1));
              TimeoutFires 1; TaskResumes 0; TaskResumes 0;
              ProcessorSettles 0 (Fulfilled ()) None; FinallyRuns 0; MainResumes] in
  ∃ s, run opts (processChunks opts 1 0) evs = Some s ∧
       main s = Done (Fulfilled ()) ∧
       length (tasks s) = 1 ∧ completed s = 2 ∧
       progress s = [(1, 1); (2, 1)] ∧
       invoked s = [(0, 0); (0, 0)] ∧
       sleepLog (host (world s)) = [0%Z].
Proof.
  intros opts c evs. eexists. split; [vm_compute; reflexivity|].
  split_and!; vm_compute; reflexivity.
Qed.

(** ** resume *)

(** A step calls the processor only when a task continues after
    [waitIfPaused], and passes it the signal of the controller held then. *)
Lemma step_invoked opts s ev s' :
  step opts s ev = Some s' →
  invoked s' = invoked s
  ∨ ∃ i, ev = TaskResumes i ∧ world s' = world s ∧
         invoked s' = invoked s ++ [(i, signal (world s))].
Proof.
  intros Hs. inv_step Hs Ht Hx Hap; try (by left).
  - unfold resumeRetry in Hx. destruct (canResume _ _); [|done].
    match goal with H : tasks s !! i = Some (InRetry ?pc) |- _ => destruct pc end;
      try done.
    + injection Hx as <- <-. destruct (callsFn _); [right|by left]. by exists i.
    + injection Hx as Hx. unfold loopHead in Hx.
      destruct (checkCancelled (world s)); [simplify_eq; by left|].
      destruct (waitIfPaused (world s)). simplify_eq. by left.
  - left. apply afterProcessor_same in Hap as (_ & _ & _ & _ & Hi). done.
  - left. clear. revert s. induction rest as [|i rest IH]; intros s; [done|].
    cbn [mainLoop]. destruct (checkCancelled (world s)); [done|].
    case_bool_decide; [done|]. by rewrite IH.
Qed.

(** C6: [resume()] changes nothing when the controller is not paused.  When
    it is paused, the call clears the flag, leaves [cancelled] alone, stores an
    abort controller that did not exist before and has not fired, leaves every
    older controller as it was (the one held before stays fired), and empties
    [pauseResolvers] after calling every resolver in it.  A processor call
    that [processChunks] starts in the world after the [resume()] is passed
    the new signal. *)
Theorem resume_mints_fresh_handle (w : World) (Hw : reachable w) :
  (paused (ctl w) = false → resume w = w) ∧
  (paused (ctl w) = true →
     paused (ctl (resume w)) = false ∧
     cancelled (ctl (resume w)) = cancelled (ctl w) ∧
     signal (resume w) = length (aborted (host w)) ∧
     signalAborted (signal (resume w)) (resume w) = false ∧
     signalAborted (signal w) w = true ∧
     signalAborted (signal w) (resume w) = true ∧
     (∀ h, h < length (aborted (host w)) →
           signalAborted h (resume w) = signalAborted h w) ∧
     pauseResolvers (ctl (resume w)) = [] ∧
     (∀ p, p ∈ pauseResolvers (ctl w) → isResolved p (resume w) = true) ∧
     (∀ opts s ev s',
        world s = resume w → step opts s ev = Some s' →
        invoked s' = invoked s
        ∨ ∃ i, ev = TaskResumes i ∧ invoked s' = invoked s ++ [(i, signal (resume w))])).
Proof.
  apply reachable_wellFormed in Hw as [_ _ _ _ H5 H6].
  split; intros Hp; [unfold resume; by rewrite Hp|].
  assert (Hstep : ∀ opts s ev s',
            world s = resume w → step opts s ev = Some s' →
            invoked s' = invoked s
            ∨ ∃ i, ev = TaskResumes i ∧ invoked s' = invoked s ++ [(i, signal (resume w))]).
  { intros opts s ev s' Hw Hs.
    destruct (step_invoked _ _ _ _ Hs) as [?|(i & -> & _ & Hi)]; [by left|right].
    exists i. by rewrite <- Hw. }
  revert Hstep. unfold resume; rewrite Hp; simpl. intros Hstep.
  unfold signalAborted, signal, isResolved; simpl.
  split_and!; try done.
  - by rewrite lookup_app_r, Nat.sub_diag.
  - by rewrite H6.
  - by rewrite lookup_app_l, H6.
  - intros h Hh. by rewrite lookup_app_l.
  - intros p Hin. apply bool_decide_eq_true. apply elem_of_app. by right.
Qed.

Lemma resume_mints_fresh_handle_witness :
  let w := pause (waitIfPaused (pause (newTaskController 0))).1 in
  paused (ctl w) = true ∧
  signal w = 0 ∧ signal (resume w) = 1 ∧
  signalAborted 0 (resume w) = true ∧ signalAborted 1 (resume w) = false ∧
  pauseResolvers (ctl w) = [0] ∧ isResolved 0 (resume w) = true.
Proof.
  intros w.
  assert (Hw : reachable w) by (by exists 0%Z, [OpPause; OpWaitIfPaused; OpPause]).
  assert (Hp : paused (ctl w) = true) by reflexivity.
  destruct (resume_mints_fresh_handle w Hw) as [_ H].
  destruct (H Hp) as (_ & _ & H3 & H4 & _ & H6 & _ & _ & H9 & _).
  split_and!; [done|done|exact H3|exact H6|exact H4|done|].
  apply H9. by apply list_elem_of_singleton.
Defined.

(** ** The promises and timers a controller has registered *)

Lemma registered_new t0 : registered (newTaskController t0).
Proof. constructor; simpl; intros ? H; by apply elem_of_nil in H. Qed.

Lemma registered_waitIfPaused w :
  wellFormed w → registered w → registered (waitIfPaused w).1.
Proof.
  intros Hw Hr. unfold waitIfPaused.
  destruct (paused (ctl w)) eqn:Hp; simpl; [|done].
  destruct Hr as [R1 R2]. constructor; simpl.
  - intros t Ht. destruct (R1 t Ht) as [? ?]. split; [lia|done].
  - intros p [Hin|Hin]%elem_of_app.
    + destruct (R2 p Hin) as (_ & ? & ?). done.
    + apply list_elem_of_singleton in Hin as ->. split_and!; [done| |].
      * intros Hin%(wf_resolved _ Hw). lia.
      * intros (e & He & Hin)%list_elem_of_fmap.
        apply (wf_timers _ Hw) in Hin. lia.
Qed.

Lemma registered_delay ms w :
  wellFormed w → registered w → registered (delay ms w).1.
Proof.
  intros Hw [R1 R2]. constructor; simpl.
  - intros t [Ht|Ht]%elem_of_app.
    + destruct (R1 t Ht) as [? ?]. split; [lia|]. apply elem_of_app. by left.
    + apply list_elem_of_singleton in Ht as ->. simpl. split; [lia|].
      apply elem_of_app. right. by apply list_elem_of_singleton.
  - intros p Hin. destruct (R2 p Hin) as (? & ? & Hn). split_and!; [done|done|].
    rewrite fmap_app. intros [Hin'|Hin']%elem_of_app; [done|].
    apply list_elem_of_singleton in Hin'. simpl in Hin'.
    apply (wf_pauseResolvers _ Hw) in Hin. lia.
Qed.

(** [clearTimers()] leaves no timer armed. *)
Lemma clearTimers_disarms w :
  (∀ t, t ∈ timeouts (host w) →
        {| timer := handle t; resolve := callback t |} ∈ timers (ctl w)) →
  timeouts (host (clearTimers w)) = [].
Proof.
  intros R1. simpl. apply elem_of_nil_inv.
  intros t [Hn Ht]%list_elem_of_filter. apply Hn.
  apply list_elem_of_fmap. eexists. split; [|by apply R1]. done.
Qed.

Lemma registered_pause w : registered w → registered (pause w).
Proof.
  intros [R1 R2]. constructor.
  - unfold pause. rewrite clearTimers_disarms; [|intros t Ht; by apply R1].
    intros t Ht. by apply elem_of_nil in Ht.
  - simpl. intros p Hin. destruct (R2 p Hin) as (? & ? & ?).
    split_and!; [done| |apply not_elem_of_nil].
    by intros [?|?]%elem_of_app.
Qed.

Lemma registered_resume w : registered w → registered (resume w).
Proof.
  intros Hr. unfold resume.
  destruct (paused (ctl w)) eqn:Hp; simpl; [|done].
  destruct Hr as [R1 R2]. constructor.
  - pose proof (clearTimers_disarms (newAbortController (setPaused false w))) as Hd.
    simpl in Hd. simpl. rewrite Hd; [|intros t Ht; by apply R1].
    intros t Ht. by apply elem_of_nil in Ht.
  - simpl. intros p Hin. by apply elem_of_nil in Hin.
Qed.

Lemma registered_cancel w : registered w → registered (cancel w).
Proof.
  intros [R1 R2].
  pose proof (clearTimers_disarms (abort (setCancelled true w))) as Hd.
  simpl in Hd. unfold cancel. simpl.
  destruct (paused (ctl w)) eqn:Hp; constructor; simpl.
  - rewrite Hd; [|intros t Ht; by apply R1].
    intros t Ht. by apply elem_of_nil in Ht.
  - intros p Hin. by apply elem_of_nil in Hin.
  - rewrite Hd; [|intros t Ht; by apply R1].
    intros t Ht. by apply elem_of_nil in Ht.
  - intros p Hin. destruct (R2 p Hin) as (? & ? & ?). congruence.
Qed.

Lemma registered_cleanup w : registered w → registered (cleanup w).
Proof.
  intros [R1 R2].
  pose proof (clearTimers_disarms (dropPaused (setPaused false w))) as Hd.
  simpl in Hd. constructor; simpl.
  - rewrite Hd; [|intros t Ht; by apply R1].
    intros t Ht. by apply elem_of_nil in Ht.
  - intros p Hin. by apply elem_of_nil in Hin.
Qed.

Lemma registered_fireTimeout h w w' :
  fireTimeout h w = Some w' → registered w → registered w'.
Proof.
  intros (t & Ht & _ & _ & Hc & _ & Hto & Hr & Ha & Hn & _)%fireTimeout_Some [R1 R2].
  constructor; rewrite ?Hc, ?Hto, ?Hr, ?Ha, ?Hn.
  - intros t' [_ Ht']%list_elem_of_filter. by apply R1.
  - intros p Hin. destruct (R2 p Hin) as (? & ? & Hne). split_and!; [done| |done].
    intros [?|Heq]%elem_of_app; [done|].
    apply list_elem_of_singleton in Heq as ->. apply Hne.
    apply list_elem_of_fmap. eexists. split; [|by apply (R1 t)]. done.
Qed.

Lemma registered_elapse dt w w' :
  elapse dt w = Some w' → registered w → registered w'.
Proof.
  intros (_ & Hc & _ & Hto & Hr & Ha & Hn & _)%elapse_Some [R1 R2].
  constructor; rewrite ?Hc, ?Hto, ?Hr, ?Ha, ?Hn; done.
Qed.

Lemma registered_applyOp w op w' :
  applyOp w op = Some w' → wellFormed w → registered w → registered w'.
Proof.
  destruct op; intros H Hw Hr; unfold applyOp in H; simplify_eq;
    eauto using registered_waitIfPaused, registered_delay, registered_pause,
      registered_resume, registered_cancel, registered_cleanup,
      registered_fireTimeout, registered_elapse.
Qed.

Lemma registered_applyOps ops w w' :
  applyOps w ops = Some w' → wellFormed w → registered w → registered w'.
Proof.
  revert w. induction ops as [|op ops IH]; simpl; intros w H Hw Hr; [by simplify_eq|].
  destruct (applyOp w op) as [w1|] eqn:Hop; [|done]. simpl in H.
  eauto using registered_applyOp, wellFormed_applyOp.
Qed.

Lemma reachable_registered w : reachable w → registered w.
Proof.
  intros (t0 & ops & H).
  eauto using registered_applyOps, registered_new, wellFormed_new.
Qed.

Lemma filter_spares_all (l : list Timeout) :
  filter (λ t, handle t ∉ (timer <$> [])) l = l.
Proof.
  induction l as [|t l IH]; [done|].
  rewrite filter_cons_True by apply not_elem_of_nil. by rewrite IH.
Qed.

(** X1: calling [pause()], [resume()], [cancel()] or [cleanup()] a second
    time in a row changes nothing: neither the controller nor the host. *)
Theorem lifecycle_calls_idempotent (w : World) :
  pause (pause w) = pause w ∧ resume (resume w) = resume w ∧
  cancel (cancel w) = cancel w ∧ cleanup (cleanup w) = cleanup w.
Proof.
  split_and!.
  - unfold pause, clearTimers, abort, setPaused. simpl.
    rewrite filter_spares_all, app_nil_r, list_insert_insert_eq. done.
  - unfold resume. destruct (paused (ctl w)) eqn:Hp; simpl; [done|by rewrite Hp].
  - destruct w as [[pa ca prs ts ac] [cl tos res ab nid sl]].
    destruct pa; cbv [cancel clearTimers abort setCancelled releasePaused setPaused
                      ctl host paused cancelled pauseResolvers timers abortController
                      clock timeouts resolved aborted nextId sleepLog];
      rewrite filter_spares_all, app_nil_r, list_insert_insert_eq; done.
  - unfold cleanup, clearTimers, dropPaused, setPaused. simpl.
    rewrite filter_spares_all, app_nil_r. done.
Qed.

Lemma reachable_delay_witness : reachable (delay 100 (newTaskController 0)).1.
Proof. exists 0%Z, [OpDelay 100]. reflexivity. Qed.

(** X2: [pause()], [cancel()], [cleanup()], and [resume()] on a paused
    controller, leave no timer armed and the [timers] array empty, and every
    [delay] promise pending at the call is resolved by it. *)
Theorem lifecycle_calls_end_pending_delays (w w' : World) (Hw : reachable w)
    (Hcall : w' = pause w ∨ w' = cancel w ∨ w' = cleanup w
             ∨ (paused (ctl w) = true ∧ w' = resume w)) :
  timeouts (host w') = [] ∧ timers (ctl w') = [] ∧
  ∀ e, e ∈ timers (ctl w) → isResolved (resolve e) w' = true.
Proof.
  destruct (reachable_registered _ Hw) as [R1 _].
  assert (Ha : ∀ t, t ∈ timeouts (host w) →
                    {| timer := handle t; resolve := callback t |} ∈ timers (ctl w))
    by (intros t Ht; by apply R1).
  destruct Hcall as [->|[->|[->|[Hp ->]]]].
  - pose proof (clearTimers_disarms (abort (setPaused true w)) Ha) as Hd.
    split_and!; [exact Hd|done|].
    intros e He. apply bool_decide_eq_true. simpl.
    apply elem_of_app. right. apply list_elem_of_fmap. eauto.
  - pose proof (clearTimers_disarms (abort (setCancelled true w)) Ha) as Hd.
    simpl in Hd. unfold cancel. simpl. destruct (paused (ctl w)); simpl.
    + split_and!; [exact Hd|done|].
      intros e He. apply bool_decide_eq_true. simpl.
      rewrite !elem_of_app. left. right. apply list_elem_of_fmap. eauto.
    + split_and!; [exact Hd|done|].
      intros e He. apply bool_decide_eq_true. simpl.
      rewrite !elem_of_app. right. apply list_elem_of_fmap. eauto.
  - pose proof (clearTimers_disarms (dropPaused (setPaused false w)) Ha) as Hd.
    split_and!; [exact Hd|done|].
    intros e He. apply bool_decide_eq_true. simpl.
    apply elem_of_app. right. apply list_elem_of_fmap. eauto.
  - pose proof (clearTimers_disarms (newAbortController (setPaused false w)) Ha) as Hd.
    simpl in Hd. unfold resume. rewrite Hp. simpl.
    split_and!; [exact Hd|done|].
    intros e He. apply bool_decide_eq_true. simpl.
    rewrite !elem_of_app. left. right. apply list_elem_of_fmap. eauto.
Qed.

Lemma lifecycle_calls_end_pending_delays_witness :
  let w := (delay 100 (newTaskController 0)).1 in
  timeouts (host w) ≠ [] ∧ timeouts (host (pause w)) = [] ∧
  isResolved 0 w = false ∧ isResolved 0 (pause w) = true.
Proof.
  intros w.
  destruct (lifecycle_calls_end_pending_delays w (pause w) reachable_delay_witness)
    as (H1 & _ & H3); [by left|].
  split_and!; [done|exact H1|reflexivity|].
  apply (H3 {| timer := 1; resolve := 0 |}). left.
Defined.

Lemma reachable_paused_waiter_witness :
  reachable (waitIfPaused (pause (newTaskController 0))).1.
Proof. exists 0%Z, [OpPause; OpWaitIfPaused]. reflexivity. Qed.

(** X3: [cancel()] leaves the controller unpaused with no pause resolver
    listed, and resolves every promise of [waitIfPaused] that was listed
    and, until then, pending.  An [executeWithRetry] call suspended on such
    a promise cannot continue before the call; after it, it continues and
    ends with the cancellation error without calling [fn]. *)
Theorem cancel_releases_paused_waiters (w : World) (Hw : reachable w) :
  paused (ctl (cancel w)) = false ∧ pauseResolvers (ctl (cancel w)) = [] ∧
  (∀ p, p ∈ pauseResolvers (ctl w) →
        isResolved p w = false ∧ isResolved p (cancel w) = true) ∧
  ∀ (T : Type) (s : RetrySys T) retry p,
    rworld s = w → rpc s = AwaitWaitIfPaused retry (Some p) →
    p ∈ pauseResolvers (ctl w) →
    retryStep s Wake = None ∧
    retryRun s [CallCancel; Wake]
    = Some {| rworld := cancel w; rpc := Threw TaskCancelled; fnCalls := fnCalls s |}.
Proof.
  destruct (reachable_registered _ Hw) as [_ R2].
  assert (Hres : ∀ p, p ∈ pauseResolvers (ctl w) →
                      isResolved p w = false ∧ isResolved p (cancel w) = true).
  { intros p Hin. destruct (R2 p Hin) as (Hp & Hn & _). split.
    - by apply bool_decide_eq_false.
    - apply bool_decide_eq_true. unfold cancel. cbn [clearTimers ctl paused abort
        setCancelled]. rewrite Hp. cbn. rewrite !elem_of_app. by right. }
  split_and!.
  - unfold cancel. cbn [clearTimers ctl paused abort setCancelled].
    by destruct (paused (ctl w)) eqn:Hp.
  - unfold cancel. cbn [clearTimers ctl paused abort setCancelled].
    destruct (paused (ctl w)) eqn:Hp; [done|]. cbn.
    apply elem_of_nil_inv. intros p Hin. destruct (R2 p Hin) as (? & _). congruence.
  - exact Hres.
  - intros T s retry p Hws Hpc Hin. destruct (Hres p Hin) as [Hr1 Hr2].
    assert (Hc : cancelled (ctl (cancel w)) = true) by apply cancelled_cancel.
    split.
    + cbn [retryStep]. rewrite Hpc, Hws. unfold resumeRetry. cbn [canResume].
      by rewrite Hr1.
    + cbn [retryRun retryStep mbind option_bind rworld rpc fnCalls].
      rewrite Hpc, Hws. unfold resumeRetry. cbn [canResume]. rewrite Hr2.
      unfold afterWait, checkCancelled. rewrite Hc. reflexivity.
Qed.

Lemma cancel_releases_paused_waiters_witness :
  let w := (waitIfPaused (pause (newTaskController 0))).1 in
  pauseResolvers (ctl w) = [0] ∧ isResolved 0 w = false ∧
  isResolved 0 (cancel w) = true.
Proof.
  intros w.
  destruct (cancel_releases_paused_waiters w reachable_paused_waiter_witness)
    as (_ & _ & H & _).
  split; [reflexivity|]. apply (H 0). left.
Defined.

(** ** Resolvers dropped by cleanup *)

Lemma stranded_applyOp p w op w' :
  applyOp w op = Some w' → stranded p w → stranded p w'.
Proof.
  intros Hop (Hn & Hr & Hw & Ht & Hto). destruct op; unfold applyOp in Hop.
  - simplify_eq. unfold waitIfPaused, stranded.
    destruct (paused (ctl w)); simpl; [|done]. split_and!; try done; [lia|].
    intros [?|Heq]%elem_of_app; [done|]. apply list_elem_of_singleton in Heq. lia.
  - simplify_eq. unfold stranded. simpl. split_and!; try done; [lia| |].
    + rewrite fmap_app. intros [?|Heq]%elem_of_app; [done|].
      apply list_elem_of_singleton in Heq. simpl in Heq. lia.
    + intros t [?|Heq]%elem_of_app; [by apply Hto|].
      apply list_elem_of_singleton in Heq as ->. simpl. lia.
  - simplify_eq. unfold stranded. simpl. split_and!; try done.
    + by intros [?|?]%elem_of_app.
    + apply not_elem_of_nil.
    + intros t [_ ?]%list_elem_of_filter. by apply Hto.
  - simplify_eq. unfold resume, stranded.
    destruct (paused (ctl w)); simpl; [|done]. split_and!; try done.
    + by intros [[?|?]%elem_of_app|?]%elem_of_app.
    + apply not_elem_of_nil.
    + apply not_elem_of_nil.
    + intros t [_ ?]%list_elem_of_filter. by apply Hto.
  - simplify_eq. unfold cancel, stranded.
    cbn [clearTimers ctl paused abort setCancelled].
    destruct (paused (ctl w)); simpl; split_and!; try done;
      try apply not_elem_of_nil.
    + by intros [[?|?]%elem_of_app|?]%elem_of_app.
    + intros t [_ ?]%list_elem_of_filter. by apply Hto.
    + by intros [?|?]%elem_of_app.
    + intros t [_ ?]%list_elem_of_filter. by apply Hto.
  - simplify_eq. unfold stranded. simpl. split_and!; try done;
      try apply not_elem_of_nil.
    + by intros [?|?]%elem_of_app.
    + intros t [_ ?]%list_elem_of_filter. by apply Hto.
  - apply fireTimeout_Some in Hop
      as (t & Hin & _ & _ & Hc & _ & Hto' & Hres & _ & Hnext & _).
    unfold stranded. rewrite Hc, Hto', Hres, Hnext. split_and!; try done.
    + intros [?|Heq]%elem_of_app; [done|].
      apply list_elem_of_singleton in Heq. by apply (Hto t).
    + intros t' [_ ?]%list_elem_of_filter. by apply Hto.
  - apply elapse_Some in Hop as (_ & Hc & _ & Hto' & Hres & _ & Hnext & _).
    unfold stranded. rewrite Hc, Hto', Hres, Hnext. done.
Qed.

Lemma stranded_applyOps ops p w w' :
  applyOps w ops = Some w' → stranded p w → stranded p w'.
Proof.
  revert w. induction ops as [|op ops IH]; simpl; intros w H Hs; [by simplify_eq|].
  destruct (applyOp w op) as [w1|] eqn:Hop; [|done]. simpl in H.
  eauto using stranded_applyOp.
Qed.

Lemma stranded_cleanup p w :
  wellFormed w → registered w → p ∈ pauseResolvers (ctl w) → stranded p (cleanup w).
Proof.
  intros Hw [R1 R2] Hin. destruct (R2 p Hin) as (_ & Hr & Ht).
  pose proof (clearTimers_disarms (dropPaused (setPaused false w))) as Hd.
  unfold stranded, cleanup. rewrite Hd; [|intros t Hin'; by apply R1]. simpl.
  split_and!; try apply not_elem_of_nil.
  - by apply (wf_pauseResolvers _ Hw).
  - by intros [?|?]%elem_of_app.
  - intros t Hin'. by apply elem_of_nil in Hin'.
Qed.

Lemma stranded_retryRun {T} evs (s s' : RetrySys T) retry p :
  stranded p (rworld s) → rpc s = AwaitWaitIfPaused retry (Some p) →
  retryRun s evs = Some s' →
  rpc s' = AwaitWaitIfPaused retry (Some p) ∧ fnCalls s' = fnCalls s.
Proof.
  revert s. induction evs as [|ev evs IH]; simpl; intros s Hst Hpc Hrun.
  { by simplify_eq. }
  destruct (retryStep s ev) as [s1|] eqn:Hs; [|done]. simpl in Hrun.
  destruct (retryStep_ops _ _ _ Hs) as (ops & Hops).
  pose proof (stranded_applyOps _ _ _ _ Hops Hst) as Hst1.
  assert (rpc s1 = rpc s ∧ fnCalls s1 = fnCalls s) as [Hpc1 Hn1].
  { inv_retryStep Hs Hx; try done.
    - unfold resumeRetry in Hx. rewrite Hpc in Hx. cbn [canResume] in Hx.
      destruct Hst as (_ & Hr & _).
      assert (isResolved p (rworld s) = false) as Hf by by apply bool_decide_eq_false.
      by rewrite Hf in Hx.
    - by rewrite Hpc in Hx. }
  rewrite Hpc in Hpc1. destruct (IH _ Hst1 Hpc1 Hrun) as [? ?].
  split; [done|congruence].
Qed.

(** X4: [cleanup()] empties [pauseResolvers] without calling the resolvers.
    A promise of [waitIfPaused] that is listed when [cleanup()] is called is
    never resolved afterwards, whatever is called on the controller and
    whatever the host does; an [executeWithRetry] call suspended on it stays
    suspended and calls [fn] no more. *)
Theorem cleanup_strands_paused_waiters (w : World) (p : nat)
    (Hw : reachable w) (Hp : p ∈ pauseResolvers (ctl w)) :
  (∀ ops w', applyOps (cleanup w) ops = Some w' → isResolved p w' = false) ∧
  ∀ (T : Type) (s s' : RetrySys T) retry evs,
    rworld s = cleanup w → rpc s = AwaitWaitIfPaused retry (Some p) →
    retryRun s evs = Some s' →
    rpc s' = AwaitWaitIfPaused retry (Some p) ∧ fnCalls s' = fnCalls s.
Proof.
  pose proof (stranded_cleanup p w (reachable_wellFormed _ Hw)
                (reachable_registered _ Hw) Hp) as Hst.
  split.
  - intros ops w' Hops.
    destruct (stranded_applyOps _ _ _ _ Hops Hst) as (_ & Hr & _).
    by apply bool_decide_eq_false.
  - intros T s s' retry evs Hws Hpc Hrun.
    eapply stranded_retryRun; [|exact Hpc|exact Hrun]. by rewrite Hws.
Qed.

Lemma cleanup_strands_paused_waiters_witness :
  let w := (waitIfPaused (pause (newTaskController 0))).1 in
  ∃ w', applyOps (cleanup w) [OpPause; OpResume; OpCancel] = Some w' ∧
        isResolved 0 w' = false.
Proof.
  intros w.
  assert (Hin : 0 ∈ pauseResolvers (ctl w)) by left.
  destruct (cleanup_strands_paused_waiters w 0 reachable_paused_waiter_witness Hin)
    as [H _].
  eexists. split; [vm_compute; reflexivity|]. by apply (H [OpPause; OpResume; OpCancel]).
Defined.

(** ** A delay that is left alone ends when its timer fires *)

Lemma armed_delay ms w :
  wellFormed w → registered w →
  armed (S (nextId (host w))) (delay ms w).2 (clock (host w) + timeoutDelay ms) (delay ms w).1.
Proof.
  intros Hw [R1 _]. unfold armed. simpl. split_and!; try lia.
  - intros Hin%(wf_resolved _ Hw). lia.
  - apply elem_of_app. right. by apply list_elem_of_singleton.
  - intros t [Hin|Hin]%elem_of_app Heq.
    + destruct (R1 t Hin) as [? _]. apply (wf_timeouts _ Hw) in Hin. lia.
    + by apply list_elem_of_singleton in Hin.
Qed.

Lemma armed_applyOp h p deadline w op w' :
  spares h op = true → applyOp w op = Some w' →
  armed h p deadline w → armed h p deadline w'.
Proof.
  intros Hq Hop (Hh & Hp & Hr & Hin & Hu). destruct op; try done; unfold applyOp in Hop.
  - simplify_eq. unfold waitIfPaused, armed.
    destruct (paused (ctl w)); simpl; split_and!; try done; lia.
  - simplify_eq. unfold armed. simpl. split_and!; try done; try lia.
    + apply elem_of_app. by left.
    + intros t [Hin'|Hin']%elem_of_app Heq; [by apply Hu|].
      apply list_elem_of_singleton in Hin' as ->. simpl in Heq. lia.
  - apply bool_decide_eq_true in Hq.
    apply fireTimeout_Some in Hop
      as (t & Hin' & Hht & _ & _ & _ & Hto & Hres & _ & Hnext & _).
    unfold armed. rewrite Hto, Hres, Hnext. split_and!; try done.
    + intros [?|Heq]%elem_of_app; [done|]. apply list_elem_of_singleton in Heq.
      rewrite (Hu t Hin') in Hht by (by right). simpl in Hht. congruence.
    + apply list_elem_of_filter. split; [|done]. simpl. congruence.
    + intros t' [_ ?]%list_elem_of_filter. by apply Hu.
  - apply elapse_Some in Hop as (_ & _ & _ & Hto & Hres & _ & Hnext & _).
    unfold armed. rewrite Hto, Hres, Hnext. done.
Qed.

Lemma armed_applyOps ops h p deadline w w' :
  forallb (spares h) ops = true → applyOps w ops = Some w' →
  armed h p deadline w → armed h p deadline w'.
Proof.
  revert w. induction ops as [|op ops IH]; simpl; intros w Hq H Ha; [by simplify_eq|].
  apply andb_prop in Hq as [Hq1 Hq2].
  destruct (applyOp w op) as [w1|] eqn:Hop; [|done]. simpl in H.
  eauto using armed_applyOp.
Qed.

Lemma armed_fireTimeout h p deadline w :
  armed h p deadline w →
  fireTimeout h w =
  if bool_decide (deadline ≤ clock (host w))%Z then
    Some {| ctl := ctl w;
            host := {| clock := clock (host w);
                       timeouts := filter (λ t, handle t ≠ h) (timeouts (host w));
                       resolved := resolved (host w) ++ [p];
                       aborted := aborted (host w);
                       nextId := nextId (host w); sleepLog := sleepLog (host w) |} |}
  else None.
Proof.
  intros (_ & _ & _ & Hin & Hu). unfold fireTimeout.
  destruct (list_find _ _) as [[k t]|] eqn:Hf.
  - apply list_find_Some in Hf as (Hk & Hh & _).
    apply list_elem_of_lookup_2 in Hk. rewrite (Hu t Hk) by (by left). done.
  - apply list_find_None in Hf. rewrite Forall_forall in Hf.
    by apply Hf in Hin.
Qed.

(** C10, as the code has it: [cancel()] and [pause()] resolve only promises
    registered with the controller when they are called.  A [delay(ms)] begun
    in any reachable world, and so also once [cancelled] or [paused] is set,
    starts unresolved, and for [ms] up to 2^31 - 1, the largest delay
    [setTimeout] keeps, it is resolved no earlier than [ms] milliseconds
    later, as long as none of pause, resume, cancel and cleanup is called
    afterwards; for [ms] from 2^31 to 2^32 - 1 the timer can fire at once.
    So when an attempt fails while [cancelled] is set, [executeWithRetry]
    suspends on its back-off delay, calls [fn] no more, and, unless one of
    those four is called, throws the cancellation error only once the whole
    back-off time (at most 5000 ms) has passed. *)
Theorem delay_begun_after_cancel_lasts (w : World) (Hw : reachable w) :
  (∀ p, p ∈ resolved (host (cancel w)) →
        p ∈ resolved (host w) ∨ p ∈ (resolve <$> timers (ctl w))
        ∨ p ∈ pauseResolvers (ctl w)) ∧
  (∀ p, p ∈ resolved (host (pause w)) →
        p ∈ resolved (host w) ∨ p ∈ (resolve <$> timers (ctl w))) ∧
  (∀ ms, isResolved (delay ms w).2 (delay ms w).1 = false ∧
         ((delay ms (cancel w)).2 ∉ resolved (host (cancel w))) ∧
         ((delay ms (pause w)).2 ∉ resolved (host (pause w)))) ∧
  (∀ ms ops, (ms ≤ 2147483647)%Z → forallb quiet ops = true → lastsInFull w ms ops) ∧
  (∀ ms, (2147483647 < ms < 4294967296)%Z →
         ¬ lastsInFull w ms [OpFire (S (nextId (host w)))]) ∧
  (∀ (T : Type) (s s1 s2 : RetrySys T) retry e evs,
     rworld s = w → cancelled (ctl w) = true → rpc s = AwaitFn retry →
     retryStep s (FnSettles (Rejected e)) = Some s1 →
     forallb quietEvent evs = true → retryRun s1 evs = Some s2 →
     (backoff retry ≤ 5000)%Z ∧
     rpc s1 = AwaitDelay (S retry) (delay (backoff retry) w).2 ∧
     fnCalls s2 = fnCalls s ∧
     (rpc s2 = rpc s1
      ∨ (rpc s2 = Threw TaskCancelled
         ∧ (clock (host w) + backoff retry ≤ clock (host (rworld s2)))%Z))).
Proof.
  pose proof (reachable_wellFormed _ Hw) as Hwf.
  split_and!.
  - intros p. unfold cancel. simpl. destruct (paused (ctl w)); simpl;
      rewrite ?elem_of_app; tauto.
  - intros p. unfold pause. simpl. rewrite ?elem_of_app. tauto.
  - intros ms. split_and!.
    + apply bool_decide_eq_false. simpl. intros Hp%(wf_resolved _ Hwf). lia.
    + unfold delay. cbn [snd]. intros Hp%(wf_resolved _ (wellFormed_cancel _ Hwf)). lia.
    + unfold delay. cbn [snd]. intros Hp%(wf_resolved _ (wellFormed_pause _ Hwf)). lia.
  - intros ms ops Hms Hq w2 Hops Hres.
    destruct (delayPending_applyOps _ _ _ _ _ Hq Hops (delayPending_delay ms _ Hwf))
      as [(_ & Hr & _) _].
    apply bool_decide_eq_true in Hres. apply Hr in Hres.
    pose proof (timeoutDelay_ge ms Hms). lia.
  - intros ms Hms Hlast.
    pose proof (armed_delay ms w Hwf (reachable_registered _ Hw)) as Ha.
    pose proof (armed_fireTimeout _ _ _ _ Ha) as Hf.
    rewrite timeoutDelay_overflow in Hf by lia.
    rewrite bool_decide_true in Hf by (simpl; lia).
    unfold lastsInFull in Hlast. cbn [applyOps applyOp] in Hlast. rewrite Hf in Hlast.
    specialize (Hlast _ eq_refl). cbn in Hlast.
    assert (clock (host w) + ms ≤ clock (host w))%Z; [|lia].
    apply Hlast. apply bool_decide_eq_true. apply elem_of_app. right.
    by apply list_elem_of_singleton.
  - intros T s s1 s2 retry e evs Hws Hc Hpc Hs Hq Hrun.
    simpl in Hs. rewrite Hpc, Hws in Hs. simpl in Hs. simplify_eq.
    pose proof (backoff_bounds retry) as Hb.
    pose proof (delayPending_delay (backoff retry) _ Hwf) as Hd.
    rewrite timeoutDelay_backoff in Hd.
    destruct (backoff_after_cancel evs _ s2 (S retry) _ _ Hq Hrun Hc Hd (or_introl eq_refl))
      as [Hn Hpc2].
    simpl in *. split_and!; [lia|done|done|].
    destruct Hpc2 as [?|[? ?]]; [by left|right]. split; [done|lia].
Qed.

Lemma delay_begun_after_cancel_lasts_witness :
  let w := cancel (newTaskController 0) in
  let ops := [OpElapse 3000; OpElapse 2000; OpFire 1] in
  ∃ w2, applyOps (delay 5000 w).1 ops = Some w2 ∧
        isResolved (delay 5000 w).2 w2 = true ∧
        (clock (host w) + 5000 ≤ clock (host w2))%Z ∧
        applyOps (delay 5000 w).1 [OpElapse 4999; OpFire 1] = None ∧
        ¬ lastsInFull w 2147483648 [OpFire 1].
Proof.
  intros w ops. eexists. split; [reflexivity|]. split; [reflexivity|].
  assert (Hw : reachable w) by (by exists 0%Z, [OpCancel]).
  destruct (delay_begun_after_cancel_lasts w Hw) as (_ & _ & _ & H & H' & _).
  split; [|split; [reflexivity|]].
  - apply (H 5000%Z ops); [lia|reflexivity..].
  - apply (H' 2147483648%Z). lia.
Defined.

(** X5: the timer of a [delay(ms)] call, for [ms] within the range of a
    32-bit signed integer, fires exactly from its due time on.  After any
    history in which none of pause, resume, cancel and cleanup is called and
    the timer has not fired, the promise is still pending; the host cannot
    fire the timer while fewer than [max(ms, 0)] milliseconds have passed,
    and once they have, it can, and that resolves the promise. *)
Theorem delay_ends_when_its_timer_fires (w : World) (ms : Z) (ops : list Op) (w2 : World)
    (Hw : reachable w)
    (Hms : (-2147483648 ≤ ms ≤ 2147483647)%Z)
    (Hq : forallb (spares (S (nextId (host w)))) ops = true)
    (Hops : applyOps (delay ms w).1 ops = Some w2) :
  isResolved (delay ms w).2 w2 = false ∧
  ((clock (host w2) < clock (host w) + Z.max 0 ms)%Z →
   fireTimeout (S (nextId (host w))) w2 = None) ∧
  ((clock (host w) + Z.max 0 ms ≤ clock (host w2))%Z →
   ∃ w3, fireTimeout (S (nextId (host w))) w2 = Some w3 ∧
         isResolved (delay ms w).2 w3 = true).
Proof.
  pose proof (armed_delay ms w (reachable_wellFormed _ Hw) (reachable_registered _ Hw)) as Ha.
  rewrite timeoutDelay_max in Ha by lia.
  pose proof (armed_applyOps _ _ _ _ _ _ Hq Hops Ha) as Ha2.
  pose proof (armed_fireTimeout _ _ _ _ Ha2) as Hf.
  split_and!.
  - destruct Ha2 as (_ & _ & Hr & _). by apply bool_decide_eq_false.
  - intros Hlt. rewrite Hf. case_bool_decide; [lia|done].
  - intros Hle. rewrite Hf. case_bool_decide; [|lia]. eexists. split; [done|].
    apply bool_decide_eq_true. simpl. apply elem_of_app. right.
    by apply list_elem_of_singleton.
Qed.

Lemma delay_ends_when_its_timer_fires_witness :
  let w := newTaskController 0 in
  ∃ w2 w3, applyOps (delay 10 w).1 [OpElapse 4; OpWaitIfPaused; OpElapse 6] = Some w2 ∧
           isResolved 0 w2 = false ∧
           fireTimeout 1 w2 = Some w3 ∧ isResolved 0 w3 = true.
Proof.
  intros w.
  assert (Hw : reachable w) by (exists 0%Z, []; reflexivity).
  eexists. 
  pose proof (delay_ends_when_its_timer_fires w 10
                [OpElapse 4; OpWaitIfPaused; OpElapse 6] _ Hw ltac:(lia) eq_refl eq_refl)
    as (H1 & _ & H3).
  destruct H3 as (w3 & H3 & H4); [vm_compute; discriminate|].
  exists w3. split_and!; [reflexivity|exact H1|exact H3|exact H4].
Defined.

(** ** Entries of fired timers *)

Lemma timers_applyOp_quiet w op w' :
  quiet op = true → applyOp w op = Some w' →
  timers (ctl w') = timers (ctl w)
  ∨ ∃ ms, op = OpDelay ms ∧
          timers (ctl w') = timers (ctl w)
                            ++ [{| timer := S (nextId (host w)); resolve := nextId (host w) |}].
Proof.
  intros Hq Hop. destruct op; try done; unfold applyOp in Hop.
  - simplify_eq. left. unfold waitIfPaused. by destruct (paused (ctl w)).
  - simplify_eq. right. by exists ms.
  - apply fireTimeout_Some in Hop as (t & _ & _ & _ & -> & _). by left.
  - apply elapse_Some in Hop as (_ & -> & _). by left.
Qed.

Lemma failures_cons {T} (ev : RetryEvent T) evs :
  failures (ev :: evs) = (if isFailure ev then 1 else 0) + failures evs.
Proof.
  unfold failures. rewrite filter_cons.
  destruct (isFailure ev); case_decide; simpl; done.
Qed.

Lemma timers_loopHead {T} retry w :
  timers (ctl (loopHead (T:=T) retry w).1) = timers (ctl w).
Proof.
  unfold loopHead. destruct (checkCancelled w); [done|].
  unfold waitIfPaused. by destruct (paused (ctl w)).
Qed.

(** X6: the entry that [delay] pushes on [timers] stays there when its timer
    fires.  As long as none of pause, resume, cancel and cleanup is called,
    the array of a controller used by an [executeWithRetry] call grows by
    one entry with every failed attempt and never shrinks, while every
    promise of a fired timer is resolved. *)
Theorem fired_timers_stay_listed {T : Type} (evs : list (RetryEvent T)) (s s' : RetrySys T)
    (Hq : forallb quietEvent evs = true)
    (Hrun : retryRun s evs = Some s') :
  timers (ctl (rworld s)) `prefix_of` timers (ctl (rworld s')) ∧
  length (timers (ctl (rworld s'))) = length (timers (ctl (rworld s))) + failures evs.
Proof.
  revert s Hrun. induction evs as [|ev evs IH]; simpl; intros s Hrun.
  { simplify_eq. unfold failures. simpl. split; [done|lia]. }
  apply andb_prop in Hq as [Hq1 Hq2].
  destruct (retryStep s ev) as [s1|] eqn:Hs; [|done]. simpl in Hrun.
  destruct (IH Hq2 _ Hrun) as [Hpre Hlen].
  assert (timers (ctl (rworld s)) `prefix_of` timers (ctl (rworld s1)) ∧
          length (timers (ctl (rworld s1)))
          = length (timers (ctl (rworld s))) + (if isFailure ev then 1 else 0))
    as [Hpre1 Hlen1].
  { inv_retryStep Hs Hx; try done.
    - unfold resumeRetry in Hx. destruct (canResume _ _); [|done].
      destruct (rpc s); simplify_eq; simpl; [split; [done|lia]|].
      pose proof (timers_loopHead (T:=T) retry (rworld s)) as Ht.
      rewrite Hx in Ht. simpl in Ht. rewrite Ht. split; [done|lia].
    - unfold settleFn in Hx. destruct (rpc s); try done.
      destruct r; simplify_eq; simpl; [split; [done|lia]|].
      unfold delay in Hx. simplify_eq. simpl.
      split; [by apply prefix_app_r|]. rewrite length_app. simpl. lia.
    - apply fireTimeout_Some in Hx as (t & _ & _ & _ & -> & _). simpl. split; [done|lia].
    - apply elapse_Some in Hx as (_ & -> & _). simpl. split; [done|lia]. }
  split; [by etrans|]. rewrite failures_cons, Hlen, Hlen1. lia.
Qed.

Lemma fired_timers_stay_listed_witness :
  ∃ s : RetrySys unit,
    retryRun (retryStart (newTaskController 0))
      (failingRounds (newTaskController 0) (Failure 1) 0 3) = Some s ∧
    length (timers (ctl (rworld s))) = 3 ∧ timeouts (host (rworld s)) = [].
Proof.
  eexists. split; [vm_compute; reflexivity|].
  split; [|reflexivity].
  apply (fired_timers_stay_listed
           (failingRounds (newTaskController 0) (Failure 1) 0 3)
           (retryStart (newTaskController 0))); [reflexivity|vm_compute; reflexivity].
Defined.

(** ** How often fn is called *)

Lemma retryStep_returned {T} (s s' : RetrySys T) ev v :
  rpc s = Returned v → retryStep s ev = Some s' →
  rpc s' = Returned v ∧ fnCalls s' = fnCalls s.
Proof.
  intros Hpc. destruct ev; simpl; rewrite ?Hpc; simpl; intros H; simplify_option_eq; done.
Qed.

Lemma retryRun_returned {T} evs (s s' : RetrySys T) v :
  rpc s = Returned v → retryRun s evs = Some s' →
  rpc s' = Returned v ∧ fnCalls s' = fnCalls s.
Proof.
  revert s. induction evs as [|ev evs IH]; simpl; intros s Hpc H; [by simplify_eq|].
  destruct (retryStep s ev) as [s1|] eqn:Hs; [|done]. simpl in H.
  destruct (retryStep_returned _ _ _ _ Hpc Hs) as [Hpc1 Hn1].
  destruct (IH _ Hpc1 H) as [? ?]. split; [done|congruence].
Qed.

Lemma retryStep_attempts {T} (s s' : RetrySys T) ev k :
  retryStep s ev = Some s' → fnCalls s = attempts (rpc s) k →
  fnCalls s' = attempts (rpc s') (if isFailure ev then S k else k) ∧
  (∀ v, rpc s' = Returned v →
        rpc s = Returned v ∨ ev = FnSettles (Fulfilled v)).
Proof.
  intros Hs Hn. inv_retryStep Hs Hx; try (split; [done|]; intros v Hv; by left).
  - unfold resumeRetry in Hx. destruct (canResume _ _); [|done].
    destruct (rpc s) eqn:Hpc; simplify_eq.
    + unfold afterWait. destruct (checkCancelled (rworld s)); simpl in *;
        (split; [by rewrite Hn|done]).
    + unfold loopHead in Hx. destruct (checkCancelled (rworld s)).
      * simplify_eq. simpl in *. done.
      * destruct (waitIfPaused (rworld s)). simplify_eq. simpl in *. done.
  - unfold settleFn in Hx. destruct (rpc s) eqn:Hpc; try done.
    destruct r; simplify_eq; simpl in *.
    + split; [done|]. intros v' ?. simplify_eq. by right.
    + unfold delay in Hx. simplify_eq. simpl. split; [lia|done].
Qed.

Lemma retryRun_attempts {T} evs (s s' : RetrySys T) k :
  retryRun s evs = Some s' → fnCalls s = attempts (rpc s) k →
  fnCalls s' = attempts (rpc s') (k + failures evs) ∧
  (∀ v, rpc s' = Returned v →
        rpc s = Returned v ∨ FnSettles (Fulfilled v) ∈ evs).
Proof.
  revert s k. induction evs as [|ev evs IH]; simpl; intros s k Hrun Hn.
  { simplify_eq. unfold failures. simpl. rewrite Nat.add_0_r. split; [done|]. by left. }
  destruct (retryStep s ev) as [s1|] eqn:Hs; [|done]. simpl in Hrun.
  destruct (retryStep_attempts _ _ _ _ Hs Hn) as [Hn1 Hv1].
  destruct (IH _ _ Hrun Hn1) as [Hn2 Hv2]. rewrite failures_cons. split.
  - rewrite Hn2. f_equal. destruct (isFailure ev); lia.
  - intros v Hv. destruct (Hv2 v Hv) as [Hr|Hin].
    + destruct (Hv1 v Hr) as [?| ->]; [by left|]. right. left.
    + right. by right.
Qed.

(** X7: an [executeWithRetry] call has called [fn] once for every failed
    attempt, and once more when it is waiting for [fn] or has returned.  It
    returns [v] only after [fn] was fulfilled with [v], and by then it has
    asked for exactly one back-off delay per failure; when it throws, every
    attempt it made has failed. *)
Theorem fn_called_once_more_than_it_failed {T : Type} (w : World)
    (evs : list (RetryEvent T)) (s : RetrySys T)
    (Hrun : retryRun (retryStart w) evs = Some s) :
  fnCalls s = attempts (rpc s) (failures evs) ∧
  sleepLog (host (rworld s))
  = sleepLog (host w) ++ (backoff <$> seq 0 (failures evs)) ∧
  (∀ retry, rpc s = AwaitFn retry → retry = failures evs) ∧
  (∀ v, rpc s = Returned v →
        fnCalls s = S (failures evs) ∧ FnSettles (Fulfilled v) ∈ evs) ∧
  (∀ e, rpc s = Threw e → fnCalls s = failures evs).
Proof.
  assert (H0 : fnCalls (retryStart (T:=T) w) = attempts (rpc (retryStart (T:=T) w)) 0
               ∧ (∀ v, rpc (retryStart (T:=T) w) ≠ Returned v)
               ∧ sleepLog (host (rworld (retryStart (T:=T) w))) = sleepLog (host w)
               ∧ ∀ r, retryOf (rpc (retryStart (T:=T) w)) = Some r → r = 0).
  { unfold retryStart, executeWithRetry.
    pose proof (sleepLog_loopHead (T:=T) 0 w) as Hl.
    pose proof (retryOf_loopHead (T:=T) 0 w) as Hr.
    unfold loopHead in *. destruct (checkCancelled w); simpl in *; [done|].
    destruct (waitIfPaused w). simpl in *. done. }
  destruct H0 as (Hn0 & Hv0 & Hl0 & Hr0).
  destruct (retryRun_attempts _ _ _ _ Hrun Hn0) as [Hn Hv]. simpl in Hn.
  destruct (retryRun_sleepLog evs _ _ (sleepLog (host w)) 0 Hrun) as [Hl Hr];
    [by rewrite Hl0, app_nil_r|exact Hr0|]. simpl in Hl, Hr.
  split_and!; [done|done| | |].
  - intros retry Hpc. apply Hr. by rewrite Hpc.
  - intros v Hpc. split; [by rewrite Hn, Hpc|].
    destruct (Hv v Hpc) as [?|?]; [by destruct (Hv0 v)|done].
  - intros e Hpc. by rewrite Hn, Hpc.
Qed.

Lemma fn_called_once_more_than_it_failed_witness :
  ∃ s : RetrySys unit,
    retryRun (retryStart (newTaskController 0))
      [Wake; FnSettles (Rejected (Failure 1)); Elapse 0; TimerFires 1; Wake; Wake;
       FnSettles (Fulfilled ())] = Some s ∧
    rpc s = Returned () ∧ fnCalls s = 2 ∧ sleepLog (host (rworld s)) = [0%Z].
Proof.
  set (evs := [Wake; FnSettles (Rejected (Failure 1)); Elapse 0; TimerFires 1; Wake; Wake;
               FnSettles (Fulfilled ())] : list (RetryEvent unit)).
  assert (Hs : is_Some (retryRun (retryStart (newTaskController 0)) evs))
    by (vm_compute; eauto).
  destruct Hs as [s Hrun]. exists s. split; [exact Hrun|].
  assert (Hpc : rpc s = Returned ()).
  { vm_compute in Hrun. injection Hrun as <-. reflexivity. }
  destruct (fn_called_once_more_than_it_failed (newTaskController 0) evs s Hrun)
    as (_ & H2 & _ & H4 & _).
  destruct (H4 () Hpc) as [H5 _].
  split_and!; [exact Hpc|exact H5|exact H2].
Defined.

(** ** A call suspended by a pause *)

Lemma waiting_retryStep {T} (s s' : RetrySys T) ev retry p :
  registered (rworld s) → rpc s = AwaitWaitIfPaused retry (Some p) →
  p ∈ pauseResolvers (ctl (rworld s)) →
  keepsWaiters ev = true → retryStep s ev = Some s' →
  rpc s' = rpc s ∧ fnCalls s' = fnCalls s ∧ p ∈ pauseResolvers (ctl (rworld s')).
Proof.
  intros [_ R2] Hpc Hin Hk Hs. destruct (R2 p Hin) as (_ & Hr & _).
  inv_retryStep Hs Hx; try done.
  - unfold resumeRetry in Hx. rewrite Hpc in Hx. cbn [canResume] in Hx.
    assert (isResolved p (rworld s) = false) as Hf by by apply bool_decide_eq_false.
    by rewrite Hf in Hx.
  - by rewrite Hpc in Hx.
  - apply fireTimeout_Some in Hx as (t & _ & _ & _ & -> & _). done.
  - apply elapse_Some in Hx as (_ & -> & _). done.
Qed.

(** ** Every attempt begins at the top of the loop *)

Lemma retryStart_loopHead {T} w :
  retryStart (T:=T) w
  = {| rworld := (loopHead (T:=T) 0 w).1; rpc := (loopHead 0 w).2; fnCalls := 0 |}.
Proof. unfold retryStart, executeWithRetry. by destruct (loopHead 0 w). Qed.

Lemma callsFn_loopHead {T} r w : callsFn (loopHead (T:=T) r w).2 = false.
Proof.
  unfold loopHead. destruct (checkCancelled w); [done|]. by destruct (waitIfPaused w).
Qed.

Lemma loopHead_topOfLoop {T} r w n :
  wellFormed w →
  topOfLoop (T:=T) r w n
    {| rworld := (loopHead (T:=T) r w).1; rpc := (loopHead r w).2; fnCalls := n |}.
Proof.
  intros Hwf. unfold topOfLoop, loopHead, checkCancelled. split; [done|].
  destruct (cancelled (ctl w)) eqn:Hc; [done|].
  unfold waitIfPaused. destruct (paused (ctl w)) eqn:Hp; [|done]. cbn.
  assert (Hfresh : nextId (host w) ∉ resolved (host w))
    by (intros H%(wf_resolved _ Hwf); lia).
  exists (nextId (host w)). split_and!; try done.
  - by apply bool_decide_eq_false.
  - unfold resumeRetry. cbn. unfold isResolved. cbn. by rewrite bool_decide_false.
Qed.

Lemma retryStart_reachable {T} w : reachable w → reachable (rworld (retryStart (T:=T) w)).
Proof.
  intros Hw. rewrite retryStart_loopHead. cbn. unfold loopHead.
  destruct (checkCancelled w); [done|].
  destruct (waitIfPaused w) as [w1 p1] eqn:Hwait. cbn.
  apply (reachable_applyOps w [OpWaitIfPaused]); [done|]. cbn. by rewrite Hwait.
Qed.

Lemma retryRun_reachable {T} evs (s s' : RetrySys T) :
  reachable (rworld s) → retryRun s evs = Some s' → reachable (rworld s').
Proof.
  revert s. induction evs as [|ev evs IH]; simpl; intros s Hw Hrun; [by simplify_eq|].
  destruct (retryStep s ev) as [s1|] eqn:Hs; [|done]. simpl in Hrun.
  destruct (retryStep_ops _ _ _ Hs) as (ops & Hops).
  eauto using reachable_applyOps.
Qed.

(** C4: the call begins with a pass through the top of the loop, and so does
    every continuation after a back-off delay: there [executeWithRetry]
    throws the cancellation error if [cancelled] is set, and otherwise
    suspends on [waitIfPaused()], on a pending promise if the controller is
    paused.  The wait is reached in no other way.  While that promise is
    listed the controller is paused and the call stays where it is, whatever
    happens short of resume, cancel and cleanup.  When the call continues
    after the wait it checks [cancelled] again, and throws or calls [fn];
    [fn] is called at no other point.  A rejection of [fn], whatever the
    error, is caught and leads to the back-off delay, after any number of
    failures; so a call can end in an error only with the cancellation
    error, [cancelled] being set. *)
Theorem only_cancellation_escapes (T : Type) (w : World) (evs : list (RetryEvent T))
    (s : RetrySys T)
    (Hw : reachable w)
    (Hrun : retryRun (retryStart w) evs = Some s) :
  topOfLoop 0 w 0 (retryStart (T:=T) w) ∧
  (∀ r p s', rpc s = AwaitDelay r p → retryStep s Wake = Some s' →
     isResolved p (rworld s) = true ∧ topOfLoop r (rworld s) (fnCalls s) s') ∧
  (∀ r p ev s', retryStep s ev = Some s' → rpc s' = AwaitWaitIfPaused r p →
     rpc s = AwaitWaitIfPaused r p ∨ (ev = Wake ∧ ∃ p0, rpc s = AwaitDelay r p0)) ∧
  (∀ r q, rpc s = AwaitWaitIfPaused r (Some q) → q ∈ pauseResolvers (ctl (rworld s)) →
     paused (ctl (rworld s)) = true ∧ isResolved q (rworld s) = false ∧
     retryStep s Wake = None ∧
     ∀ ev s', keepsWaiters ev = true → retryStep s ev = Some s' →
       rpc s' = rpc s ∧ fnCalls s' = fnCalls s ∧ q ∈ pauseResolvers (ctl (rworld s'))) ∧
  (∀ r p s', rpc s = AwaitWaitIfPaused r p → retryStep s Wake = Some s' →
     (∀ q, p = Some q → isResolved q (rworld s) = true) ∧ rworld s' = rworld s ∧
     if cancelled (ctl (rworld s))
     then rpc s' = Threw TaskCancelled ∧ fnCalls s' = fnCalls s
     else rpc s' = AwaitFn r ∧ fnCalls s' = S (fnCalls s)) ∧
  (∀ ev s', retryStep s ev = Some s' → fnCalls s' ≠ fnCalls s →
     ev = Wake ∧ ∃ r p, rpc s = AwaitWaitIfPaused r p) ∧
  (∀ r e, rpc s = AwaitFn r →
     ∃ s', retryStep s (FnSettles (Rejected e)) = Some s' ∧
           rpc s' = AwaitDelay (S r) (nextId (host (rworld s))) ∧
           fnCalls s' = fnCalls s ∧
           isResolved (nextId (host (rworld s))) (rworld s') = false) ∧
  (∀ r (v : T), rpc s = AwaitFn r →
     ∃ s', retryStep s (FnSettles (Fulfilled v)) = Some s' ∧ rpc s' = Returned v) ∧
  (∀ e, rpc s = Threw e → e = TaskCancelled ∧ cancelled (ctl (rworld s)) = true) ∧
  (∀ t0 e n, ∃ s : RetrySys T,
     retryRun (retryStart (newTaskController t0))
              (failingRounds (newTaskController t0) e 0 n) = Some s ∧
     fnCalls s = n ∧ rpc s = AwaitWaitIfPaused n None).
Proof.
  pose proof (retryRun_reachable _ _ _ (retryStart_reachable (T:=T) w Hw) Hrun) as Hws.
  pose proof (reachable_wellFormed _ Hws) as Hwf.
  pose proof (reachable_registered _ Hws) as Hreg.
  split_and!.
  - rewrite retryStart_loopHead. apply loopHead_topOfLoop. by apply reachable_wellFormed.
  - intros r p s' Hpc Hs. cbn [retryStep] in Hs. unfold resumeRetry in Hs.
    rewrite Hpc in Hs. cbn [canResume] in Hs.
    destruct (isResolved p (rworld s)) eqn:Hres; [|done]. split; [done|].
    destruct (loopHead (T:=T) r (rworld s)) as [w1 pc1] eqn:Hl. cbn in Hs.
    pose proof (callsFn_loopHead (T:=T) r (rworld s)) as Hcf.
    pose proof (loopHead_topOfLoop (T:=T) r (rworld s) (fnCalls s) Hwf) as Htop.
    rewrite Hl in Hcf, Htop. cbn in Hcf, Htop. rewrite Hcf in Hs. by simplify_eq.
  - intros r p ev s' Hs Hpc'. inv_retryStep Hs Hx; try (by left).
    + unfold resumeRetry in Hx. destruct (canResume _ _); [|done].
      destruct (rpc s) eqn:Hpc; simplify_eq.
      * exfalso.
        match goal with
        | H : afterWait _ _ = _ |- _ =>
            unfold afterWait in H; destruct (checkCancelled (rworld s)); discriminate H
        end.
      * right. split; [done|].
        match goal with
        | H : loopHead _ _ = _ |- _ =>
            unfold loopHead in H; destruct (checkCancelled (rworld s)); [by simplify_eq|];
            destruct (waitIfPaused (rworld s)); simplify_eq
        end.
        eauto.
    + exfalso. unfold settleFn in Hx. destruct (rpc s); try done.
      match goal with
      | H : context [match ?x with Fulfilled _ => _ | Rejected _ => _ end] |- _ =>
          destruct x; simplify_eq
      end.
  - intros r q Hpc Hin. destruct (reg_waiting _ Hreg q Hin) as (Hpa & Hr & _).
    assert (isResolved q (rworld s) = false) as Hf by by apply bool_decide_eq_false.
    split_and!; try done.
    + cbn [retryStep]. unfold resumeRetry. rewrite Hpc. cbn [canResume]. by rewrite Hf.
    + intros ev s' Hk Hs. by eapply waiting_retryStep.
  - intros r p s' Hpc Hs. cbn [retryStep] in Hs. unfold resumeRetry in Hs.
    rewrite Hpc in Hs. destruct (canResume _ _) eqn:Hcan; [|done]. cbn in Hs.
    split; [by intros q ->|]. unfold afterWait, checkCancelled in Hs.
    destruct (cancelled (ctl (rworld s))); by simplify_eq.
  - intros ev s' Hs Hne.
    destruct (retryStep_calls _ _ _ Hs Hne) as (-> & _ & _ & r & p & Hpc & _). eauto.
  - intros r e Hpc. eexists. cbn [retryStep]. rewrite Hpc. cbn. split; [reflexivity|].
    split_and!; try done. apply bool_decide_eq_false. cbn.
    intros Hin%(wf_resolved _ Hwf). lia.
  - intros r v Hpc. eexists. cbn [retryStep]. rewrite Hpc. cbn. done.
  - revert Hrun. intros Hrun e. revert e. eapply retryRun_threw; [exact Hrun|].
    rewrite retryStart_loopHead. cbn. unfold loopHead, checkCancelled.
    destruct (cancelled (ctl w)) eqn:Hc; cbn; [by intros e [= <-]|].
    destruct (waitIfPaused w). cbn. done.
  - intros t0 e n. destruct (failing_forever (T:=T) t0 e n) as (_ & s0 & Hrun0 & Hpc & _ & Hn).
    by exists s0.
Qed.

Lemma only_cancellation_escapes_witness :
  let w := newTaskController 0 in
  let evs := [Wake; FnSettles (Rejected (Failure 1)); CallPause; Wake; CallCancel; Wake] in
  ∃ s : RetrySys unit,
    retryRun (retryStart w) evs = Some s ∧ rpc s = Threw TaskCancelled ∧
    cancelled (ctl (rworld s)) = true ∧ fnCalls s = 1 ∧
    topOfLoop 0 w 0 (retryStart (T:=unit) w).
Proof.
  intros w evs.
  assert (Hw : reachable w) by (exists 0%Z, []; reflexivity).
  assert (H0 : is_Some (retryRun (T:=unit) (retryStart w) evs)) by (vm_compute; eauto).
  destruct H0 as [s Hs]. exists s.
  destruct (only_cancellation_escapes unit w evs s Hw Hs)
    as (Htop & _ & _ & _ & _ & _ & _ & _ & Hthrew & _).
  split; [exact Hs|].
  vm_compute in Hs. injection Hs as <-.
  split; [reflexivity|]. split; [|split; [reflexivity|exact Htop]].
  exact (proj2 (Hthrew TaskCancelled eq_refl)).
Defined.

(** X8: an [executeWithRetry] call that found the controller paused stays
    suspended, without calling [fn], whatever happens short of [resume()],
    [cancel()] and [cleanup()]: the controller is still paused and the
    promise still pending.  [resume()] then lets it continue with the same
    [retry] counter: unless the controller is cancelled, its next step is
    the call of [fn]. *)
Theorem paused_call_waits_for_resume {T : Type} (evs : list (RetryEvent T))
    (s s' : RetrySys T) (retry p : nat)
    (Hw : reachable (rworld s))
    (Hpc : rpc s = AwaitWaitIfPaused retry (Some p))
    (Hp : p ∈ pauseResolvers (ctl (rworld s)))
    (Hk : forallb keepsWaiters evs = true)
    (Hrun : retryRun s evs = Some s') :
  rpc s' = AwaitWaitIfPaused retry (Some p) ∧ fnCalls s' = fnCalls s ∧
  paused (ctl (rworld s')) = true ∧ isResolved p (rworld s') = false ∧
  retryStep s' Wake = None ∧
  (cancelled (ctl (rworld s')) = false →
   retryRun s' [CallResume; Wake]
   = Some {| rworld := resume (rworld s'); rpc := AwaitFn retry;
             fnCalls := S (fnCalls s) |}).
Proof.
  revert s Hw Hpc Hp Hrun. induction evs as [|ev evs IH]; simpl; intros s Hw Hpc Hp Hrun.
  - simplify_eq. destruct (reachable_registered _ Hw) as [_ R2].
    destruct (R2 p Hp) as (Hpa & Hr & _).
    assert (isResolved p (rworld s') = false) as Hf by by apply bool_decide_eq_false.
    split_and!; try done.
    + cbn [retryStep]. unfold resumeRetry. rewrite Hpc. cbn [canResume]. by rewrite Hf.
    + intros Hc.
      assert (Hres : isResolved p (resume (rworld s')) = true).
      { apply bool_decide_eq_true. unfold resume. rewrite Hpa. simpl.
        rewrite !elem_of_app. by right. }
      cbn [retryRun retryStep mbind option_bind rworld rpc fnCalls].
      rewrite Hpc. unfold resumeRetry. cbn [canResume]. rewrite Hres.
      unfold afterWait, checkCancelled. rewrite cancelled_resume, Hc. reflexivity.
  - apply andb_prop in Hk as [Hk1 Hk2].
    destruct (retryStep s ev) as [s1|] eqn:Hs; [|done]. simpl in Hrun.
    destruct (waiting_retryStep _ _ _ _ _ (reachable_registered _ Hw) Hpc Hp Hk1 Hs)
      as (Hpc1 & Hn1 & Hp1).
    destruct (retryStep_ops _ _ _ Hs) as (ops & Hops).
    rewrite Hpc in Hpc1.
    destruct (IH Hk2 s1 (reachable_applyOps _ _ _ Hw Hops) Hpc1 Hp1 Hrun)
      as (? & ? & ? & ? & ? & Hres).
    rewrite Hn1 in *. done.
Qed.

Lemma paused_call_waits_for_resume_witness :
  let s := retryStart (T:=unit) (pause (newTaskController 0)) in
  ∃ s', retryRun s [Elapse 5; CallPause; Elapse 7] = Some s' ∧
        rpc s' = AwaitWaitIfPaused 0 (Some 0) ∧ fnCalls s' = 0 ∧
        retryStep s' Wake = None.
Proof.
  intros s.
  assert (Hw : reachable (rworld s))
    by (exists 0%Z, [OpPause; OpWaitIfPaused]; reflexivity).
  assert (Hin : 0 ∈ pauseResolvers (ctl (rworld s))) by left.
  eexists. split; [vm_compute; reflexivity|].
  pose proof (paused_call_waits_for_resume [Elapse 5; CallPause; Elapse 7] s _ 0 0
                Hw eq_refl Hin eq_refl eq_refl) as (H1 & H2 & _ & _ & H5 & _).
  split_and!; [exact H1|exact H2|exact H5].
Defined.

(** ** Sources are admitted in order *)

Lemma submitted_inFlight t : inFlight t = true → submitted t = true.
Proof. by destruct t. Qed.

Lemma admitted_insert (l : list Task) i t t' :
  l !! i = Some t → submitted t = submitted t' →
  countb submitted (<[i := t']> l) = countb submitted l.
Proof.
  intros Hi Heq. pose proof (countb_insert submitted _ _ _ t' Hi) as Hc.
  rewrite Heq in Hc. lia.
Qed.

Lemma tracksInFlight_task_moves s s' i t t' :
  tasks s !! i = Some t → inFlight t = true → inFlight t' = true →
  tasks s' = <[i := t']> (tasks s) → executing s' = executing s →
  tracksInFlight s → tracksInFlight s'.
Proof.
  intros Hi Ht Ht' Htasks Hexec Htr j. rewrite Hexec, (Htr j), Htasks.
  destruct (decide (j = i)) as [->|Hne].
  - rewrite list_lookup_insert_eq by (by eapply lookup_lt_Some).
    split; [by exists t'|by exists t].
  - by rewrite list_lookup_insert_ne.
Qed.

Lemma orderly_task_moves n s s' i t t' :
  tasks s !! i = Some t → inFlight t = true → inFlight t' = true →
  tasks s' = <[i := t']> (tasks s) → executing s' = executing s → main s' = main s →
  orderly n s → orderly n s'.
Proof.
  intros Hi Ht Ht' Htasks Hexec Hmain [H1 H2 H3 H4 H5].
  pose proof (submitted_inFlight _ Ht) as Hs. pose proof (submitted_inFlight _ Ht') as Hs'.
  assert (Hadm : admitted s' = admitted s).
  { unfold admitted. rewrite Htasks. apply (admitted_insert _ _ t); congruence. }
  pose proof (tracksInFlight_task_moves _ _ _ _ _ Hi Ht Ht' Htasks Hexec) as Htr.
  constructor; rewrite ?Hadm, ?Hmain, ?Hexec.
  - by rewrite Htasks, length_insert.
  - rewrite Htasks, (submitted_insert _ _ t); done.
  - intros rest members winner Hm. destruct (H3 _ _ _ Hm) as (? & ? & ?). auto.
  - intros waiting result Hm. destruct (H4 _ _ Hm) as (? & ? & ?). auto.
  - done.
Qed.

Lemma orderly_same n s s' :
  tasks s' = tasks s → executing s' = executing s → main s' = main s →
  orderly n s → orderly n s'.
Proof.
  intros Htasks Hexec Hmain [H1 H2 H3 H4 H5].
  assert (Htr : tracksInFlight s → tracksInFlight s').
  { intros Htr j. by rewrite Hexec, Htasks. }
  constructor; unfold admitted in *; rewrite ?Htasks, ?Hmain, ?Hexec; try done.
  - intros rest members winner Hm. destruct (H3 _ _ _ Hm) as (? & ? & ?). auto.
  - intros waiting result Hm. destruct (H4 _ _ Hm) as (? & ? & ?). auto.
Qed.

Lemma orderly_settleMain n r s : orderly n s → orderly n (settleMain r s).
Proof. intros [H1 H2 H3 H4 H5]. constructor; unfold admitted in *; simpl; done. Qed.

(** The next source of a prefix of submitted ones is unsubmitted. *)
Lemma prefix_next (l : list Task) k n :
  length l = n → k < n →
  submitted <$> l = replicate k true ++ replicate (n - k) false →
  l !! k = Some Unsubmitted.
Proof.
  intros Hlen Hk Hpre.
  assert (Hf : (submitted <$> l) !! k = Some false).
  { rewrite Hpre, lookup_app_r by (by rewrite length_replicate).
    rewrite length_replicate, Nat.sub_diag. apply lookup_replicate_2. lia. }
  apply list_lookup_fmap_Some in Hf as (t & Hs & Ht). by destruct t.
Qed.

Lemma prefix_submit (l : list Task) k n :
  length l = n → k < n →
  submitted <$> l = replicate k true ++ replicate (n - k) false →
  submitted <$> <[k := AwaitChunk]> l
  = replicate (S k) true ++ replicate (n - S k) false.
Proof.
  intros Hlen Hk Hpre. rewrite list_fmap_insert, Hpre.
  rewrite insert_app_r_alt by (by rewrite length_replicate).
  rewrite length_replicate, Nat.sub_diag.
  replace (n - k) with (S (n - S k)) by lia. simpl.
  by rewrite (cons_middle true), app_assoc, <- replicate_S_end.
Qed.

Lemma mainLoop_orderly n opts rest s :
  length (tasks s) = n →
  submitted <$> tasks s = replicate (admitted s) true ++ replicate (n - admitted s) false →
  rest = seq (admitted s) (n - admitted s) → tracksInFlight s →
  orderly n (mainLoop opts rest s).
Proof.
  revert s. induction rest as [|i rest IH]; intros s Hlen Hpre Hrest Htr.
  - assert (Hadm : admitted s = n).
    { pose proof (countb_le_length submitted (tasks s)) as Hle. unfold admitted in *.
      destruct (n - countb submitted (tasks s)) eqn:Hd; [lia|done]. }
    simpl. unfold awaitAll. constructor; unfold admitted in *; simpl; try done.
    intros waiting result [= <- <-]. split_and!; try done.
    destruct (executing s); [done|]. intros _. done.
  - cbn [mainLoop]. destruct (checkCancelled (world s)).
    { constructor; unfold admitted in *; simpl; done. }
    destruct (n - admitted s) as [|m] eqn:Hm; [done|].
    simpl in Hrest. injection Hrest as -> ->. rewrite <- Hm in Hpre.
    assert (Hk : admitted s < n) by lia.
    pose proof (prefix_next _ _ _ Hlen Hk Hpre) as Hun.
    assert (Hadm1 : admitted (submit (admitted s) s) = S (admitted s)).
    { unfold admitted. simpl.
      pose proof (countb_insert submitted _ _ _ AwaitChunk Hun) as Hc. simpl in Hc.
      unfold admitted in Hc. lia. }
    assert (Hlen1 : length (tasks (submit (admitted s) s)) = n)
      by (simpl; by rewrite length_insert).
    assert (Hpre1 : submitted <$> tasks (submit (admitted s) s)
                    = replicate (admitted (submit (admitted s) s)) true
                      ++ replicate (n - admitted (submit (admitted s) s)) false).
    { rewrite Hadm1. simpl. by apply prefix_submit. }
    assert (Hrest1 : seq (S (admitted s)) m
                     = seq (admitted (submit (admitted s) s))
                           (n - admitted (submit (admitted s) s))).
    { rewrite Hadm1. f_equal. lia. }
    assert (Htr1 : tracksInFlight (submit (admitted s) s)).
    { intros j. simpl. rewrite elem_of_app, list_elem_of_singleton.
      destruct (decide (j = admitted s)) as [->|Hne].
      - rewrite list_lookup_insert_eq by lia.
        split; [by exists AwaitChunk|by right].
      - rewrite list_lookup_insert_ne by done. rewrite (Htr j).
        split; [by intros [?|?]|by left]. }
    case_bool_decide as Hfull.
    + constructor; try done.
      intros rest members winner [= <- <- <-]. split_and!; try done. intros _.
      split; [|done]. simpl. by destruct (executing s).
    + by apply IH.
Qed.

Lemma processChunks_orderly opts n t0 : orderly n (processChunks opts n t0).
Proof.
  assert (Hadm : countb submitted (replicate n Unsubmitted) = 0)
    by (by apply countb_replicate_false).
  apply mainLoop_orderly; unfold admitted; simpl; rewrite ?Hadm.
  - apply length_replicate.
  - rewrite Nat.sub_0_r. simpl. by rewrite fmap_replicate.
  - by rewrite Nat.sub_0_r.
  - intros i. simpl. split; [by intros ?%elem_of_nil|].
    intros (t & [-> _]%lookup_replicate & Hf). done.
Qed.

Lemma notify_all i r m waiting result :
  notify i r m = AwaitAll waiting result →
  ∃ waiting0 result0, m = AwaitAll waiting0 result0 ∧
    (result = None →
     result0 = None ∧ (i ∉ waiting) ∧ (∀ j, j ∈ waiting → j ∈ waiting0) ∧
     (waiting0 ≠ [] → waiting ≠ [])).
Proof.
  destruct m as [rest0 members0 [w|]|waiting0 [w|]|r0]; simpl.
  - by intros [=].
  - case_bool_decide; by intros [=].
  - intros [= <- <-]. exists waiting0, (Some w). split; [done|]. by intros [=].
  - case_bool_decide as Hin.
    + destruct r.
      * intros [= <- <-]. exists waiting0, None. split; [done|].
        destruct (filter _ waiting0) as [|j l] eqn:Hf; [by intros [=]|].
        intros _. rewrite <- Hf. split_and!; try done.
        -- intros [? _]%list_elem_of_filter. done.
        -- intros j' [_ ?]%list_elem_of_filter. done.
        -- intros _. by rewrite Hf.
      * intros [= <- <-]. exists waiting0, None. split; [done|]. by intros [=].
    + intros [= <- <-]. exists waiting0, None. split; [done|]. intros _. done.
  - by intros [=].
Qed.

Lemma notify_done i r m r0 : notify i r m = Done r0 → m = Done r0.
Proof.
  destruct m as [rest0 members0 [w|]|waiting0 [w|]|r1]; simpl; try done.
  - case_bool_decide; by intros [=].
  - case_bool_decide; [destruct r|]; by intros [=].
Qed.

Lemma step_orderly opts n s ev s' :
  orderly n s → step opts s ev = Some s' → orderly n s'.
Proof.
  intros Hord Hs. inv_step Hs Ht Hx Hap.
  - eapply (orderly_task_moves _ s _ i AwaitChunk);
      try done; try reflexivity. apply inFlight_taskOfPc.
  - eapply (orderly_task_moves _ s _ i AwaitChunk); try done; reflexivity.
  - match goal with |- context [callsFn ?pc] => destruct (callsFn pc) end;
      (eapply (orderly_task_moves _ s _ i (InRetry _));
       try done; try reflexivity; apply inFlight_taskOfPc).
  - apply afterProcessor_same in Hap as (Ht1 & He1 & Hm1 & _).
    eapply (orderly_task_moves _ s _ i (InRetry _)); try done; try reflexivity.
    + apply inFlight_taskOfPc.
    + simpl. by rewrite Ht1.
  - destruct Hord as [H1 H2 H3 H4 H5].
    assert (Hadm : countb submitted (<[i:=Finalized r]> (tasks s)) = admitted s)
      by (by apply (admitted_insert _ _ (Settling r))).
    assert (Htr : tracksInFlight s →
                  ∀ j, j ∈ filter (λ j, j ≠ i) (executing s)
                       ↔ ∃ t, <[i:=Finalized r]> (tasks s) !! j = Some t ∧ inFlight t = true).
    { intros Htr j. rewrite list_elem_of_filter, (Htr j).
      destruct (decide (j = i)) as [->|Hne].
      - rewrite list_lookup_insert_eq by (by eapply lookup_lt_Some).
        split; [by intros [? _]|]. intros (t & Ht' & Hf). by simplify_eq.
      - rewrite list_lookup_insert_ne by done. split; [by intros [_ ?]|done]. }
    constructor; unfold admitted, tracksInFlight; simpl; rewrite ?Hadm.
    + by rewrite length_insert.
    + rewrite (submitted_insert _ _ (Settling r)); done.
    + intros rest members winner Hm. apply notify_race in Hm as (winner0 & Hm & Hnone).
      destruct (H3 _ _ _ Hm) as (Hrest & Htr0 & Hmem). split_and!; [done|by apply Htr|].
      intros (-> & Hnot)%Hnone. destruct (Hmem eq_refl) as [Hne Hsub].
      split; [done|]. intros j Hj. apply list_elem_of_filter. split; [|by apply Hsub].
      by intros ->.
    + intros waiting result Hm.
      apply notify_all in Hm as (waiting0 & result0 & Hm & Hnone).
      destruct (H4 _ _ Hm) as (Hall & Htr0 & Hmem). split_and!; [done|by apply Htr|].
      intros (-> & Hnot & Hsub0 & Hne0)%Hnone. destruct (Hmem eq_refl) as [Hne Hsub].
      split; [by apply Hne0|]. intros j Hj. apply list_elem_of_filter.
      split; [by intros ->|]. by apply Hsub, Hsub0.
    + intros r0 Hm%notify_done. by rewrite (H5 _ Hm).
  - by apply orderly_settleMain.
  - destruct Hord as [H1 H2 H3 H4 H5]. destruct (H3 _ _ _ Ht) as (Hrest & Htr & _).
    by apply mainLoop_orderly.
  - by apply orderly_settleMain.
  - by apply orderly_settleMain.
  - by apply orderly_settleMain.
  - by apply (orderly_same n s).
  - by apply (orderly_same n s).
  - by apply (orderly_same n s).
  - by apply (orderly_same n s).
  - by apply (orderly_same n s).
Qed.

Lemma run_orderly opts n evs s s' :
  orderly n s → run opts s evs = Some s' → orderly n s'.
Proof.
  revert s. induction evs as [|ev evs IH]; simpl; intros s Hord Hrun; [by simplify_eq|].
  destruct (step opts s ev) as [s1|] eqn:Hs; [|done]. simpl in Hrun.
  eauto using step_orderly.
Qed.

(** X9: [processChunks] admits the chunk promises in the order of the
    array, without gaps: at every moment of every run, whatever the
    concurrency, the tasks created so far are those of the first
    [admitted s] promises, the loop has exactly the remaining promises
    still to come, in order, and the final [Promise.all] is reached only
    when every promise has been admitted. *)
Theorem sources_admitted_in_order (opts : ProcessOptions) (n : nat) (t0 : Z)
    (evs : list Event) (s : Run)
    (Hrun : run opts (processChunks opts n t0) evs = Some s) :
  length (tasks s) = n ∧ admitted s ≤ n ∧
  (∀ i, i < admitted s → ∃ t, tasks s !! i = Some t ∧ submitted t = true) ∧
  (∀ i, admitted s ≤ i → i < n → tasks s !! i = Some Unsubmitted) ∧
  (∀ rest members winner,
     main s = AwaitRace rest members winner → rest = seq (admitted s) (n - admitted s)) ∧
  (∀ waiting result, main s = AwaitAll waiting result → admitted s = n).
Proof.
  destruct (run_orderly _ _ _ _ _ (processChunks_orderly opts n t0) Hrun)
    as [H1 H2 H3 H4 H5].
  assert (Hle : admitted s ≤ n).
  { rewrite <- H1. apply countb_le_length. }
  split_and!; try done.
  - intros i Hi.
    assert (Hf : (submitted <$> tasks s) !! i = Some true).
    { rewrite H2, lookup_app_l by (by rewrite length_replicate).
      by apply lookup_replicate_2. }
    apply list_lookup_fmap_Some in Hf as (t & Hs & Ht). eauto.
  - intros i Hi Hn.
    assert (Hf : (submitted <$> tasks s) !! i = Some false).
    { rewrite H2, lookup_app_r by (by rewrite length_replicate).
      rewrite length_replicate. apply lookup_replicate_2. lia. }
    apply list_lookup_fmap_Some in Hf as (t & Hs & Ht). by destruct t.
  - intros rest members winner Hm. by destruct (H3 _ _ _ Hm).
  - intros waiting result Hm. by destruct (H4 _ _ Hm).
Qed.

Lemma sources_admitted_in_order_witness :
  let opts := {| concurrency := Some 2%Z; onProgress := false |} in
  let c := {| blob := "x"; hash := "h"; index := 1; start := 1; end_ := 2 |} in
  let evs := [ChunkSettles 1 (Fulfilled c); TaskResumes 1;
              ProcessorSettles 1 (Fulfilled ()) None; FinallyRuns 1; MainResumes] in
  ∃ s, run opts (processChunks opts 5 0) evs = Some s ∧
       admitted s = 3 ∧ main s = AwaitRace [3; 4] [0; 2] None.
Proof.
  intros opts c evs.
  assert (Hs : is_Some (run opts (processChunks opts 5 0) evs)) by (vm_compute; eauto).
  destruct Hs as [s Hrun]. exists s. split; [exact Hrun|].
  destruct (sources_admitted_in_order opts 5 0 evs s Hrun) as (_ & _ & _ & _ & H5 & _).
  assert (Hm : main s = AwaitRace [3; 4] [0; 2] None).
  { vm_compute in Hrun. injection Hrun as <-. reflexivity. }
  split; [|exact Hm]. apply H5 in Hm.
  by destruct (admitted s) as [|[|[|[|[|k]]]]].
Defined.

(** ** The main function is never left waiting for nothing *)

Lemma inFlight_counted (l : list Task) i t :
  l !! i = Some t → inFlight t = true → 0 < countb inFlight l.
Proof.
  intros Hi Ht. unfold countb.
  assert (Hin : t ∈ filter (λ x, inFlight x) l).
  { apply list_elem_of_filter. split; [by rewrite Ht|by eapply list_elem_of_lookup_2]. }
  destruct (filter _ l); [by apply elem_of_nil in Hin|simpl; lia].
Qed.

Lemma idle_executing s :
  tracksInFlight s → inFlightCount s = 0 → executing s = [].
Proof.
  intros Htr Hc. apply elem_of_nil_inv. intros i (t & Hi & Ht)%Htr.
  pose proof (inFlight_counted _ _ _ Hi Ht). unfold inFlightCount in Hc. lia.
Qed.

Lemma allFinalized_idle s : allFinalized s → inFlightCount s = 0.
Proof.
  intros Hall. unfold inFlightCount.
  destruct (countb inFlight (tasks s)) eqn:Hc; [done|].
  assert (Hne : filter (λ x, inFlight x) (tasks s) ≠ []).
  { unfold countb in Hc. by destruct (filter _ (tasks s)). }
  destruct (filter _ (tasks s)) as [|t l] eqn:Hf; [done|].
  assert (Hin : t ∈ filter (λ x, inFlight x) (tasks s)) by (rewrite Hf; left).
  apply list_elem_of_filter in Hin as [Ht (i & Hi)%list_elem_of_lookup_1].
  destruct (Hall _ _ Hi) as [r ->]. done.
Qed.

Lemma allFinalized_admitted s : allFinalized s → admitted s = length (tasks s).
Proof.
  intros Hall. apply countb_all. apply Forall_forall.
  intros t (i & Hi)%list_elem_of_lookup_1. by destruct (Hall _ _ Hi) as [r ->].
Qed.

(** X10: the main function of [processChunks] is never left waiting for a
    promise that cannot settle.  At every moment of every run in which no
    task is in flight, the main promise has settled or the main function
    can continue; and once the promise of every task has settled, the main
    promise settles after at most two more resumptions of the main
    function. *)
Theorem main_not_blocked_when_idle (opts : ProcessOptions) (n : nat) (t0 : Z)
    (evs : list Event) (s : Run)
    (Hrun : run opts (processChunks opts n t0) evs = Some s) :
  (inFlightCount s = 0 →
   settledMain s = true ∨ is_Some (step opts s MainResumes)) ∧
  (allFinalized s →
   ∃ k s', k ≤ 2 ∧ run opts s (replicate k MainResumes) = Some s' ∧
           settledMain s' = true).
Proof.
  pose proof (run_orderly _ _ _ _ _ (processChunks_orderly opts n t0) Hrun) as Hord.
  destruct Hord as [H1 H2 H3 H4 H5].
  assert (Hblocked : inFlightCount s = 0 →
            (∀ rest members, main s ≠ AwaitRace rest members None) ∧
            (∀ waiting, main s ≠ AwaitAll waiting None)).
  { intros Hidle. split.
    - intros rest members Hm. destruct (H3 _ _ _ Hm) as (_ & Htr & Hmem).
      destruct (Hmem eq_refl) as [Hne Hsub].
      destruct members as [|j members]; [done|].
      pose proof (Hsub j (list_elem_of_here _ _)) as Hj.
      by rewrite (idle_executing _ Htr Hidle) in Hj; apply elem_of_nil in Hj.
    - intros waiting Hm. destruct (H4 _ _ Hm) as (_ & Htr & Hmem).
      destruct (Hmem eq_refl) as [Hne Hsub].
      destruct waiting as [|j waiting]; [done|].
      pose proof (Hsub j (list_elem_of_here _ _)) as Hj.
      by rewrite (idle_executing _ Htr Hidle) in Hj; apply elem_of_nil in Hj. }
  split.
  - intros Hidle. destruct (Hblocked Hidle) as [Hr Ha].
    unfold settledMain. cbn [step].
    destruct (main s) as [rest members [[v|e]|]|waiting [[v|e]|]|r] eqn:Hm;
      try (by left); try (by right; eauto).
    + right. destruct (checkCancelled (world s)); eauto.
    + by destruct (Hr rest members).
    + by destruct (Ha waiting).
  - intros Hall. pose proof (allFinalized_idle _ Hall) as Hidle.
    destruct (Hblocked Hidle) as [Hr Ha].
    destruct (main s) as [rest members [[v|e]|]|waiting [[v|e]|]|r] eqn:Hm.
    + destruct (H3 _ _ _ eq_refl) as (Hrest & Htr & _).
      rewrite (allFinalized_admitted _ Hall), H1, Nat.sub_diag in Hrest. simpl in Hrest.
      destruct (checkCancelled (world s)) as [e|] eqn:Hc.
      * exists 1, (settleMain (Rejected e) s). split; [lia|].
        cbn [replicate run step]. rewrite Hm, Hc. done.
      * exists 2, (settleMain (Fulfilled ()) (awaitAll s)). split; [lia|].
        cbn [replicate run step]. rewrite Hm, Hc, Hrest. cbn [mainLoop mbind option_bind].
        unfold awaitAll. rewrite (idle_executing _ Htr Hidle). done.
    + exists 1, (settleMain (Rejected e) s). split; [lia|].
      cbn [replicate run step]. rewrite Hm. done.
    + by destruct (Hr rest members).
    + exists 1, (settleMain (Fulfilled ()) s). split; [lia|].
      cbn [replicate run step]. rewrite Hm. done.
    + exists 1, (settleMain (Rejected e) s). split; [lia|].
      cbn [replicate run step]. rewrite Hm. done.
    + by destruct (Ha waiting).
    + exists 0, s. split; [lia|]. unfold settledMain. by rewrite Hm.
Qed.

Lemma main_not_blocked_when_idle_witness :
  let opts := {| concurrency := Some 1%Z; onProgress := true |} in
  let c := {| blob := "x"; hash := "h"; index := 0; start := 0; end_ := 1 |} in
  let evs := [ChunkSettles 0 (Fulfilled c); TaskResumes 0;
              ProcessorSettles 0 (Fulfilled ()) None; FinallyRuns 0] in
  ∃ s, run opts (processChunks opts 1 0) evs = Some s ∧
       settledMain s = false ∧
       ∃ k s', k ≤ 2 ∧ run opts s (replicate k MainResumes) = Some s' ∧
               settledMain s' = true.
Proof.
  intros opts c evs.
  assert (Hs : is_Some (run opts (processChunks opts 1 0) evs)) by (vm_compute; eauto).
  destruct Hs as [s Hrun]. exists s. split; [exact Hrun|].
  destruct (main_not_blocked_when_idle opts 1 0 evs s Hrun) as [_ H].
  assert (Hts : tasks s = [Finalized (Fulfilled ())] ∧ settledMain s = false).
  { vm_compute in Hrun. injection Hrun as <-. split; reflexivity. }
  destruct Hts as [Hts Hst]. split; [exact Hst|]. apply H.
  intros i t Hi. rewrite Hts in Hi. destruct i as [|i]; simpl in Hi; [|done].
  simplify_eq. by eexists.
Defined.

(** ** Only chunks of fulfilled sources reach the processor *)

Lemma prefix_rest (l : list Task) k n j :
  length l = n →
  submitted <$> l = replicate k true ++ replicate (n - k) false →
  k ≤ j → j < n → l !! j = Some Unsubmitted.
Proof.
  intros Hlen Hpre Hk Hn.
  assert (Hf : (submitted <$> l) !! j = Some false).
  { rewrite Hpre, lookup_app_r by (by rewrite length_replicate).
    rewrite length_replicate. apply lookup_replicate_2. lia. }
  apply list_lookup_fmap_Some in Hf as (t & Hs & Ht). by destruct t.
Qed.

Lemma mainLoop_frame opts rest s :
  invoked (mainLoop opts rest s) = invoked s ∧
  ∀ j, tasks (mainLoop opts rest s) !! j = tasks s !! j
       ∨ (j ∈ rest ∧ tasks (mainLoop opts rest s) !! j = Some AwaitChunk).
Proof.
  revert s. induction rest as [|i rest IH]; intros s; [by split; [|left]|].
  cbn [mainLoop]. destruct (checkCancelled (world s)); [by split; [|left]|].
  assert (Hsub : ∀ j, tasks (submit i s) !! j = tasks s !! j
                      ∨ (j = i ∧ tasks (submit i s) !! j = Some AwaitChunk)).
  { intros j. simpl. destruct (decide (j = i)) as [->|Hne].
    - destruct (decide (i < length (tasks s))).
      + right. split; [done|]. by apply list_lookup_insert_eq.
      + left. by rewrite list_insert_ge by lia.
    - left. by apply list_lookup_insert_ne. }
  case_bool_decide.
  - split; [done|]. intros j. simpl. destruct (Hsub j) as [?|[-> ?]]; [by left|].
    right. split; [left|done].
  - destruct (IH (submit i s)) as [Hinv Htasks]. split; [by rewrite Hinv|].
    intros j. destruct (Htasks j) as [Heq|[Hin Heq]].
    + rewrite Heq. destruct (Hsub j) as [?|[-> Hj]]; [by left|].
      right. split; [left|done].
    + right. split; [by right|done].
Qed.

Lemma gated_step evs ev s s' :
  gated evs s →
  (∀ j sig, (j, sig) ∈ invoked s' →
            (j, sig) ∈ invoked s ∨ ∃ pc, tasks s !! j = Some (InRetry pc)) →
  (∀ j, tasks s' !! j = Some Unsubmitted ∨ tasks s' !! j = Some AwaitChunk →
        tasks s !! j = Some Unsubmitted ∨ tasks s !! j = Some AwaitChunk) →
  (∀ j t e, tasks s !! j = Some t → taskRejected t e →
            ∃ t', tasks s' !! j = Some t' ∧ taskRejected t' e) →
  (∀ j pc', tasks s' !! j = Some (InRetry pc') →
            (∃ pc, tasks s !! j = Some (InRetry pc)) ∨ ∃ c, ev = ChunkSettles j (Fulfilled c)) →
  (∀ j e, ev = ChunkSettles j (Rejected e) →
          tasks s !! j = Some AwaitChunk ∧ tasks s' !! j = Some (Settling (Rejected e))) →
  gated (evs ++ [ev]) s'.
Proof.
  intros [G1 G2 G3 G4] Hinv Hpend Hrej Hretry Hev. constructor.
  - intros j Hj sig Hin. apply Hpend in Hj.
    destruct (Hinv _ _ Hin) as [Hold|[pc Hpc]]; [by apply (G1 j Hj sig)|].
    destruct Hj as [Hj|Hj]; rewrite Hj in Hpc; done.
  - intros j e [Hin|Hin]%elem_of_app.
    + destruct (G2 _ _ Hin) as [(t & Ht & Hr) Hun]. split; [by eapply Hrej|].
      intros sig Hin'. destruct (Hinv _ _ Hin') as [Hold|[pc Hpc]]; [by apply (Hun sig)|].
      rewrite Ht in Hpc. simplify_eq. by destruct Hr.
    + apply list_elem_of_singleton in Hin. destruct (Hev _ _ (eq_sym Hin)) as [Hold Hnew].
      split; [exists (Settling (Rejected e)); split; [done|by left]|].
      intros sig Hin'. destruct (Hinv _ _ Hin') as [Hold'|[pc Hpc]].
      * by apply (G1 j (or_intror Hold) sig).
      * rewrite Hold in Hpc. done.
  - intros j pc' Hj. destruct (Hretry _ _ Hj) as [[pc Hpc]|[c ->]].
    + destruct (G3 _ _ Hpc) as [c Hc]. exists c. apply elem_of_app. by left.
    + exists c. apply elem_of_app. right. by apply list_elem_of_singleton.
  - intros j sig Hin. destruct (Hinv _ _ Hin) as [Hold|[pc Hpc]].
    + destruct (G4 _ _ Hold) as [c Hc]. exists c. apply elem_of_app. by left.
    + destruct (G3 _ _ Hpc) as [c Hc]. exists c. apply elem_of_app. by left.
Qed.

(** One task moves on, possibly with a call of the processor. *)
Lemma gated_task_moves evs ev s s' i t t' :
  gated evs s → tasks s !! i = Some t → tasks s' = <[i := t']> (tasks s) →
  (invoked s' = invoked s
   ∨ ((∃ pc, t = InRetry pc) ∧ ∃ sig, invoked s' = invoked s ++ [(i, sig)])) →
  t' ≠ Unsubmitted → t' ≠ AwaitChunk →
  (∀ e, taskRejected t e → taskRejected t' e) →
  (∀ pc', t' = InRetry pc' → (∃ pc, t = InRetry pc) ∨ ∃ c, ev = ChunkSettles i (Fulfilled c)) →
  (∀ j e, ev = ChunkSettles j (Rejected e) →
          j = i ∧ t = AwaitChunk ∧ t' = Settling (Rejected e)) →
  gated (evs ++ [ev]) s'.
Proof.
  intros Hg Hi Htasks Hinv Hn1 Hn2 Hrej Hretry Hev.
  assert (Hlt : i < length (tasks s)) by (by eapply lookup_lt_Some).
  apply (gated_step evs ev s s' Hg).
  - intros j sig Hin. destruct Hinv as [Heq|[[pc ->] [sig' Heq]]];
      rewrite Heq in Hin; [by left|].
    apply elem_of_app in Hin as [?|Heq']; [by left|].
    rename Heq' into Heq''. apply list_elem_of_singleton in Heq''. simplify_eq.
    right. eauto.
  - intros j. rewrite Htasks. destruct (decide (j = i)) as [->|Hne].
    + rewrite list_lookup_insert_eq by done. intros [?|?]; by simplify_eq.
    + by rewrite list_lookup_insert_ne.
  - intros j t0 e Hj Hr. rewrite Htasks. destruct (decide (j = i)) as [->|Hne].
    + rewrite list_lookup_insert_eq by done. simplify_eq. eauto.
    + rewrite list_lookup_insert_ne by done. eauto.
  - intros j pc'. rewrite Htasks. destruct (decide (j = i)) as [->|Hne].
    + rewrite list_lookup_insert_eq by done. intros ?. simplify_eq.
      destruct (Hretry _ eq_refl) as [[pc ->]|?]; [left; eauto|by right].
    + rewrite list_lookup_insert_ne by done. left. eauto.
  - intros j e Hj. destruct (Hev _ _ Hj) as (-> & -> & ->). split; [done|].
    rewrite Htasks. by apply list_lookup_insert_eq.
Qed.

Lemma gated_same evs ev s s' :
  gated evs s → tasks s' = tasks s → invoked s' = invoked s →
  (∀ j r, ev ≠ ChunkSettles j r) →
  gated (evs ++ [ev]) s'.
Proof.
  intros Hg Htasks Hinv Hev. apply (gated_step evs ev s s' Hg); rewrite ?Htasks, ?Hinv.
  - by left.
  - done.
  - eauto.
  - left. eauto.
  - intros j e ->. by destruct (Hev j (Rejected e)).
Qed.

Lemma pending_taskOfPc (pc : Pc unit) :
  taskOfPc pc ≠ Unsubmitted ∧ taskOfPc pc ≠ AwaitChunk.
Proof. by destruct pc. Qed.

Lemma step_gated opts n evs s ev s' :
  orderly n s → gated evs s → step opts s ev = Some s' → gated (evs ++ [ev]) s'.
Proof.
  intros Hord Hg Hs. inv_step Hs Ht Hx Hap.
  - destruct (pending_taskOfPc p).
    eapply (gated_task_moves _ _ s _ i AwaitChunk); try done; try reflexivity.
    + by left.
    + by intros e [?|?].
    + right. eauto.
  - eapply (gated_task_moves _ _ s _ i AwaitChunk); try done; try reflexivity.
    + by left.
    + by intros e' [?|?].
    + intros j e' [= -> ->]. done.
  - destruct (pending_taskOfPc p).
    match goal with |- context [callsFn ?pc] => destruct (callsFn pc) end;
      (eapply (gated_task_moves _ _ s _ i (InRetry _)); try done; try reflexivity;
       [|by intros e [?|?]|left; eauto]).
    + right. split; [eauto|]. simpl. eauto.
    + by left.
  - apply afterProcessor_same in Hap as (Ht1 & He1 & Hm1 & Hw1 & Hi1).
    destruct (pending_taskOfPc p).
    eapply (gated_task_moves _ _ s _ i (InRetry _)); try done; try reflexivity.
    + simpl. by rewrite Ht1.
    + left. simpl. done.
    + by intros e [?|?].
    + left. eauto.
  - eapply (gated_task_moves _ _ s _ i (Settling r)); try done; try reflexivity.
    + by left.
    + intros e [[= ->]|?]; [by right|done].
  - by apply (gated_same _ _ s).
  - destruct Hord as [H1 H2 H3 H4 H5]. destruct (H3 _ _ _ Ht) as (Hrest & _).
    destruct (mainLoop_frame opts rest s) as [Hinv Htasks].
    assert (Hun : ∀ j, j ∈ rest → tasks s !! j = Some Unsubmitted).
    { intros j Hj. rewrite Hrest in Hj. apply elem_of_seq in Hj.
      apply (prefix_rest _ (admitted s) n); [done|done|lia..]. }
    apply (gated_step evs MainResumes s _ Hg); rewrite ?Hinv.
    + by left.
    + intros j Hj. destruct (Htasks j) as [Heq|[Hin Heq]]; [by rewrite <- Heq|].
      left. by apply Hun.
    + intros j t e Hj Hr. destruct (Htasks j) as [Heq|[Hin Heq]].
      * rewrite Heq. eauto.
      * apply Hun in Hin. rewrite Hj in Hin. simplify_eq. by destruct Hr.
    + intros j pc' Hj. left. destruct (Htasks j) as [Heq|[Hin Heq]].
      * rewrite <- Heq. eauto.
      * rewrite Hj in Heq. done.
    + done.
  - by apply (gated_same _ _ s).
  - by apply (gated_same _ _ s).
  - by apply (gated_same _ _ s).
  - by apply (gated_same _ _ s).
  - by apply (gated_same _ _ s).
  - by apply (gated_same _ _ s).
  - by apply (gated_same _ _ s).
  - by apply (gated_same _ _ s).
Qed.

Lemma processChunks_gated opts n t0 : gated [] (processChunks opts n t0).
Proof.
  unfold processChunks.
  match goal with |- gated [] (mainLoop _ _ ?s0) =>
    destruct (mainLoop_frame opts (seq 0 n) s0) as [Hinv Htasks] end.
  simpl in Hinv, Htasks. constructor; rewrite ?Hinv.
  - intros j _ sig Hin. by apply elem_of_nil in Hin.
  - intros j e Hin. by apply elem_of_nil in Hin.
  - intros j pc Hj. destruct (Htasks j) as [Heq|[_ Heq]]; rewrite Heq in Hj; [|done].
    by apply lookup_replicate in Hj as [? _].
  - intros j sig Hin. by apply elem_of_nil in Hin.
Qed.

Lemma run_gated opts n evs0 evs s s' :
  orderly n s → gated evs0 s → run opts s evs = Some s' → gated (evs0 ++ evs) s'.
Proof.
  revert evs0 s. induction evs as [|ev evs IH]; simpl; intros evs0 s Hord Hg Hrun.
  { simplify_eq. by rewrite app_nil_r. }
  destruct (step opts s ev) as [s1|] eqn:Hs; [|done]. simpl in Hrun.
  rewrite (cons_middle ev), app_assoc.
  eapply IH; [by eapply step_orderly|by eapply step_gated|done].
Qed.

(** X11: in every run of [processChunks] the processor is called only for
    chunks whose promise has been fulfilled.  A task whose chunk promise is
    rejected settles with that error and the processor is never called for
    it, then or later: a failed source is not retried. *)
Theorem processor_sees_only_fulfilled_sources (opts : ProcessOptions) (n : nat) (t0 : Z)
    (evs : list Event) (s : Run)
    (Hrun : run opts (processChunks opts n t0) evs = Some s) :
  (∀ i sig, (i, sig) ∈ invoked s → ∃ c, ChunkSettles i (Fulfilled c) ∈ evs) ∧
  (∀ i e, ChunkSettles i (Rejected e) ∈ evs →
          (∃ t, tasks s !! i = Some t ∧ taskRejected t e) ∧
          ∀ sig, (i, sig) ∉ invoked s) ∧
  (∀ i, tasks s !! i = Some Unsubmitted ∨ tasks s !! i = Some AwaitChunk →
        ∀ sig, (i, sig) ∉ invoked s).
Proof.
  destruct (run_gated opts n [] evs _ _ (processChunks_orderly opts n t0)
              (processChunks_gated opts n t0) Hrun) as [G1 G2 G3 G4].
  split_and!; done.
Qed.

Lemma processor_sees_only_fulfilled_sources_witness :
  let opts := {| concurrency := None; onProgress := false |} in
  let c := {| blob := "x"; hash := "h"; index := 1; start := 1; end_ := 2 |} in
  let evs := [ChunkSettles 0 (Rejected (Failure 7)); ChunkSettles 1 (Fulfilled c);
              TaskResumes 1; FinallyRuns 0; MainResumes] in
  ∃ s, run opts (processChunks opts 2 0) evs = Some s ∧
       invoked s = [(1, 0)] ∧ (∀ sig, (0, sig) ∉ invoked s) ∧
       main s = Done (Rejected (Failure 7)).
Proof.
  intros opts c evs.
  assert (Hs : is_Some (run opts (processChunks opts 2 0) evs)) by (vm_compute; eauto).
  destruct Hs as [s Hrun]. exists s. split; [exact Hrun|].
  destruct (processor_sees_only_fulfilled_sources opts 2 0 evs s Hrun) as (_ & H2 & _).
  destruct (H2 0 (Failure 7)) as [_ H3]; [left|].
  vm_compute in Hrun. injection Hrun as <-. split_and!; [reflexivity|exact H3|reflexivity].
Defined.

(** ** The calls of onProgress, in every run *)

Lemma countb_insert_false {A} (f : A → bool) l i y :
  f y = false → countb f (<[i := y]> l) ≤ countb f l.
Proof.
  intros Hy. destruct (l !! i) as [x|] eqn:Hi.
  - pose proof (countb_insert f _ _ _ y Hi) as Hc. rewrite Hy in Hc. lia.
  - apply lookup_ge_None in Hi. by rewrite list_insert_ge.
Qed.

Lemma mainLoop_tally opts rest s :
  progress (mainLoop opts rest s) = progress s ∧
  countb awaitsProcessor (tasks (mainLoop opts rest s)) ≤ countb awaitsProcessor (tasks s).
Proof.
  revert s. induction rest as [|i rest IH]; intros s; [done|].
  cbn [mainLoop]. destruct (checkCancelled (world s)); [done|].
  pose proof (countb_insert_false awaitsProcessor (tasks s) i AwaitChunk eq_refl) as Hle.
  case_bool_decide; [done|].
  destruct (IH (submit i s)) as [Hp Hc]. split; [by rewrite Hp|].
  simpl in Hc. lia.
Qed.

Lemma mainLoop_length opts rest s :
  length (tasks (mainLoop opts rest s)) = length (tasks s).
Proof.
  revert s. induction rest as [|i rest IH]; intros s; [done|].
  cbn [mainLoop]. destruct (checkCancelled (world s)); [done|].
  case_bool_decide; [simpl; by rewrite length_insert|].
  rewrite IH. simpl. by rewrite length_insert.
Qed.

Lemma awaitsProcessor_taskOfPc (pc : Pc unit) : awaitsProcessor (taskOfPc pc) = callsFn pc.
Proof. by destruct pc. Qed.

Lemma resumeRetry_waiting {T} (pc pc' : Pc T) w w' :
  resumeRetry pc w = Some (w', pc') → callsFn pc = false.
Proof. unfold resumeRetry. destruct (canResume pc w); [|done]. by destruct pc. Qed.

Lemma tallied_task_moves opts n s s' i t t' :
  tasks s !! i = Some t → awaitsProcessor t = false → awaitsProcessor t' = false →
  tasks s' = <[i := t']> (tasks s) → completed s' = completed s →
  progress s' = progress s → invoked s' = invoked s →
  tallied opts n s → tallied opts n s'.
Proof.
  intros Hi Ht Ht' Htasks Hc Hp Hinv [T1 T2 T3].
  pose proof (countb_insert awaitsProcessor _ _ _ t' Hi) as Hcount.
  rewrite Ht, Ht' in Hcount.
  constructor; rewrite ?Htasks, ?Hc, ?Hp, ?Hinv; [by rewrite length_insert|done|lia].
Qed.

Lemma tallied_same opts n s s' :
  tasks s' = tasks s → completed s' = completed s → progress s' = progress s →
  invoked s' = invoked s → tallied opts n s → tallied opts n s'.
Proof.
  intros Htasks Hc Hp Hinv [T1 T2 T3]. constructor; rewrite ?Htasks, ?Hc, ?Hp, ?Hinv; done.
Qed.

Lemma processChunks_tallied opts n t0 : tallied opts n (processChunks opts n t0).
Proof.
  unfold processChunks.
  match goal with |- tallied _ _ (mainLoop _ _ ?s0) =>
    destruct (mainLoop_tally opts (seq 0 n) s0) as [Hp Hc];
    destruct (mainLoop_frame opts (seq 0 n) s0) as [Hinv _];
    pose proof (completed_mainLoop opts (seq 0 n) s0) as Hcomp;
    pose proof (mainLoop_length opts (seq 0 n) s0) as Hlen
  end.
  simpl in Hp, Hc, Hinv, Hcomp, Hlen. rewrite length_replicate in Hlen.
  rewrite countb_replicate_false in Hc by done.
  constructor; rewrite ?Hp, ?Hinv, ?Hcomp; [done| |simpl; lia].
  unfold progressCalls. simpl. by destruct (onProgress opts).
Qed.

Lemma step_tallied opts n s ev s' :
  tallied opts n s → step opts s ev = Some s' → tallied opts n s'.
Proof.
  intros Htal Hs. inv_step Hs Ht Hx Hap.
  - apply executeWithRetry_threw in Hx as (_ & Hcalls & _).
    eapply (tallied_task_moves _ _ s _ i AwaitChunk (taskOfPc p));
      try done; try reflexivity.
    by rewrite awaitsProcessor_taskOfPc.
  - eapply (tallied_task_moves _ _ s _ i AwaitChunk (Settling (Rejected e)));
      try done; reflexivity.
  - pose proof (resumeRetry_waiting _ _ _ _ Hx) as Hold.
    assert (Hold' : awaitsProcessor (InRetry pc) = false) by (by destruct pc).
    destruct (callsFn p) eqn:Hcalls.
    + destruct Htal as [T1 T2 T3].
      pose proof (countb_insert awaitsProcessor _ _ _ (taskOfPc p) Ht) as Hcount.
      rewrite Hold', awaitsProcessor_taskOfPc, Hcalls in Hcount.
      constructor; simpl; [by rewrite length_insert|done|].
      rewrite length_app. simpl. lia.
    + eapply (tallied_task_moves _ _ s _ i (InRetry pc) (taskOfPc p));
        try done; try reflexivity.
      by rewrite awaitsProcessor_taskOfPc.
  - destruct Htal as [T1 T2 T3].
    assert (Hold : awaitsProcessor (InRetry pc) = true) by (by destruct pc).
    apply settleFn_cancelled in Hx as (_ & Hnew & _).
    assert (Htasks : tasks r0 = tasks s)
      by (by apply afterProcessor_same in Hap as (? & _)).
    assert (Hinv : invoked r0 = invoked s)
      by (by apply afterProcessor_same in Hap as (_ & _ & _ & _ & ?)).
    pose proof (countb_insert awaitsProcessor _ _ _ (taskOfPc p) Ht) as Hcount.
    rewrite Hold, awaitsProcessor_taskOfPc, Hnew in Hcount.
    assert (Hcp : completed r0 ≤ S (completed s) ∧
                  progress r0 = if onProgress opts then progressCalls n (completed r0) else []).
    { unfold afterProcessor in Hap.
      destruct r; destruct thrown; try destruct (onProgress opts) eqn:Hop;
        simplify_eq; simpl; rewrite ?Hop, ?T1, ?T2, ?progressCalls_S; split; (lia || done). }
    destruct Hcp as [Hc Hp].
    constructor; simpl; rewrite ?Htasks, ?Hinv; [by rewrite length_insert|done|lia].
  - eapply (tallied_task_moves _ _ s _ i (Settling r) (Finalized r));
      try done; reflexivity.
  - by apply (tallied_same _ _ s).
  - destruct Htal as [T1 T2 T3].
    destruct (mainLoop_tally opts rest s) as [Hp Hc].
    destruct (mainLoop_frame opts rest s) as [Hinv _].
    pose proof (completed_mainLoop opts rest s) as Hcomp.
    constructor; rewrite ?Hp, ?Hinv, ?Hcomp; [by rewrite mainLoop_length|done|lia].
  - by apply (tallied_same _ _ s).
  - by apply (tallied_same _ _ s).
  - by apply (tallied_same _ _ s).
  - by apply (tallied_same _ _ s).
  - by apply (tallied_same _ _ s).
  - by apply (tallied_same _ _ s).
  - by apply (tallied_same _ _ s).
  - by apply (tallied_same _ _ s).
Qed.

Lemma run_tallied opts n evs s s' :
  tallied opts n s → run opts s evs = Some s' → tallied opts n s'.
Proof.
  revert s. induction evs as [|ev evs IH]; simpl; intros s Htal Hrun; [by simplify_eq|].
  destruct (step opts s ev) as [s1|] eqn:Hs; [|done]. simpl in Hrun.
  eauto using step_tallied.
Qed.

(** X12: in every run of [processChunks] over [n] chunk promises, also one
    in which [onProgress] throws or attempts are retried, the calls of
    [onProgress] made so far are exactly (1, n), (2, n), ..., ([completed], n)
    in this order: one call per increment of the counter, its first
    argument one more than in the call before, its second always [n].
    Without the option no call is made.  The counter never exceeds the
    number of processor calls. *)
Theorem onProgress_calls_count_up (opts : ProcessOptions) (n : nat) (t0 : Z)
    (evs : list Event) (s : Run)
    (Hrun : run opts (processChunks opts n t0) evs = Some s) :
  progress s = (if onProgress opts then progressCalls n (completed s) else []) ∧
  (∀ k c total, progress s !! k = Some (c, total) → c = S k ∧ total = n) ∧
  (onProgress opts = true → length (progress s) = completed s) ∧
  completed s ≤ length (invoked s).
Proof.
  destruct (run_tallied _ _ _ _ _ (processChunks_tallied opts n t0) Hrun) as [T1 T2 T3].
  split_and!.
  - done.
  - intros k c total Hk. rewrite T2 in Hk. destruct (onProgress opts); [|done].
    unfold progressCalls in Hk.
    apply list_lookup_fmap_Some in Hk as (c' & [= -> ->] & Hc).
    apply lookup_seq in Hc as [-> _]. done.
  - intros Hop. rewrite T2, Hop. unfold progressCalls.
    by rewrite length_fmap, length_seq.
  - lia.
Qed.

Lemma onProgress_calls_count_up_witness :
  let opts := {| concurrency := None; onProgress := true |} in
  let c := {| blob := "x"; hash := "h"; index := 0; start := 0; end_ := 1 |} in
  let evs := [ChunkSettles 0 (Fulfilled c); ChunkSettles 1 (Fulfilled c); TaskResumes 0;
              ProcessorSettles 0 (Fulfilled ()) (Some (Failure 1));
              TimeoutFires 1; TaskResumes 0; TaskResumes 0; TaskResumes 1;
              ProcessorSettles 1 (Fulfilled ()) None;
              ProcessorSettles 0 (Fulfilled ()) None] in
  ∃ s, run opts (processChunks opts 2 0) evs = Some s ∧
       progress s = [(1, 2); (2, 2); (3, 2)] ∧ length (invoked s) = 3.
Proof.
  intros opts c evs.
  assert (Hs : is_Some (run opts (processChunks opts 2 0) evs)) by (vm_compute; eauto).
  destruct Hs as [s Hrun]. exists s. split; [exact Hrun|].
  destruct (onProgress_calls_count_up opts 2 0 evs s Hrun) as (H1 & _).
  assert (Hc : completed s = 3 ∧ length (invoked s) = 3).
  { vm_compute in Hrun. injection Hrun as <-. split; reflexivity. }
  destruct Hc as [Hc Hi]. split; [|exact Hi]. rewrite H1, Hc. reflexivity.
Defined.

(** ** What settling the main promise does *)

Lemma mainLoop_world opts rest s :
  world (mainLoop opts rest s) = world s ∨
  (cancelled (ctl (world s)) = true ∧ world (mainLoop opts rest s) = cleanup (world s)).
Proof.
  revert s. induction rest as [|i rest IH]; intros s; [by left|].
  cbn [mainLoop]. unfold checkCancelled.
  destruct (cancelled (ctl (world s))) eqn:Hc; [by right|].
  case_bool_decide; [by left|]. destruct (IH (submit i s)) as [?|[? ?]]; [by left|].
  simpl in *. congruence.
Qed.

Lemma mainLoop_pending opts rest s :
  checkCancelled (world s) = None → settledMain (mainLoop opts rest s) = false.
Proof.
  revert s. induction rest as [|i rest IH]; intros s Hc; [done|].
  cbn [mainLoop]. rewrite Hc. case_bool_decide; [done|]. by apply IH.
Qed.

Lemma step_world_ops opts s ev s' :
  step opts s ev = Some s' → ∃ ops, applyOps (world s) ops = Some (world s').
Proof.
  intros Hs. inv_step Hs Ht Hx Hap.
  - unfold executeWithRetry, loopHead in Hx.
    destruct (checkCancelled (world s)); simplify_eq; [by exists []|].
    destruct (waitIfPaused (world s)) as [w1 p1] eqn:Hw. simplify_eq.
    exists [OpWaitIfPaused]. simpl. by rewrite Hw.
  - by exists [].
  - assert (∃ ops, applyOps (world s) ops = Some w) as Hops.
    { unfold resumeRetry in Hx. destruct (canResume _ _); [|done].
      destruct pc; simplify_eq; [by exists []|].
      unfold loopHead in Hx. destruct (checkCancelled (world s)); simplify_eq; [by exists []|].
      destruct (waitIfPaused (world s)) as [w1 p1] eqn:Hw. simplify_eq.
      exists [OpWaitIfPaused]. simpl. by rewrite Hw. }
    by destruct (callsFn p).
  - apply afterProcessor_same in Hap as (_ & _ & _ & Hw & _). simpl. rewrite <- Hw.
    unfold settleFn in Hx. destruct pc; try done.
    destruct s0; simplify_eq; [by exists []|].
    unfold delay in Hx. simplify_eq. by exists [OpDelay (backoff retry)].
  - by exists [].
  - by exists [OpCleanup].
  - destruct (mainLoop_world opts rest s) as [->|[_ ->]]; [by exists []|by exists [OpCleanup]].
  - by exists [OpCleanup].
  - by exists [OpCleanup].
  - by exists [OpCleanup].
  - exists [OpFire h]. simpl. by rewrite Hx.
  - exists [OpElapse dt]. simpl. by rewrite Hx.
  - by exists [OpPause].
  - by exists [OpResume].
  - by exists [OpCancel].
Qed.

Lemma run_reachable opts evs s s' :
  reachable (world s) → run opts s evs = Some s' → reachable (world s').
Proof.
  revert s. induction evs as [|ev evs IH]; simpl; intros s Hw Hrun; [by simplify_eq|].
  destruct (step opts s ev) as [s1|] eqn:Hs; [|done]. simpl in Hrun.
  destruct (step_world_ops _ _ _ _ Hs) as (ops & Hops).
  eauto using reachable_applyOps.
Qed.

Lemma processChunks_reachable opts n t0 : reachable (world (processChunks opts n t0)).
Proof.
  unfold processChunks.
  match goal with |- reachable (world (mainLoop _ _ ?s0)) =>
    destruct (mainLoop_world opts (seq 0 n) s0) as [->|[Hc _]]; [|done] end.
  exists t0, []. reflexivity.
Qed.

Lemma step_settled_admits opts s ev s' res :
  main s = Done res → step opts s ev = Some s' →
  submitted <$> tasks s' = submitted <$> tasks s.
Proof.
  intros Hm Hs. inv_step Hs Ht Hx Hap; try done; try congruence.
  - simpl. apply (submitted_insert _ _ AwaitChunk); try done. apply submitted_taskOfPc.
  - simpl. by apply (submitted_insert _ _ AwaitChunk).
  - assert (submitted <$> <[i:=taskOfPc p]> (tasks s) = submitted <$> tasks s) as Heq.
    { apply (submitted_insert _ _ (InRetry pc)); try done. apply submitted_taskOfPc. }
    by destruct (callsFn p).
  - apply afterProcessor_same in Hap as (Ht1 & _). simpl. rewrite Ht1.
    apply (submitted_insert _ _ (InRetry pc)); try done. apply submitted_taskOfPc.
  - simpl. by apply (submitted_insert _ _ (Settling r)).
Qed.

Lemma run_settled opts evs s s' res :
  main s = Done res → run opts s evs = Some s' →
  main s' = Done res ∧ submitted <$> tasks s' = submitted <$> tasks s.
Proof.
  revert s. induction evs as [|ev evs IH]; simpl; intros s Hm Hrun; [by simplify_eq|].
  destruct (step opts s ev) as [s1|] eqn:Hs; [|done]. simpl in Hrun.
  pose proof (step_done _ _ _ _ _ Hm Hs) as Hm1.
  pose proof (step_settled_admits _ _ _ _ _ Hm Hs) as Ha1.
  destruct (IH _ Hm1 Hrun) as [? Ha2]. split; [done|congruence].
Qed.


(** X13: the main promise of [processChunks] settles only in a step of the
    main function, never in the call itself, and in that step the [finally]
    block has run: [cleanup()] on the controller, which leaves it unpaused
    with no timer armed, no timer entry and no pause resolver, and
    [executing] emptied.  The tasks are left as they are.  From then on the
    outcome stays what it is, [executing] stays empty and no further chunk
    promise is admitted. *)
Theorem settling_runs_the_finally_block (opts : ProcessOptions) (n : nat) (t0 : Z)
    (evs : list Event) (s : Run) (ev : Event) (s' : Run)
    (Hrun : run opts (processChunks opts n t0) evs = Some s)
    (Hpending : settledMain s = false)
    (Hstep : step opts s ev = Some s')
    (Hsettled : settledMain s' = true) :
  settledMain (processChunks opts n t0) = false ∧
  ev = MainResumes ∧ world s' = cleanup (world s) ∧
  tasks s' = tasks s ∧ completed s' = completed s ∧ executing s' = [] ∧
  timeouts (host (world s')) = [] ∧ timers (ctl (world s')) = [] ∧
  paused (ctl (world s')) = false ∧ pauseResolvers (ctl (world s')) = [] ∧
  ∀ post s2, run opts s' post = Some s2 →
    main s2 = main s' ∧ executing s2 = [] ∧
    submitted <$> tasks s2 = submitted <$> tasks s'.
Proof.
  pose proof (run_orderly _ _ _ _ _ (processChunks_orderly opts n t0) Hrun) as Hord.
  pose proof (step_orderly _ _ _ _ _ Hord Hstep) as Hord'.
  pose proof (run_reachable _ _ _ _ (processChunks_reachable opts n t0) Hrun) as Hreach.
  destruct (reachable_registered _ Hreach) as [R1 _].
  assert (Hafter : ∀ post s2, run opts s' post = Some s2 →
            main s2 = main s' ∧ executing s2 = [] ∧
            submitted <$> tasks s2 = submitted <$> tasks s').
  { intros post s2 Hpost. unfold settledMain in Hsettled.
    destruct (main s') as [| |res] eqn:Hm; try done.
    destruct (run_settled _ _ _ _ _ Hm Hpost) as [Hm2 Ha2]. split_and!; [done| |done].
    by apply (ord_done _ _ (run_orderly _ _ _ _ _ Hord' Hpost) res). }
  assert (Hfinally : ∀ res, s' = settleMain res s →
            ev = MainResumes → 
            ev = MainResumes ∧ world s' = cleanup (world s) ∧
            tasks s' = tasks s ∧ completed s' = completed s ∧ executing s' = [] ∧
            timeouts (host (world s')) = [] ∧ timers (ctl (world s')) = [] ∧
            paused (ctl (world s')) = false ∧ pauseResolvers (ctl (world s')) = []).
  { intros res -> Hev. split_and!; try done.
    apply (clearTimers_disarms (dropPaused (setPaused false (world s)))).
    intros t Ht. by apply R1. }
  split; [|].
  { unfold processChunks. apply mainLoop_pending. reflexivity. }
  assert (Hcases : (∃ res, s' = settleMain res s) ∧ ev = MainResumes).
  { clear Hafter Hfinally Hord'. unfold settledMain in *.
    inv_step Hstep Ht Hx Hap; simpl in Hsettled; try (by rewrite Hpending in Hsettled);
      try (split; [by eexists|done]).
    - destruct (callsFn p); simpl in Hsettled; by rewrite Hpending in Hsettled.
    - apply afterProcessor_same in Hap as (_ & _ & Hm & _).
      rewrite Hm in Hsettled. by rewrite Hpending in Hsettled.
    - destruct (main s) as [rest0 members0 [w0|]|waiting0 [w0|]|r1]; simpl in *; try done.
      + by case_bool_decide.
      + case_bool_decide; [destruct r|]; done.
    - pose proof (mainLoop_pending opts rest s Hx) as Hp. unfold settledMain in Hp.
      by rewrite Hp in Hsettled. }
  destruct Hcases as [[res Hres] Hev].
  destruct (Hfinally res Hres Hev) as (? & ? & ? & ? & ? & ? & ? & ? & ?).
  split_and!; done.
Qed.

Lemma settling_runs_the_finally_block_witness :
  let opts := {| concurrency := Some 1%Z; onProgress := false |} in
  let c := {| blob := "x"; hash := "h"; index := 0; start := 0; end_ := 1 |} in
  let evs := [ChunkSettles 0 (Fulfilled c); TaskResumes 0;
              ProcessorSettles 0 (Rejected (Failure 2)) None; UserPause; UserCancel;
              TaskResumes 0; FinallyRuns 0] in
  ∃ s s', run opts (processChunks opts 2 0) evs = Some s ∧
          step opts s MainResumes = Some s' ∧
          main s' = Done (Rejected TaskCancelled) ∧
          world s' = cleanup (world s) ∧ executing s' = [].
Proof.
  intros opts c evs.
  assert (Hs : is_Some (run opts (processChunks opts 2 0) evs)) by (vm_compute; eauto).
  destruct Hs as [s Hrun].
  assert (Hs : is_Some (step opts s MainResumes)).
  { vm_compute in Hrun. injection Hrun as <-. vm_compute. eauto. }
  destruct Hs as [s' Hstep]. exists s, s'.
  assert (Hm : settledMain s = false ∧ main s' = Done (Rejected TaskCancelled)).
  { vm_compute in Hrun. injection Hrun as <-. vm_compute in Hstep.
    injection Hstep as <-. split; reflexivity. }
  destruct Hm as [Hp Hm].
  destruct (settling_runs_the_finally_block opts 2 0 evs s MainResumes s' Hrun Hp Hstep)
    as (_ & _ & H3 & _ & _ & H6 & _).
  { unfold settledMain. by rewrite Hm. }
  split_and!; done.
Defined.

(** ** chunkFile: how a file is cut *)

Lemma ceilDiv_spec a b :
  (0 < b)%Z → ((ceilDiv a b - 1) * b < a ≤ ceilDiv a b * b)%Z.
Proof.
  intros Hb. unfold ceilDiv.
  pose proof (Z.div_mod (- a) b ltac:(lia)) as Hd.
  pose proof (Z.mod_pos_bound (- a) b Hb) as Hm. nia.
Qed.

Lemma ceilDiv_pos a b : (0 < a)%Z → (0 < b)%Z → (1 ≤ ceilDiv a b)%Z.
Proof. intros Ha Hb. pose proof (ceilDiv_spec a b Hb). nia. Qed.

Lemma substring_nil n m : String.substring n m "" = "".
Proof. by destruct n, m. Qed.

Lemma substring_split s n a b :
  String.substring n (a + b) s
  = String.substring n a s +:+ String.substring (n + a) b s.
Proof.
  revert n a. induction s as [|c s IH]; intros n a.
  { by rewrite !substring_nil. }
  destruct n as [|n]; simpl.
  - destruct a as [|a]; simpl; [done|]. rewrite (IH 0 a). reflexivity.
  - apply IH.
Qed.

Lemma substring_all s : String.substring 0 (String.length s) s = s.
Proof. induction s as [|c s IH]; simpl; [done|by rewrite IH]. Qed.

Lemma substring_length s n m :
  n + m ≤ String.length s → String.length (String.substring n m s) = m.
Proof.
  revert n m. induction s as [|c s IH]; intros n m; simpl.
  { intros ?. assert (n = 0 ∧ m = 0) as [-> ->] by lia. done. }
  destruct n as [|n]; simpl.
  - destruct m as [|m]; simpl; [done|]. intros ?. rewrite (IH 0 m); [done|lia].
  - intros ?. apply IH. lia.
Qed.

Lemma joined_snoc l s : joined (l ++ [s]) = joined l +:+ s.
Proof.
  unfold joined. induction l as [|x l IH]; simpl.
  - by rewrite append_empty_r.
  - by rewrite IH, append_assoc.
Qed.

Lemma relativeIndex_inside size x : (0 ≤ x ≤ size)%Z → relativeIndex size x = x.
Proof. intros ?. unfold relativeIndex. case_bool_decide; lia. Qed.

Lemma slice_inside file first last :
  (0 ≤ first ≤ last)%Z → (last ≤ fileSize file)%Z →
  slice file first last
  = String.substring (Z.to_nat first) (Z.to_nat (last - first)) (content file).
Proof.
  intros ? ?. unfold slice.
  rewrite !relativeIndex_inside by lia. by rewrite Z.max_l by lia.
Qed.

Lemma blob_chunkAt md5 file i size :
  (0 < size)%Z → (0 ≤ i)%Z → (i * size < fileSize file)%Z →
  blob (Worker.chunkAt md5 file i size)
  = String.substring (Z.to_nat (i * size))
      (Z.to_nat (Z.min ((i + 1) * size) (fileSize file) - i * size)) (content file).
Proof.
  intros Hs Hi Hlt. unfold Worker.chunkAt. cbn [blob].
  rewrite slice_inside by lia. do 2 f_equal. lia.
Qed.

Lemma blobs_joined md5 file size (k : nat) :
  (0 < size)%Z → ((Z.of_nat k - 1) * size < fileSize file)%Z →
  joined (blob <$> ((λ i, Worker.chunkAt md5 file i size) <$> seqZ 0 (Z.of_nat k)))
  = String.substring 0 (Z.to_nat (Z.min (Z.of_nat k * size) (fileSize file))) (content file).
Proof.
  intros Hs. induction k as [|k IH]; intros Hk.
  { rewrite seqZ_nil by lia. change (Z.of_nat 0) with 0%Z.
    rewrite Z.mul_0_l, Z.min_l by (unfold fileSize; lia). simpl.
    by destruct (content file). }
  rewrite seqZ_S, !fmap_app, !list_fmap_singleton, joined_snoc, IH by lia.
  rewrite blob_chunkAt by lia.
  rewrite Z.min_l by lia.
  replace (Z.to_nat (0 + Z.of_nat k)%Z) with (Z.to_nat (Z.of_nat k)) by (f_equal; lia).
  replace (0 + Z.of_nat k)%Z with (Z.of_nat k) by lia.
  replace (Z.to_nat (Z.of_nat k * size)) with (0 + Z.to_nat (Z.of_nat k * size)) at 2 by done.
  rewrite <- substring_split. f_equal. lia.
Qed.

(** X14: cut by a positive chunk size, a non-empty file gives
    ⌈size / chunkSize⌉ chunks that tile it: chunk [i] has index [i], starts
    at [i * chunkSize] where chunk [i - 1] ended, is not empty, holds the
    bytes of its range and their digest, and the last one ends with the
    file.  Joined in index order the blobs are the file. *)
Theorem chunks_tile_the_file (md5 : string → string) (file : File) (size : Z)
    (Hfile : (0 < fileSize file)%Z) (Hsize : (0 < size)%Z) :
  let total := ceilDiv (fileSize file) size in
  ((total - 1) * size < fileSize file ≤ total * size)%Z ∧
  length (chunksOf md5 file size) = Z.to_nat total ∧
  (∀ i, (0 ≤ i < total)%Z →
     ∃ c, chunksOf md5 file size !! Z.to_nat i = Some c ∧
          c = Worker.chunkAt md5 file i size ∧ index c = Z.to_nat i ∧
          start c = (i * size)%Z ∧
          end_ c = Z.min ((i + 1) * size) (fileSize file) ∧
          (start c < end_ c)%Z ∧
          ((i + 1)%Z = total → end_ c = fileSize file) ∧
          blob c = String.substring (Z.to_nat (start c)) (Z.to_nat (end_ c - start c))
                     (content file) ∧
          String.length (blob c) = Z.to_nat (end_ c - start c) ∧
          hash c = md5 (blob c)) ∧
  joined (blob <$> chunksOf md5 file size) = content file.
Proof.
  intros total. pose proof (ceilDiv_spec (fileSize file) size Hsize) as Hspec.
  pose proof (ceilDiv_pos _ _ Hfile Hsize) as Hpos. fold total in Hspec, Hpos.
  split_and!; try lia.
  - unfold chunksOf. by rewrite length_fmap, length_seqZ.
  - intros i Hi. exists (Worker.chunkAt md5 file i size).
    assert (Hlt : (i * size < fileSize file)%Z) by nia.
    pose proof (blob_chunkAt md5 file i size Hsize ltac:(lia) Hlt) as Hblob.
    split_and!; try done.
    + unfold chunksOf. rewrite list_lookup_fmap, lookup_seqZ_lt by lia.
      simpl. do 2 f_equal. lia.
    + simpl. f_equal. lia.
    + simpl. lia.
    + intros Hlast. simpl. nia.
    + rewrite Hblob. simpl. do 2 f_equal. lia.
    + rewrite Hblob. simpl. rewrite substring_length.
      * f_equal. lia.
      * unfold fileSize in *. lia.
  - unfold chunksOf, total in *.
    rewrite <- (Z2Nat.id (ceilDiv (fileSize file) size)) by lia.
    rewrite blobs_joined by (rewrite ?Z2Nat.id; lia).
    rewrite Z2Nat.id by lia. rewrite Z.min_r by lia.
    unfold fileSize. rewrite Nat2Z.id. apply substring_all.
Qed.

Lemma chunks_tile_the_file_witness :
  let file := {| content := "abcdefghij" |} in
  chunksOf (String.append "md5:") file 4
  = [ {| blob := "abcd"; hash := "md5:abcd"; index := 0; start := 0; end_ := 4 |};
      {| blob := "efgh"; hash := "md5:efgh"; index := 1; start := 4; end_ := 8 |};
      {| blob := "ij"; hash := "md5:ij"; index := 2; start := 8; end_ := 10 |} ] ∧
  joined (blob <$> chunksOf (String.append "md5:") file 4) = "abcdefghij".
Proof.
  intros file. split; [vm_compute; reflexivity|].
  by destruct (chunks_tile_the_file (String.append "md5:") file 4) as (_ & _ & _ & H).
Defined.

(** ** chunkFile: which worker cuts which chunks *)

Lemma elem_of_concat {A} (x : A) (ls : list (list A)) :
  x ∈ concat ls ↔ ∃ l, x ∈ l ∧ l ∈ ls.
Proof.
  induction ls as [|l ls IH]; simpl.
  - split; [by intros ?%elem_of_nil|]. by intros (l & _ & ?%elem_of_nil).
  - rewrite elem_of_app, IH. split.
    + intros [?|(l' & ? & ?)]; [exists l; split; [done|left]|].
      exists l'. split; [done|by right].
    + intros (l' & Hx & [->|?]%elem_of_cons); [by left|]. right. eauto.
Qed.

Lemma ranges_concat (perThread total : Z) (k : nat) :
  (0 < perThread)%Z → (0 ≤ total)%Z →
  concat ((λ i, seqZ (i * perThread)
                  (Z.min ((i + 1) * perThread) total - i * perThread))
          <$> seqZ 0 (Z.of_nat k))
  = seqZ 0 (Z.min (Z.of_nat k * perThread) total).
Proof.
  intros Hp Ht. induction k as [|k IH].
  { rewrite seqZ_nil by lia. simpl. by rewrite seqZ_nil by lia. }
  rewrite seqZ_S, fmap_app, concat_app, IH, list_fmap_singleton. simpl.
  rewrite app_nil_r. replace (0 + Z.of_nat k)%Z with (Z.of_nat k) by lia.
  destruct (decide (Z.of_nat k * perThread ≤ total)%Z) as [Hle|Hgt].
  - rewrite (Z.min_l (Z.of_nat k * perThread)) by lia.
    replace (Z.min (Z.of_nat (S k) * perThread) total)
      with (Z.of_nat k * perThread
            + (Z.min ((Z.of_nat k + 1) * perThread) total - Z.of_nat k * perThread))%Z
      by lia.
    rewrite seqZ_app by lia. done.
  - rewrite (seqZ_nil (Z.of_nat k * perThread)) by lia.
    rewrite app_nil_r. f_equal. lia.
Qed.

Lemma setResolvers_lookup n i :
  setResolvers n !! i
  = if bool_decide (0 ≤ i < Z.of_nat n)%Z then Some (Z.to_nat i) else None.
Proof.
  unfold setResolvers. induction n as [|n IH].
  { simpl. rewrite lookup_empty. case_bool_decide; [lia|done]. }
  rewrite seq_S, foldl_app. simpl.
  destruct (decide (i = Z.of_nat n)) as [->|Hne].
  - rewrite lookup_insert_eq. rewrite bool_decide_true by lia. by rewrite Nat2Z.id.
  - rewrite lookup_insert_ne by done. rewrite IH.
    repeat case_bool_decide; (done || lia).
Qed.

Lemma chunkFile_valid file options hw :
  (0 < fileSize file)%Z → (0 < chunkSizeOf file options)%Z →
  (ceilDiv (fileSize file) (chunkSizeOf file options) ≤ 4294967295)%Z →
  let size := chunkSizeOf file options in
  let total := ceilDiv (fileSize file) size in
  let threadCount := Z.min (coresOr4 hw) total in
  let perThread := ceilDiv total threadCount in
  chunkFile (Some file) options hw
  = inr {| chunkedFile := file; chunkedBy := size;
           resolving := {| resolvers := setResolvers (Z.to_nat total);
                           promises := replicate (Z.to_nat total) None |};
           workers := (λ i, createWorker (i * perThread)
                              (Z.min ((i + 1) * perThread) total))
                      <$> seqZ 0 threadCount |} ∧
  (1 ≤ threadCount ≤ total)%Z ∧ (0 < perThread)%Z ∧ (total ≤ threadCount * perThread)%Z.
Proof.
  intros Hfile Hsize Hmax size total threadCount perThread.
  pose proof (ceilDiv_pos _ _ Hfile Hsize) as Hpos. fold size total in Hpos.
  assert (Hcores : (1 ≤ coresOr4 hw)%Z) by (unfold coresOr4; destruct hw; lia).
  assert (Hthreads : (1 ≤ threadCount ≤ total)%Z) by (unfold threadCount; lia).
  pose proof (ceilDiv_spec total threadCount ltac:(lia)) as Hper. fold perThread in Hper.
  split_and!; try lia; try nia.
  unfold chunkFile. fold (chunkSizeOf file options). fold size.
  rewrite bool_decide_false by lia. rewrite bool_decide_false by lia.
  assert (Hmax' : (total ≤ 4294967295)%Z) by exact Hmax.
  fold (coresOr4 hw). fold total. rewrite bool_decide_false by lia.
  fold threadCount. fold perThread. do 3 f_equal. f_equal. lia.
Qed.

Lemma chunkFile_plan (file : File) (options : Options) (hw : nat)
    (Hfile : (0 < fileSize file)%Z)
    (Hsize : (0 < chunkSizeOf file options)%Z)
    (Hmax : (ceilDiv (fileSize file) (chunkSizeOf file options) ≤ 4294967295)%Z) :
  let total := ceilDiv (fileSize file) (chunkSizeOf file options) in
  ∃ c, chunkFile (Some file) options hw = inr c ∧
       chunkedFile c = file ∧ chunkedBy c = chunkSizeOf file options ∧
       promises (resolving c) = replicate (Z.to_nat total) None ∧
       resolvers (resolving c) = setResolvers (Z.to_nat total) ∧
       length (workers c) = Z.to_nat (Z.min (coresOr4 hw) total) ∧
       (1 ≤ Z.min (coresOr4 hw) total)%Z ∧
       concat (indicesOf <$> workers c) = seqZ 0 total.
Proof.
  intros total.
  destruct (chunkFile_valid file options hw Hfile Hsize Hmax)
    as (Heq & Hthreads & Hper & Hcover).
  fold total in Heq, Hthreads, Hper, Hcover.
  set (threadCount := Z.min (coresOr4 hw) total) in *.
  set (perThread := ceilDiv total threadCount) in *.
  eexists. split; [exact Heq|]. cbn [chunkedFile chunkedBy resolving workers promises resolvers].
  split_and!; try done; [by rewrite length_fmap, length_seqZ|lia|].
  transitivity (concat ((λ i, seqZ (i * perThread)
                                 (Z.min ((i + 1) * perThread) total - i * perThread))
                          <$> seqZ 0 (Z.of_nat (Z.to_nat threadCount)))).
  { rewrite Z2Nat.id by lia. f_equal. by rewrite <- list_fmap_compose. }
  rewrite (ranges_concat perThread total (Z.to_nat threadCount)) by lia.
  f_equal. rewrite Z2Nat.id by lia. lia.
Qed.

(** X15: for a non-empty file and a positive chunk size that give at most
    2^32 - 1 chunks, [chunkFile] returns one pending promise per chunk and
    creates between one worker and as many as there are cores (4 when the
    browser does not say), never more than there are chunks.  The index
    ranges given to the workers, taken in the order of the workers, are the
    chunk indices 0, 1, ..., in order: every chunk is cut by exactly one
    worker.  Every chunk index has its resolver in the map.  When there
    would be more than 2^32 - 1 chunks the call throws instead, when it
    creates the array of promises. *)
Theorem every_chunk_has_one_worker (file : File) (options : Options) (hw : nat)
    (Hfile : (0 < fileSize file)%Z)
    (Hsize : (0 < chunkSizeOf file options)%Z) :
  let total := ceilDiv (fileSize file) (chunkSizeOf file options) in
  ((4294967295 < total)%Z →
   chunkFile (Some file) options hw = inl InvalidArrayLength) ∧
  ((total ≤ 4294967295)%Z →
   ∃ c, chunkFile (Some file) options hw = inr c ∧
        chunkedFile c = file ∧ chunkedBy c = chunkSizeOf file options ∧
        promises (resolving c) = replicate (Z.to_nat total) None ∧
        (1 ≤ Z.of_nat (length (workers c)) ≤ Z.min (coresOr4 hw) total)%Z ∧
        concat (indicesOf <$> workers c) = seqZ 0 total ∧
        NoDup (concat (indicesOf <$> workers c)) ∧
        (∀ i, (0 ≤ i < total)%Z →
              resolvers (resolving c) !! i = Some (Z.to_nat i) ∧
              ∃ w sp, workers c !! w = Some sp ∧ i ∈ indicesOf sp) ∧
        (∀ i, ¬ (0 ≤ i < total)%Z → resolvers (resolving c) !! i = None)).
Proof.
  intros total. split.
  - intros Hmax. unfold chunkFile. fold (chunkSizeOf file options).
    rewrite bool_decide_false by lia. rewrite bool_decide_false by lia.
    fold total. by rewrite bool_decide_true.
  - intros Hmax.
    destruct (chunkFile_plan file options hw Hfile Hsize Hmax)
      as (c & Hc & Hf & Hby & Hprom & Hres & Hlen & Hthreads & Hcat).
    fold total in Hprom, Hres, Hlen, Hthreads, Hcat.
    exists c. split_and!; try done.
    + lia.
    + lia.
    + rewrite Hcat. apply NoDup_seqZ.
    + intros i Hi. split.
      * rewrite Hres, setResolvers_lookup. rewrite bool_decide_true by lia. done.
      * assert (Hin : i ∈ concat (indicesOf <$> workers c)).
        { rewrite Hcat. apply elem_of_seqZ. lia. }
        apply elem_of_concat in Hin as (l & Hil & Hl).
        apply list_elem_of_fmap in Hl as (sp & -> & Hsp).
        apply list_elem_of_lookup_1 in Hsp as (w & Hw). eauto.
    + intros i Hi. rewrite Hres, setResolvers_lookup. rewrite bool_decide_false by lia. done.
Qed.

Lemma every_chunk_has_one_worker_witness :
  let file := {| content := "abcdefghijklmnopqrstuvw" |} in
  ∃ c, chunkFile (Some file) {| chunkSize := Some 2%Z |} 8 = inr c ∧
       indicesOf <$> workers c
       = [[0; 1]; [2; 3]; [4; 5]; [6; 7]; [8; 9]; [10; 11]; []; []]%Z ∧
       concat (indicesOf <$> workers c) = seqZ 0 12.
Proof.
  intros file.
  destruct (every_chunk_has_one_worker file {| chunkSize := Some 2%Z |} 8)
    as [_ Hplan]; [done..|].
  destruct Hplan as (c & Hc & _ & _ & _ & _ & Hcat & _); [done|].
  exists c. split; [exact Hc|]. split; [|exact Hcat].
  vm_compute in Hc. injection Hc as <-. vm_compute. reflexivity.
Defined.

(** ** worker.ts: what a worker posts *)

Lemma processChunk_Some md5 file i size reads c rest :
  Worker.processChunk md5 file i size reads = Some (c, rest) →
  c = Worker.chunkAt md5 file i size ∧ ∃ k, reads = replicate k false ++ true :: rest.
Proof.
  induction reads as [|[] reads IH]; simpl; intros H; [done| |].
  - simplify_eq. split; [done|]. by exists 0.
  - destruct (IH H) as [-> [k ->]]. split; [done|]. by exists (S k).
Qed.

Lemma processChunk_None md5 file i size reads :
  Worker.processChunk md5 file i size reads = None ↔ Forall (λ b, b = false) reads.
Proof.
  induction reads as [|[] reads IH]; simpl.
  - split; [by constructor|done].
  - split; [done|]. by intros [[=] _]%Forall_cons.
  - rewrite IH. split; [by constructor|]. by intros [_ ?]%Forall_cons.
Qed.

Lemma processChunk_successes md5 file i size reads :
  0 < countb id reads →
  ∃ rest, Worker.processChunk md5 file i size reads
          = Some (Worker.chunkAt md5 file i size, rest) ∧
          countb id reads = S (countb id rest).
Proof.
  induction reads as [|[] reads IH]; rewrite ?countb_cons; simpl; intros H.
  - unfold countb in H. simpl in H. lia.
  - eauto.
  - destruct (IH H) as (rest & ? & ?). eauto.
Qed.

Lemma postChunks_prefix md5 file size first indices reads :
  ∃ k, Worker.postChunks md5 file size first indices reads
       = messageFor md5 file size first <$> take k indices.
Proof.
  revert reads. induction indices as [|i indices IH]; intros reads; simpl.
  { by exists 0. }
  destruct (Worker.processChunk md5 file i size reads) as [[c reads']|] eqn:Hp.
  - apply processChunk_Some in Hp as [-> _]. destruct (IH reads') as [k ->].
    by exists (S k).
  - by exists 0.
Qed.

Lemma postChunks_full md5 file size first indices reads :
  length indices ≤ countb id reads →
  Worker.postChunks md5 file size first indices reads
  = messageFor md5 file size first <$> indices.
Proof.
  revert reads. induction indices as [|i indices IH]; intros reads; simpl; [done|].
  intros Hle. destruct (processChunk_successes md5 file i size reads) as (rest & -> & Hc);
    [lia|].
  rewrite IH by lia. done.
Qed.

(** X16: the worker's [processChunk] tries again for as long as reading the
    blob fails, and when a read succeeds returns the chunk of its index,
    the same however many reads failed before; it does not return while
    every read fails.  [onmessage] therefore posts the chunks of its range
    in increasing order, each with its index relative to the start of the
    range: all of them if enough reads succeed, and otherwise the first
    ones, the loop being stuck at the next. *)
Theorem worker_posts_its_range_in_order (md5 : string → string) (file : File)
    (size first last : Z) (reads : list bool) :
  (∀ i c rest, Worker.processChunk md5 file i size reads = Some (c, rest) →
     c = Worker.chunkAt md5 file i size ∧ ∃ k, reads = replicate k false ++ true :: rest) ∧
  (∀ i, Worker.processChunk md5 file i size reads = None ↔ Forall (λ b, b = false) reads) ∧
  (∃ k, Worker.onmessage md5 file size first last reads
        = messageFor md5 file size first <$> take k (seqZ first (last - first))) ∧
  (Z.to_nat (last - first) ≤ countb id reads →
   Worker.onmessage md5 file size first last reads
   = messageFor md5 file size first <$> seqZ first (last - first)) ∧
  (∀ data, data ∈ Worker.onmessage md5 file size first last reads →
     (first ≤ first + chunkIndex data < last)%Z ∧
     chunk data = Worker.chunkAt md5 file (first + chunkIndex data) size).
Proof.
  split_and!.
  - intros i c rest. apply processChunk_Some.
  - intros i. apply processChunk_None.
  - apply postChunks_prefix.
  - intros Hle. apply postChunks_full. by rewrite length_seqZ.
  - intros data. unfold Worker.onmessage.
    destruct (postChunks_prefix md5 file size first (seqZ first (last - first)) reads)
      as [k ->].
    intros (i & -> & Hi)%list_elem_of_fmap. simpl.
    apply elem_of_take in Hi as (j & Hi & _).
    apply list_elem_of_lookup_2, elem_of_seqZ in Hi.
    replace (first + (i - first))%Z with i by lia. split; [lia|done].
Qed.

(** ** The messages of the workers settle the promises *)

Lemma awaited_messageFor md5 file size first l :
  awaited (first, messageFor md5 file size first <$> l) = l.
Proof.
  unfold awaited. simpl. rewrite <- list_fmap_compose.
  rewrite <- (list_fmap_id l) at 2. apply list_fmap_ext. intros _ i _. simpl. lia.
Qed.

Lemma sublist_concat {A} (ls1 ls2 : list (list A)) :
  Forall2 sublist ls1 ls2 → concat ls1 `sublist_of` concat ls2.
Proof. induction 1; simpl; [done|by apply sublist_app]. Qed.

Lemma awaited_deliver (boxes : list (Z * list Message)) w first data rest :
  boxes !! w = Some (first, data :: rest) →
  ∃ pre post,
    concat (awaited <$> boxes) = pre ++ (first + chunkIndex data)%Z :: post ∧
    concat (awaited <$> <[w := (first, rest)]> boxes) = pre ++ post.
Proof.
  intros Hw. exists (concat (awaited <$> take w boxes)),
    (awaited (first, rest) ++ concat (awaited <$> drop (S w) boxes)).
  split.
  - rewrite <- (take_drop_middle _ _ _ Hw) at 1.
    by rewrite fmap_app, concat_app, fmap_cons.
  - rewrite insert_take_drop by (by eapply lookup_lt_Some).
    by rewrite fmap_app, concat_app, fmap_cons.
Qed.

Lemma resolveWith_length p c ps : length (resolveWith p c ps) = length ps.
Proof.
  unfold resolveWith. destruct (ps !! p) as [[|]|]; [done| |done].
  by rewrite length_insert.
Qed.

Lemma resolveWith_ne p c ps q : q ≠ p → resolveWith p c ps !! q = ps !! q.
Proof.
  intros Hne. unfold resolveWith. destruct (ps !! p) as [[c'|]|]; try done.
  by apply list_lookup_insert_ne.
Qed.

Lemma resolveWith_pending p c ps :
  ps !! p = Some None → resolveWith p c ps !! p = Some (Some c).
Proof.
  intros Hp. unfold resolveWith. rewrite Hp.
  apply list_lookup_insert_eq. by eapply lookup_lt_Some.
Qed.

(** Receiving the next message of a worker: the handler finds its resolver,
    and what held before still holds. *)
Lemma deliver_wiredUp md5 file size total w s :
  wiredUp md5 file size s →
  deliver w s ≠ ResolverMissing ∧
  ∀ s', deliver w s = Received s' →
        wiredUp md5 file size s' ∧
        length (promises (wired s')) = length (promises (wired s)) ∧
        length (inbox s') = length (inbox s) ∧
        (accounted md5 file size total s → accounted md5 file size total s').
Proof.
  intros [W1 W2 W3]. unfold deliver.
  destruct (inbox s !! w) as [[first [|data rest]]|] eqn:Hw; try done.
  destruct (W2 w first (data :: rest) data Hw (list_elem_of_here _ _))
    as (Hpos & Hchunk & Hres & Hprom).
  unfold workerOnmessage. rewrite Hres. split; [done|].
  intros s' [= <-]. cbn [wired inbox resolvers promises].
  destruct (awaited_deliver _ _ _ _ _ Hw) as (pre & post & Hold & Hnew).
  rewrite Hold in W1. apply NoDup_app in W1 as (Hpre & Hdisj & Hpost).
  apply NoDup_cons in Hpost as [Hnotin Hpost].
  set (j := (first + chunkIndex data)%Z) in *.
  assert (Hmem : ∀ i, i ∈ pre ++ post → i ≠ j ∧ i ∈ concat (awaited <$> inbox s)).
  { intros i Hi. rewrite Hold. split.
    - intros ->. apply elem_of_app in Hi as [Hi|Hi]; [|done].
      apply (Hdisj _ Hi). left.
    - apply elem_of_app in Hi as [Hi|Hi]; apply elem_of_app; [by left|].
      right. by right. }
  split_and!.
  - constructor; cbn [wired inbox resolvers promises].
    + rewrite Hnew. apply NoDup_app. split_and!; [done| |done].
      intros x Hx Hx'. apply (Hdisj _ Hx). by right.
    + intros w' first' msgs' data' Hw' Hdata'.
      assert (Hin : (first' + chunkIndex data')%Z ∈ pre ++ post).
      { rewrite <- Hnew. apply elem_of_concat. exists (awaited (first', msgs')).
        split.
        - apply list_elem_of_fmap. by exists data'.
        - apply list_elem_of_fmap. exists (first', msgs'). split; [done|].
          by eapply list_elem_of_lookup_2. }
      destruct (Hmem _ Hin) as [Hne _].
      assert (Hold' : ∃ msgs0, inbox s !! w' = Some (first', msgs0) ∧ data' ∈ msgs0).
      { destruct (decide (w' = w)) as [->|Hnw].
        - rewrite list_lookup_insert_eq in Hw' by (by eapply lookup_lt_Some).
          simplify_eq. exists (data :: msgs'). split; [done|by right].
        - rewrite list_lookup_insert_ne in Hw' by done. eauto. }
      destruct Hold' as (msgs0 & Hw0 & Hd0).
      destruct (W2 _ _ _ _ Hw0 Hd0) as (? & ? & ? & Hp0).
      split_and!; try done.
      * by rewrite lookup_delete_ne.
      * rewrite resolveWith_ne; [done|].
        intros Heq. apply Hne. apply Z2Nat.inj in Heq; lia.
    + intros p c. destruct (decide (p = Z.to_nat j)) as [->|Hp].
      * rewrite resolveWith_pending by done. intros [= <-]. rewrite Hchunk. f_equal.
        rewrite Z2Nat.id by lia. done.
      * rewrite resolveWith_ne by done. apply W3.
  - apply resolveWith_length.
  - apply length_insert.
  - unfold accounted. cbn [wired inbox resolvers promises].
    intros Hacc i Hi. rewrite Hnew in Hi.
    destruct (decide (i = j)) as [->|Hne].
    + split; [apply lookup_delete_eq|]. intros _.
      rewrite resolveWith_pending by done. by rewrite Hchunk.
    + assert (Hi' : i ∉ concat (awaited <$> inbox s)).
      { rewrite Hold. intros [?|[?|?]%elem_of_cons]%elem_of_app; [|done|].
        - apply Hi. apply elem_of_app. by left.
        - apply Hi. apply elem_of_app. by right. }
      destruct (Hacc i Hi') as [Hr Hp]. split; [by rewrite lookup_delete_ne|].
      intros Hrange. rewrite resolveWith_ne; [by apply Hp|].
      intros Heq. apply Hne. apply Z2Nat.inj in Heq; lia.
Qed.

Lemma deliverAll_wiredUp md5 file size total order s :
  wiredUp md5 file size s →
  deliverAll order s ≠ ResolverMissing ∧
  ∀ s', deliverAll order s = Received s' →
        wiredUp md5 file size s' ∧
        length (promises (wired s')) = length (promises (wired s)) ∧
        length (inbox s') = length (inbox s) ∧
        (accounted md5 file size total s → accounted md5 file size total s').
Proof.
  revert s. induction order as [|w order IH]; intros s Hw; simpl.
  { split; [done|]. intros s' [= <-]. done. }
  destruct (deliver_wiredUp md5 file size total w s Hw) as [Hne Hstep].
  destruct (deliver w s) as [s1| |] eqn:Hd; [|done|done].
  destruct (Hstep s1 eq_refl) as (Hw1 & Hl1 & Hb1 & Ha1).
  destruct (IH s1 Hw1) as [Hne' Hrest]. split; [done|].
  intros s' Hs'. destruct (Hrest s' Hs') as (? & ? & ? & Ha2).
  split_and!; [done|congruence|congruence|auto].
Qed.

Lemma wire_box md5 c reads w first msgs :
  inbox (wire md5 c reads) !! w = Some (first, msgs) →
  ∃ sp k, workers c !! w = Some sp ∧ first = firstIndex sp ∧
          msgs = messageFor md5 (chunkedFile c) (chunkedBy c) first <$> take k (indicesOf sp) ∧
          (length (indicesOf sp) ≤ countb id (default [] (reads !! w)) →
           msgs = messageFor md5 (chunkedFile c) (chunkedBy c) first <$> indicesOf sp).
Proof.
  unfold wire. cbn [inbox]. intros (sp & Hsp & [= -> ->])%list_lookup_imap_Some.
  destruct (postChunks_prefix md5 (chunkedFile c) (chunkedBy c) (firstIndex sp)
              (indicesOf sp) (default [] (reads !! w))) as [k Hk].
  exists sp, k. split_and!; try done. intros Hle. by apply postChunks_full.
Qed.

Lemma wire_wiredUp md5 c reads total :
  promises (resolving c) = replicate (Z.to_nat total) None →
  concat (indicesOf <$> workers c) = seqZ 0 total →
  (∀ i, (0 ≤ i < total)%Z → resolvers (resolving c) !! i = Some (Z.to_nat i)) →
  wiredUp md5 (chunkedFile c) (chunkedBy c) (wire md5 c reads).
Proof.
  intros Hprom Hcat Hres. constructor.
  - apply (sublist_NoDup _ (concat (indicesOf <$> workers c)));
      [rewrite Hcat; apply NoDup_seqZ|].
    apply sublist_concat, Forall2_fmap, Forall2_same_length_lookup.
    split; [unfold wire; cbn [inbox]; by rewrite length_imap|].
    intros w [first msgs] sp Hbox Hsp.
    destruct (wire_box _ _ _ _ _ _ Hbox) as (sp' & k & Hsp' & -> & -> & _).
    simplify_eq. rewrite awaited_messageFor. apply sublist_take.
  - intros w first msgs data Hbox Hdata.
    destruct (wire_box _ _ _ _ _ _ Hbox) as (sp & k & Hsp & -> & -> & _).
    apply list_elem_of_fmap in Hdata as (i & -> & Hi). simpl.
    replace (firstIndex sp + (i - firstIndex sp))%Z with i by lia.
    assert (Hrange : (0 ≤ i < total)%Z).
    { apply elem_of_take in Hi as (j & Hi & _). apply list_elem_of_lookup_2 in Hi.
      assert (Hin : i ∈ concat (indicesOf <$> workers c)).
      { apply elem_of_concat. exists (indicesOf sp). split; [done|].
        apply list_elem_of_fmap. exists sp. split; [done|].
        by eapply list_elem_of_lookup_2. }
      rewrite Hcat in Hin. apply elem_of_seqZ in Hin. lia. }
    split_and!; [lia|done|by apply Hres|].
    cbn [wire wired]. rewrite Hprom. apply lookup_replicate_2. lia.
  - intros p ch. cbn [wire wired]. rewrite Hprom.
    by intros [? _]%lookup_replicate.
Qed.

Lemma wire_accounted md5 c reads total :
  concat (indicesOf <$> workers c) = seqZ 0 total →
  (∀ i, ¬ (0 ≤ i < total)%Z → resolvers (resolving c) !! i = None) →
  (∀ w sp, workers c !! w = Some sp →
           length (indicesOf sp) ≤ countb id (default [] (reads !! w))) →
  accounted md5 (chunkedFile c) (chunkedBy c) total (wire md5 c reads).
Proof.
  intros Hcat Hnone Hreads.
  assert (Heq : awaited <$> inbox (wire md5 c reads) = indicesOf <$> workers c).
  { apply list_eq. intros w. rewrite !list_lookup_fmap.
    destruct (inbox (wire md5 c reads) !! w) as [[first msgs]|] eqn:Hbox.
    - destruct (wire_box _ _ _ _ _ _ Hbox) as (sp & k & Hsp & -> & _ & Hfull).
      rewrite Hsp. simpl. rewrite (Hfull (Hreads _ _ Hsp)).
      by rewrite awaited_messageFor.
    - apply lookup_ge_None in Hbox. unfold wire in Hbox. cbn [inbox] in Hbox.
      rewrite length_imap in Hbox. apply lookup_ge_None in Hbox. by rewrite Hbox. }
  intros i Hi. rewrite Heq, Hcat in Hi.
  assert (Hout : ¬ (0 ≤ i < total)%Z).
  { intros ?. apply Hi, elem_of_seqZ. lia. }
  split; [by apply Hnone|done].
Qed.

(** X17: for a non-empty file and a positive chunk size, in whatever order
    the messages of the workers reach the main thread, each worker's in the
    order it posts them: the handler always finds the resolver it looks up
    (it never throws), and a promise that has been settled holds the chunk
    of its own position in the array.  If in every worker enough reads
    succeed for it to finish its range, then once every message has been
    received every promise is fulfilled, with the chunks of the file in
    index order, and the map of resolvers is empty. *)
Theorem worker_messages_settle_the_promises (md5 : string → string) (file : File)
    (options : Options) (hw : nat) (reads : list (list bool)) (order : list nat)
    (Hfile : (0 < fileSize file)%Z)
    (Hsize : (0 < chunkSizeOf file options)%Z)
    (Hmax : (ceilDiv (fileSize file) (chunkSizeOf file options) ≤ 4294967295)%Z) :
  let size := chunkSizeOf file options in
  ∃ c, chunkFile (Some file) options hw = inr c ∧
       deliverAll order (wire md5 c reads) ≠ ResolverMissing ∧
       ∀ s, deliverAll order (wire md5 c reads) = Received s →
         length (promises (wired s)) = Z.to_nat (ceilDiv (fileSize file) size) ∧
         (∀ p ch, promises (wired s) !! p = Some (Some ch) →
                  ch = Worker.chunkAt md5 file (Z.of_nat p) size ∧ index ch = p) ∧
         ((∀ w sp, workers c !! w = Some sp →
                   length (indicesOf sp) ≤ countb id (default [] (reads !! w))) →
          (∀ w box, inbox s !! w = Some box → box.2 = []) →
          promises (wired s) = Some <$> chunksOf md5 file size ∧
          resolvers (wired s) = ∅).
Proof.
  intros size.
  destruct (chunkFile_plan file options hw Hfile Hsize Hmax)
    as (c & Hc & Hf & Hby & Hprom & Hmap & _ & _ & Hcat).
  fold size in Hby, Hprom, Hcat, Hmap.
  set (total := ceilDiv (fileSize file) size) in *.
  exists c. split; [exact Hc|].
  assert (Hpos : (1 ≤ total)%Z) by (by apply ceilDiv_pos).
  assert (Hres : ∀ i, (0 ≤ i < total)%Z → resolvers (resolving c) !! i = Some (Z.to_nat i)).
  { intros i Hi. rewrite Hmap, setResolvers_lookup. by rewrite bool_decide_true by lia. }
  assert (Hnone : ∀ i, ¬ (0 ≤ i < total)%Z → resolvers (resolving c) !! i = None).
  { intros i Hi. rewrite Hmap, setResolvers_lookup. by rewrite bool_decide_false by lia. }
  pose proof (wire_wiredUp md5 c reads total Hprom Hcat Hres) as Hw.
  rewrite Hf, Hby in Hw.
  destruct (deliverAll_wiredUp md5 file size total order _ Hw) as [Hne Hall].
  split; [exact Hne|]. intros s Hs.
  destruct (Hall s Hs) as ([W1 W2 W3] & Hlen & Hbox & Hacc).
  assert (Hlen' : length (promises (wired s)) = Z.to_nat total).
  { rewrite Hlen. cbn [wire wired]. by rewrite Hprom, length_replicate. }
  split_and!; [exact Hlen'| |].
  - intros p ch Hp. pose proof (W3 p ch Hp) as ->. split; [done|].
    simpl. apply Nat2Z.id.
  - intros Hreads Hempty.
    pose proof (wire_accounted md5 c reads total Hcat Hnone Hreads) as Hacc0.
    rewrite Hf, Hby in Hacc0. specialize (Hacc Hacc0).
    assert (Hnil : concat (awaited <$> inbox s) = []).
    { apply elem_of_nil_inv. intros i (l & Hi & Hl)%elem_of_concat.
      apply list_elem_of_fmap in Hl as (box & -> & Hb).
      apply list_elem_of_lookup_1 in Hb as (w & Hb).
      unfold awaited in Hi. rewrite (Hempty _ _ Hb) in Hi. by apply elem_of_nil in Hi. }
    split.
    + apply list_eq. intros p. unfold chunksOf. fold total.
      rewrite !list_lookup_fmap.
      destruct (decide (p < Z.to_nat total)) as [Hp|Hp].
      * destruct (Hacc (Z.of_nat p)) as [_ Hset]; [rewrite Hnil; apply not_elem_of_nil|].
        rewrite Nat2Z.id in Hset. rewrite Hset by lia.
        rewrite lookup_seqZ_lt by lia. simpl. do 3 f_equal. 
      * rewrite (proj2 (lookup_ge_None _ _)) by lia.
        rewrite lookup_seqZ_ge by lia. done.
    + apply map_empty. intros i.
      destruct (Hacc i) as [Hr _]; [rewrite Hnil; apply not_elem_of_nil|done].
Qed.

Lemma worker_messages_settle_the_promises_witness :
  let file := {| content := "abcdefghij" |} in
  let md5 := String.append "md5:" in
  ∃ c s, chunkFile (Some file) {| chunkSize := Some 4%Z |} 2 = inr c ∧
         deliverAll [1; 0; 0]
           (wire md5 c [[false; true; true]; [true]]) = Received s ∧
         promises (wired s) = Some <$> chunksOf md5 file 4 ∧
         resolvers (wired s) = ∅.
Proof.
  intros file md5.
  destruct (worker_messages_settle_the_promises md5 file {| chunkSize := Some 4%Z |} 2
              [[false; true; true]; [true]] [1; 0; 0])
    as (c & Hc & _ & H); [done..|].
  exists c.
  assert (Hs : ∃ s, deliverAll [1; 0; 0] (wire md5 c [[false; true; true]; [true]])
                    = Received s ∧
                    (∀ w box, inbox s !! w = Some box → box.2 = []) ∧
                    workers c = [createWorker 0 2; createWorker 2 3]).
  { vm_compute in Hc. injection Hc as <-. eexists. split; [vm_compute; reflexivity|].
    split; [|reflexivity].
    intros [|[|w]] box; simpl; intros; simplify_eq; done. }
  destruct Hs as (s & Hs & Hempty & Hworkers). exists s.
  split; [exact Hc|]. split; [exact Hs|].
  destruct (H s Hs) as (_ & _ & Hdone). apply Hdone; [|exact Hempty].
  intros w sp. rewrite Hworkers.
  destruct w as [|[|w]]; simpl; intros; simplify_eq; vm_compute; lia.
Defined.

(** ** From a file to its chunks and back *)

(** X18: the round trip through the package.  For a non-empty file and a
    positive chunk size, once the chunk promises of [chunkFile] have been
    fulfilled in whatever order, [collectChunks] returns the chunks in index
    order, their blobs joined are the file, and [calculateFileHash] returns
    the digest of the joined digests of those blobs. *)
Theorem collected_chunks_rebuild_the_file (md5 : string → string) (file : File)
    (size : Z) (order : list nat)
    (Hfile : (0 < fileSize file)%Z) (Hsize : (0 < size)%Z)
    (Horder : ∀ i, i < length (chunksOf md5 file size) → i ∈ order) :
  ∃ chunks,
    collectChunks (Fulfilled <$> chunksOf md5 file size) order = Some (Fulfilled chunks) ∧
    index <$> chunks = seq 0 (length chunks) ∧
    joined (blob <$> chunks) = content file ∧
    calculateFileHash md5 (Fulfilled <$> chunksOf md5 file size) order
    = Some (Fulfilled (md5 (joined ((λ c, md5 (blob c)) <$> chunks)))).
Proof.
  exists (chunksOf md5 file size).
  pose proof (settleInOrder_all_fulfilled (chunksOf md5 file size) order Horder) as Hall.
  pose proof (ceilDiv_pos _ _ Hfile Hsize) as Hpos.
  pose proof (ceilDiv_spec (fileSize file) size Hsize) as Hspec.
  split_and!.
  - exact Hall.
  - unfold chunksOf. rewrite length_fmap, length_seqZ, <- list_fmap_compose.
    apply list_eq. intros i. rewrite list_lookup_fmap.
    destruct (decide (i < Z.to_nat (ceilDiv (fileSize file) size))) as [Hi|Hi].
    + rewrite lookup_seqZ_lt by lia. rewrite lookup_seq_lt by lia. simpl.
      f_equal. lia.
    + rewrite lookup_seqZ_ge by lia. rewrite lookup_seq_ge by lia. done.
  - unfold chunksOf.
    rewrite <- (Z2Nat.id (ceilDiv (fileSize file) size)) by lia.
    rewrite blobs_joined by (rewrite ?Z2Nat.id; lia).
    rewrite Z2Nat.id by lia. rewrite Z.min_r by lia.
    unfold fileSize. rewrite Nat2Z.id. apply substring_all.
  - unfold calculateFileHash. rewrite Hall, hashChunks_joined. do 3 f_equal.
    unfold chunksOf. rewrite <- !list_fmap_compose. done.
Qed.

Lemma collected_chunks_rebuild_the_file_witness :
  let file := {| content := "abcdefghij" |} in
  let md5 := String.append "md5:" in
  calculateFileHash md5 (Fulfilled <$> chunksOf md5 file 4) [2; 0; 1]
  = Some (Fulfilled "md5:md5:abcdmd5:efghmd5:ij").
Proof.
  intros file md5.
  destruct (collected_chunks_rebuild_the_file md5 file 4 [2; 0; 1])
    as (chunks & Hc & _ & _ & Hh); [done|done| |].
  { intros i Hi. vm_compute in Hi.
    destruct i as [|[|[|i]]]; [right; left|right; right; left|left|lia]. }
  vm_compute in Hc. injection Hc as <-. rewrite Hh. vm_compute. reflexivity.
Defined.

(** ** calculateFileHash when a chunk promise fails, or there is none *)

(** X19: [calculateFileHash] computes no hash when a chunk promise is
    rejected: it rejects with the error of the first rejection that takes
    place, whatever is fulfilled before or settles afterwards.  For an empty
    array of promises it is fulfilled at once, as is [collectChunks]: with
    the digest of the empty string, and with the empty array. *)
Theorem calculateFileHash_rejects_with_first_failure (md5 : string → string) :
  (∀ (sources : list (Settled Chunk)) pre i post e,
     (∀ j e', j ∈ pre → sources !! j ≠ Some (Rejected e')) →
     sources !! i = Some (Rejected e) →
     calculateFileHash md5 sources (pre ++ i :: post) = Some (Rejected e)) ∧
  (∀ (sources : list (Settled Chunk)) order i e,
     i ∈ order → sources !! i = Some (Rejected e) →
     ∃ e' k, k ∈ order ∧ sources !! k = Some (Rejected e') ∧
             calculateFileHash md5 sources order = Some (Rejected e')) ∧
  (∀ order, calculateFileHash md5 [] order = Some (Fulfilled (md5 "")) ∧
            collectChunks [] order = Some (Fulfilled [])).
Proof.
  split_and!.
  - intros sources pre i post e Hpre Hi. unfold calculateFileHash.
    by rewrite (settleInOrder_first_rejection sources pre i post e Hpre Hi).
  - intros sources order i e Hin Hi.
    destruct (first_rejection sources order i e Hin Hi)
      as (pre & k & post & e' & -> & Hk & Hpre).
    exists e', k. split_and!; [|done|].
    + apply elem_of_app. right. left.
    + unfold calculateFileHash.
      by rewrite (settleInOrder_first_rejection sources pre k post e' Hpre Hk).
  - intros order.
    pose proof (settleInOrder_all_fulfilled (@nil Chunk) order) as Hall.
    simpl in Hall. unfold calculateFileHash, collectChunks.
    rewrite Hall by (simpl; lia). done.
Qed.

Lemma calculateFileHash_rejects_with_first_failure_witness :
  let c := {| blob := "ab"; hash := "h0"; index := 0; start := 0; end_ := 2 |} in
  calculateFileHash (String.append "md5:")
    [Fulfilled c; Rejected (Failure 1); Rejected (Failure 2)] [0; 2; 1]
  = Some (Rejected (Failure 2)).
Proof.
  intros c.
  destruct (calculateFileHash_rejects_with_first_failure (String.append "md5:")) as [H _].
  apply (H [Fulfilled c; Rejected (Failure 1); Rejected (Failure 2)] [0] 2 [1]); [|done].
  intros j e' ->%list_elem_of_singleton. done.
Defined.

Lemma worker_posts_its_range_in_order_witness :
  let file := {| content := "abcdefghij" |} in
  let md5 := String.append "md5:" in
  Worker.onmessage md5 file 4 1 3 [false; true; false; false; true]
  = [messageFor md5 file 4 1 1; messageFor md5 file 4 1 2].
Proof.
  intros file md5.
  destruct (worker_posts_its_range_in_order md5 file 4 1 3 [false; true; false; false; true])
    as (_ & _ & _ & H & _).
  rewrite H; [reflexivity|]. vm_compute. lia.
Defined.

(** ** chunkFile at the edges of its input *)

Lemma ceilDiv_negative a b : (0 ≤ a)%Z → (b < 0)%Z → (ceilDiv a b ≤ 0)%Z.
Proof.
  intros Ha Hb. unfold ceilDiv.
  assert (0 ≤ - a / b)%Z; [|lia].
  rewrite <- (Z.opp_involutive b), Z.div_opp_opp by lia.
  apply Z.div_pos; lia.
Qed.

(** X20: [chunkFile] throws 'Invalid or empty file' for a missing file and
    for a file of size 0, whatever the options.  For a non-empty file a
    [chunkSize] of 0 is not reported as such: the call throws when the
    promise array is created; and a negative [chunkSize] is accepted: the
    call returns an empty array and creates no worker.  With no [chunkSize]
    given, a file of at most 1 MiB is cut into one chunk, by one worker, and
    that chunk is the whole file. *)
Theorem chunkFile_at_the_edges (options : Options) (hw : nat) :
  chunkFile None options hw = inl InvalidOrEmptyFile ∧
  (∀ file, fileSize file = 0%Z →
     chunkFile (Some file) options hw = inl InvalidOrEmptyFile) ∧
  (∀ file, (0 < fileSize file)%Z → chunkSize options = Some 0%Z →
     chunkFile (Some file) options hw = inl InvalidArrayLength) ∧
  (∀ file size, (0 < fileSize file)%Z → chunkSize options = Some size → (size < 0)%Z →
     ∃ c, chunkFile (Some file) options hw = inr c ∧
          promises (resolving c) = [] ∧ workers c = []) ∧
  (∀ file, (0 < fileSize file ≤ 1024 * 1024)%Z → chunkSize options = None →
     ∃ c, chunkFile (Some file) options hw = inr c ∧
          chunkedBy c = fileSize file ∧
          promises (resolving c) = [None] ∧ workers c = [createWorker 0 1] ∧
          ∀ md5, chunksOf md5 file (chunkedBy c)
                 = [ {| blob := content file; hash := md5 (content file); index := 0;
                        start := 0; end_ := fileSize file |} ]).
Proof.
  split_and!.
  - done.
  - intros file Hz. unfold chunkFile. by rewrite bool_decide_true.
  - intros file Hpos Hcs. unfold chunkFile. rewrite bool_decide_false by lia.
    rewrite Hcs. simpl. done.
  - intros file size Hpos Hcs Hneg. unfold chunkFile.
    rewrite bool_decide_false by lia. rewrite Hcs. cbn [default from_option id].
    rewrite bool_decide_false by lia.
    pose proof (ceilDiv_negative (fileSize file) size ltac:(lia) Hneg) as Hle.
    rewrite bool_decide_false by lia. eexists. split; [done|].
    cbn [resolving promises workers]. split.
    + by rewrite Z2Nat.nonpos by lia.
    + by rewrite seqZ_nil by lia.
  - intros file Hrange Hcs.
    assert (Hsize : chunkSizeOf file options = fileSize file).
    { unfold chunkSizeOf. rewrite Hcs. simpl. lia. }
    assert (Htotal : ceilDiv (fileSize file) (fileSize file) = 1%Z).
    { pose proof (ceilDiv_spec (fileSize file) (fileSize file) ltac:(lia)). nia. }
    destruct (chunkFile_valid file options hw) as (Heq & _);
      [lia|rewrite Hsize; lia|rewrite Hsize, Htotal; lia|].
    rewrite Hsize, Htotal in Heq.
    assert (Hcores : (1 ≤ coresOr4 hw)%Z) by (unfold coresOr4; destruct hw; lia).
    rewrite (Z.min_r (coresOr4 hw) 1) in Heq by lia.
    assert (Hper : ceilDiv 1 1 = 1%Z) by reflexivity. rewrite Hper in Heq.
    eexists. split; [exact Heq|]. cbn [chunkedBy resolving promises workers].
    split_and!; try done.
    intros md5. unfold chunksOf. rewrite Htotal.
    change (seqZ 0 1) with [0%Z]. rewrite list_fmap_singleton.
    unfold Worker.chunkAt. rewrite Z.mul_0_l, Z.add_0_l, Z.min_id.
    rewrite slice_inside by lia. rewrite Z.sub_0_r. unfold fileSize at 1 2.
    rewrite Nat2Z.id. change (Z.to_nat 0) with 0. rewrite substring_all. done.
Qed.

Lemma chunkFile_at_the_edges_witness :
  ∃ c, chunkFile (Some {| content := "abc" |}) {| chunkSize := Some (-2)%Z |} 8 = inr c ∧
       promises (resolving c) = [] ∧ workers c = [].
Proof.
  destruct (chunkFile_at_the_edges {| chunkSize := Some (-2)%Z |} 8) as (_ & _ & _ & H & _).
  apply (H {| content := "abc" |} (-2)%Z); done.
Defined.

(** ** The signal a processor call is handed *)

Lemma signalTracksPause_view w w' :
  signalView w' = signalView w → signalTracksPause w → signalTracksPause w'.
Proof.
  unfold signalView, signalTracksPause, signalAborted, signal.
  intros [= -> -> -> ->]. done.
Qed.

Lemma signalView_waitIfPaused w : signalView (waitIfPaused w).1 = signalView w.
Proof.
  unfold waitIfPaused, signalView.
  destruct (paused (ctl w)) eqn:Hp; simpl; rewrite ?Hp; reflexivity.
Qed.

Lemma signalView_loopHead {T} retry w :
  signalView (loopHead (T:=T) retry w).1 = signalView w.
Proof.
  unfold loopHead. destruct (checkCancelled w); [done|].
  pose proof (signalView_waitIfPaused w). by destruct (waitIfPaused w).
Qed.

Lemma signalTracksPause_pause w : signalTracksPause (pause w).
Proof. intros _. by left. Qed.

Lemma signalTracksPause_cancel w : signalTracksPause (cancel w).
Proof. intros _. right. apply cancelled_cancel. Qed.

Lemma signalTracksPause_resume w : signalTracksPause w → signalTracksPause (resume w).
Proof.
  intros Hw. unfold resume. destruct (paused (ctl w)) eqn:Hp; simpl; [|done].
  unfold signalTracksPause, signalAborted, signal. simpl.
  rewrite lookup_app_r by done. rewrite Nat.sub_diag. simpl. done.
Qed.

Lemma step_signal opts s ev s' :
  signalTracksPause (world s) → step opts s ev = Some s' → settledMain s' = false →
  signalTracksPause (world s').
Proof.
  intros Hsig Hs Hpending. unfold settledMain in Hpending.
  inv_step Hs Ht Hx Hap; try done.
  - apply (signalTracksPause_view (world s)); [|done].
    unfold executeWithRetry in Hx. pose proof (signalView_loopHead (T:=unit) 0 (world s)) as Hv.
    by rewrite Hx in Hv.
  - assert (signalView w = signalView (world s)) as Hv.
    { unfold resumeRetry in Hx. destruct (canResume _ _); [|done].
      destruct pc; simplify_eq; [done|].
      pose proof (signalView_loopHead (T:=unit) retry (world s)) as Hv.
      by rewrite Hx in Hv. }
    apply (signalTracksPause_view (world s)); [|done]. by destruct (callsFn p).
  - apply afterProcessor_same in Hap as (_ & _ & _ & Hw & _).
    apply (signalTracksPause_view (world s)); [|done]. simpl. rewrite <- Hw.
    unfold settleFn in Hx. destruct pc; try done.
    destruct s0; simplify_eq; [done|]. unfold delay in Hx. by simplify_eq.
  - destruct (mainLoop_world opts rest s) as [->|[Hc _]]; [done|].
    unfold checkCancelled in Hx. by rewrite Hc in Hx.
  - apply fireTimeout_Some in Hx as (t & _ & _ & _ & Hc & _ & _ & _ & Ha & _).
    apply (signalTracksPause_view (world s)); [|done]. unfold signalView. simpl.
    by rewrite Hc, Ha.
  - apply elapse_Some in Hx as (_ & Hc & _ & _ & _ & Ha & _).
    apply (signalTracksPause_view (world s)); [|done]. unfold signalView. simpl.
    by rewrite Hc, Ha.
  - apply signalTracksPause_pause.
  - by apply signalTracksPause_resume.
  - apply signalTracksPause_cancel.
Qed.

Lemma step_pending opts s ev s' :
  step opts s ev = Some s' → settledMain s' = false → settledMain s = false.
Proof.
  intros Hs Hp. unfold settledMain in *.
  destruct (main s) as [| |res] eqn:Hm; try done.
  by rewrite (step_done _ _ _ _ _ Hm Hs) in Hp.
Qed.

Lemma run_signal opts evs s s' :
  signalTracksPause (world s) → run opts s evs = Some s' → settledMain s' = false →
  signalTracksPause (world s').
Proof.
  revert s. induction evs as [|ev evs IH]; simpl; intros s Hsig Hrun Hp; [by simplify_eq|].
  destruct (step opts s ev) as [s1|] eqn:Hs; [|done]. simpl in Hrun.
  assert (Hp1 : settledMain s1 = false).
  { clear IH Hs. revert s1 Hrun. induction evs as [|ev' evs IH']; simpl; intros s1 Hrun.
    - by simplify_eq.
    - destruct (step opts s1 ev') as [s2|] eqn:Hs2; [|done]. simpl in Hrun.
      eauto using step_pending. }
  eauto using step_signal.
Qed.

(** X21: every processor call is handed the signal the controller holds at
    that moment, and none is made once the controller is cancelled.  As
    long as the main promise of [processChunks] has not settled, the signal
    handed over is already aborted exactly when the controller is paused at
    the time of the call, which happens for a task that had passed the
    pause check before [pause()] was called. *)
Theorem processor_signal_is_aborted_iff_paused (opts : ProcessOptions) (n : nat) (t0 : Z)
    (evs : list Event) (s : Run) (ev : Event) (s' : Run)
    (Hrun : run opts (processChunks opts n t0) evs = Some s)
    (Hstep : step opts s ev = Some s')
    (Hcall : invoked s' ≠ invoked s) :
  ∃ i, ev = TaskResumes i ∧ world s' = world s ∧
       invoked s' = invoked s ++ [(i, signal (world s'))] ∧
       cancelled (ctl (world s')) = false ∧
       (settledMain s' = false →
        signalAborted (signal (world s')) (world s') = paused (ctl (world s'))).
Proof.
  destruct (step_invoked _ _ _ _ Hstep) as [?|(i & -> & Hw & Hinv)]; [done|].
  exists i. rewrite Hw. split_and!; try done.
  - destruct (cancelled (ctl (world s))) eqn:Hc; [|done].
    by destruct (step_after_cancel _ _ _ _ Hc Hstep) as [_ ?].
  - intros Hp.
    assert (Hsig0 : signalTracksPause (world (processChunks opts n t0))).
    { unfold processChunks.
      match goal with |- signalTracksPause (world (mainLoop _ _ ?s0)) =>
        destruct (mainLoop_world opts (seq 0 n) s0) as [->|[Hc _]]; [|done] end.
      by intros ?. }
    assert (Hp0 : settledMain s = false) by eauto using step_pending.
    pose proof (run_signal _ _ _ _ Hsig0 Hrun Hp0) as Hsig.
    pose proof (reachable_wellFormed _
                  (run_reachable _ _ _ _ (processChunks_reachable opts n t0) Hrun)) as Hwf.
    destruct (paused (ctl (world s))) eqn:Hpa.
    + unfold signalAborted, signal. by rewrite (wf_paused _ Hwf Hpa).
    + destruct (signalAborted (signal (world s)) (world s)) eqn:Ha; [|done].
      destruct (Hsig Ha) as [?|Hc]; [congruence|].
      by destruct (step_after_cancel _ _ _ _ Hc Hstep) as [_ ?].
Qed.

Lemma processor_signal_is_aborted_iff_paused_witness :
  let opts := {| concurrency := None; onProgress := false |} in
  let c := {| blob := "x"; hash := "h"; index := 0; start := 0; end_ := 1 |} in
  let evs := [ChunkSettles 0 (Fulfilled c); UserPause] in
  ∃ s s', run opts (processChunks opts 1 0) evs = Some s ∧
          step opts s (TaskResumes 0) = Some s' ∧
          invoked s' = [(0, 0)] ∧ paused (ctl (world s')) = true ∧
          signalAborted 0 (world s') = true.
Proof.
  intros opts c evs.
  assert (Hs : is_Some (run opts (processChunks opts 1 0) evs)) by (vm_compute; eauto).
  destruct Hs as [s Hrun].
  assert (Hs : is_Some (step opts s (TaskResumes 0))).
  { vm_compute in Hrun. injection Hrun as <-. vm_compute. eauto. }
  destruct Hs as [s' Hstep]. exists s, s'.
  assert (Hfacts : invoked s = [] ∧ invoked s' = [(0, 0)] ∧ settledMain s' = false ∧
                   paused (ctl (world s')) = true ∧ signal (world s') = 0).
  { vm_compute in Hrun. injection Hrun as <-. vm_compute in Hstep.
    injection Hstep as <-. split_and!; reflexivity. }
  destruct Hfacts as (Hi & Hi' & Hp & Hpa & Hsg).
  destruct (processor_signal_is_aborted_iff_paused opts 1 0 evs s (TaskResumes 0) s'
              Hrun Hstep) as (i & _ & _ & _ & _ & Ha).
  { by rewrite Hi, Hi'. }
  split_and!; try done. rewrite <- Hsg, (Ha Hp). exact Hpa.
Defined.
